(** * Log restore (cdclog replay) and the lightning row encoder

    A shallow embedding of [br/pkg/restore/log_client.go] (the log replay
    client: file classification, database-level DDL, the per-table replay
    loop, the sort-and-deduplicate step of [writeRows]), of
    [br/pkg/lightning/backend/kv/sql2kv.go] (the row encoder with its
    generated columns, the rows of encoded pairs, the row IDs of a table
    with shard bits) and of the handle registry of
    [distribute_framework/dispatcher/register.go].

    Unsigned 64-bit timestamps are integers of [Z] in [0, maxUint64]; byte
    slices are [list byte]; Go maps are [gmap]s; functions that return
    [(T, error)] return a pair or a sum; code that mutates the client, talks
    to the cluster or can fail runs in the monad [restore.M]. *)

From stdpp Require Import gmap strings list pretty.
From Stdlib Require Import ZArith Lia Sorted Permutation Ascii.
From Stdlib.Strings Require Import Byte.

Open Scope string_scope.
Open Scope list_scope.
Open Scope Z_scope.

(* ===================================================================== *)
(** * Part I: definitions                                                 *)
(* ===================================================================== *)

(** ** The Go standard-library functions the sources call *)

Module Go.

(** [strings.Split(s, sep)] for a one-byte separator: the pieces between
    the occurrences of [sep]; a string without [sep] (also the empty one)
    gives one piece. *)
Fixpoint Split (s : string) (sep : ascii) : list string :=
  match s with
  | EmptyString => [EmptyString]
  | String c rest =>
      if Ascii.eqb c sep then EmptyString :: Split rest sep
      else match Split rest sep with
           | piece :: pieces => String c piece :: pieces
           | [] => [String c EmptyString]
           end
  end.

(** The value of a decimal digit, when the byte is one. *)
Definition digitVal (c : ascii) : option Z :=
  let n := Z.of_N (N_of_ascii c) in
  if (48 <=? n) && (n <=? 57) then Some (n - 48) else None.

Fixpoint parseDigits (s : string) (acc : Z) : option Z :=
  match s with
  | EmptyString => Some acc
  | String c rest =>
      match digitVal c with
      | Some d => parseDigits rest (acc * 10 + d)
      | None => None
      end
  end.

Inductive NumError := ErrSyntax | ErrRange.

(** [strconv.ParseUint(s, 10, 64)]: a non-empty string of decimal digits
    (no sign, no underscore) whose value fits 64 bits. *)
Definition ParseUint (s : string) : Z + NumError :=
  match s with
  | EmptyString => inr ErrSyntax
  | _ =>
      match parseDigits s 0 with
      | None => inr ErrSyntax
      | Some v => if v <=? 18446744073709551615 then inl v else inr ErrRange
      end
  end.

Definition isSlash (c : ascii) : bool := Ascii.eqb c "/".

(** The part of a reversed path before its first separator. *)
Fixpoint lastElemRev (p : list ascii) : list ascii :=
  match p with
  | [] => []
  | c :: rest => if isSlash c then [] else c :: lastElemRev rest
  end.

Fixpoint dropSlashes (p : list ascii) : list ascii :=
  match p with
  | [] => []
  | c :: rest => if isSlash c then dropSlashes rest else p
  end.

(** [filepath.Base(path)] on a slash-separated path: the last element,
    trailing slashes removed; "." for the empty path and "/" for a path
    of slashes only. *)
Definition Base (path : string) : string :=
  match path with
  | EmptyString => "."
  | _ =>
      match dropSlashes (rev (String.list_ascii_of_string path)) with
      | [] => "/"
      | p => String.string_of_list_ascii (rev (lastElemRev p))
      end
  end.

(** [bytes.Compare(a, b)]: -1, 0 or 1 by the lexicographic order of the
    unsigned bytes. *)
Fixpoint Compare (a b : list byte) : Z :=
  match a, b with
  | [], [] => 0
  | [], _ :: _ => -1
  | _ :: _, [] => 1
  | x :: a', y :: b' =>
      if (Byte.to_N x <? Byte.to_N y)%N then -1
      else if (Byte.to_N y <? Byte.to_N x)%N then 1
      else Compare a' b'
  end.

(** [bytes.Equal(a, b)]. *)
Fixpoint Equal (a b : list byte) : bool :=
  match a, b with
  | [], [] => true
  | x :: a', y :: b' => Byte.eqb x y && Equal a' b'
  | _, _ => false
  end.

Section Sorting.
Context {A : Type} (less : A -> A -> bool).

(** [x] goes before the first element that is not smaller than it, so
    an [x] that came first stays first among its equals. *)
Fixpoint insertBefore (x : A) (l : list A) : list A :=
  match l with
  | [] => [x]
  | y :: l' => if less y x then y :: insertBefore x l' else x :: y :: l'
  end.

(** [sort.SliceStable(s, less)]: the stable sort of [s]. The library
    sorts blocks by insertion and merges them; for a strict weak order
    the stable result is unique, and this insertion sort computes it. *)
Fixpoint SliceStable (l : list A) : list A :=
  match l with
  | [] => []
  | x :: l' => insertBefore x (SliceStable l')
  end.
End Sorting.

(** [sort.Sort(sort.Reverse(sort.StringSlice(s)))]: descending byte-wise
    order. Equal strings are identical, so the result does not depend on
    the algorithm. *)
Definition SortReverseStrings (s : list string) : list string :=
  SliceStable (fun a b => String.ltb b a) s.

End Go.

(** ** [br/pkg/kv]: key/value pairs *)

Module kv.

Record Pair := { Key : list byte; Val : list byte }.

Definition Pairs := list Pair.

(** The comparison [writeRows] passes to [sort.SliceStable]. *)
Definition lessKey (a b : Pair) : bool := Go.Compare (Key a) (Key b) <? 0.

(** The order of pairs by key, and the test for one key. *)
Definition keyLe (p q : Pair) : Prop := Go.Compare (Key p) (Key q) <= 0.
Definition keyLt (p q : Pair) : Prop := Go.Compare (Key p) (Key q) < 0.
Definition hasKey (k : list byte) (p : Pair) : bool := Go.Equal (Key p) k.

(** [kv.NextKey]: the successor of a key in the byte order, as the writer
    uses it for the exclusive end of the covering range. *)
Definition NextKey (key : list byte) : list byte := key ++ [Byte.x00].

End kv.

(** ** [br/pkg/cdclog]: events and the table buffer *)

Module cdclog.

Inductive ItemType := DDL | RowChanged.

(** [model.ActionType], the kinds the restore client tells apart. *)
Inductive ActionType :=
| ActionCreateSchema
| ActionDropSchema
| ActionCreateTable
| ActionDropTable
| ActionModifySchemaCharsetAndCollate
| ActionOther.

Record MessageDDL := { Query : string; Type_ : ActionType }.

(** The captured row: opaque to the replay loop, read by the encoder. *)
Record MessageRow := { RowPayload : list byte }.

(** [SortItem.Data] is an [interface{}] holding a [*MessageDDL] or a
    [*MessageRow]; the decoder sets [ItemType] to match. *)
Inductive ItemData :=
| DataDDL (ddl : MessageDDL)
| DataRow (row : MessageRow).

Record SortItem := {
  Data : ItemData;
  Schema : string;
  Table : string;
  TS : Z
}.

Definition ItemTypeOf (item : SortItem) : ItemType :=
  match Data item with
  | DataDDL _ => DDL
  | DataRow _ => RowChanged
  end.

(** A table descriptor of the restore cluster ([table.Table]). *)
Record TableDesc := { TableMetaID : Z }.

(** Modelled from the spec: the [TableBuffer] of [br/pkg/cdclog] is not
    among the sources. The spec (section 3, [TableBuffer]) lists what it
    holds: the resolved table descriptor (none while the schema is not
    yet resolved), the pending encoded pairs, and the count and byte-size
    thresholds. *)
Record TableBuffer := {
  KvPairs : kv.Pairs;
  tableInfo : option TableDesc;
  flushKVPairs : Z;
  flushKVSize : Z
}.

Definition pairSize (p : kv.Pair) : Z :=
  Z.of_nat (length (kv.Key p)) + Z.of_nat (length (kv.Val p)).

Definition bufferSize (t : TableBuffer) : Z :=
  fold_right (fun p acc => pairSize p + acc) 0 (KvPairs t).

(** Modelled from the spec: [NewTableBuffer]. *)
Definition NewTableBuffer (tbl : option TableDesc) (flushPairs flushSize : Z)
  : TableBuffer :=
  {| KvPairs := []; tableInfo := tbl;
     flushKVPairs := flushPairs; flushKVSize := flushSize |}.

(** Modelled from the spec: [TableBuffer.TableInfo]. *)
Definition TableInfo (t : TableBuffer) : option TableDesc := tableInfo t.

(** Modelled from the spec: [TableBuffer.TableID], 0 while unresolved. *)
Definition TableID (t : TableBuffer) : Z :=
  match tableInfo t with
  | Some tbl => TableMetaID tbl
  | None => 0
  end.

(** Modelled from the spec: [TableBuffer.IsEmpty]. *)
Definition IsEmpty (t : TableBuffer) : bool :=
  match KvPairs t with [] => true | _ => false end.

(** Modelled from the spec (4.4 step 8): [TableBuffer.ShouldApply], the
    pair count or the byte size has reached its threshold. *)
Definition ShouldApply (t : TableBuffer) : bool :=
  (flushKVSize t <=? bufferSize t)
  || (flushKVPairs t <=? Z.of_nat (length (KvPairs t))).

(** Modelled from the spec: [TableBuffer.Clear] drops the pending pairs. *)
Definition Clear (t : TableBuffer) : TableBuffer :=
  {| KvPairs := []; tableInfo := tableInfo t;
     flushKVPairs := flushKVPairs t; flushKVSize := flushKVSize t |}.

(** Modelled from the spec (4.3): [TableBuffer.ResetTableInfo] sets the
    descriptor back to unresolved and keeps the buffer. *)
Definition ResetTableInfo (t : TableBuffer) : TableBuffer :=
  {| KvPairs := KvPairs t; tableInfo := None;
     flushKVPairs := flushKVPairs t; flushKVSize := flushKVSize t |}.

(** Modelled from the spec (4.3): [TableBuffer.ReloadMeta] attaches the
    descriptor resolved from the reloaded catalog. *)
Definition ReloadMeta (t : TableBuffer) (tbl : TableDesc) : TableBuffer :=
  {| KvPairs := KvPairs t; tableInfo := Some tbl;
     flushKVPairs := flushKVPairs t; flushKVSize := flushKVSize t |}.

(** Modelled from the spec (4.4 step 7): the pairs of one encoded row are
    appended to the pending pairs. *)
Definition appendPairs (t : TableBuffer) (ps : kv.Pairs) : TableBuffer :=
  {| KvPairs := KvPairs t ++ ps; tableInfo := tableInfo t;
     flushKVPairs := flushKVPairs t; flushKVSize := flushKVSize t |}.

(** What [EventPuller.PullOneEvent] returns: an item or an error; the end
    of the stream is the nil item. *)
Inductive PullResult :=
| PullItem (item : SortItem)
| PullError (msg : string).

End cdclog.

(** ** [br/pkg/restore]: the log restore client *)

Module restore.
Import cdclog.

Definition tableLogPrefix : string := "t_".
Definition logPrefix : string := "cdclog".
Definition metaFile : string := "log.meta".
Definition ddlEventsDir : string := "ddls".
Definition ddlFilePrefix : string := "ddl".
Definition maxUint64 : Z := 18446744073709551615.

(** An error of a collaborator (storage, decoder, SQL executor, catalog,
    encoder, ingester), by its message. *)
Definition ExtErr := string.

Inductive Error :=
| ErrRestoreRTsConstrain
| ErrRestoreSchemaNotExists (schema : string)
| ErrParseUint (e : Go.NumError)
| ErrExternal (e : ExtErr).

(** [LogMeta], the content of [log.meta]. *)
Record LogMeta := { Names : gmap Z string; GlobalResolvedTS : Z }.

(** What a run does to the outside, in order. *)
Inductive Event :=
| EvExecute (sql : string)
| EvLock
| EvUnlock
| EvAppend (tableID : Z) (item : SortItem)
| EvIngest (kvs : kv.Pairs)
| EvWorker (tableID : Z).

(** The collaborators of the client, which the sources only call: the
    blob storage, the JSON decoders, the SQL executor, the schema catalog,
    the row encoder behind [TableBuffer.Append], the pair classifier, the
    range ingester, the table filter and the event puller. [World] is the
    state of the restore cluster behind the session, the catalog and the
    ingester. The blob storage holds a finished backup and is only read:
    its answers do not depend on the [World]. *)
Class Collaborators := {
  World : Type;
  (** [storage.ReadFile] *)
  ReadFile : string -> list byte + ExtErr;
  (** [storage.WalkDir] on a sub-directory: the paths it visits, and the
      error of the listing itself when it fails after them. *)
  WalkDir : string -> list string * option ExtErr;
  (** [json.Unmarshal(data, l.meta)] *)
  jsonUnmarshal : list byte -> LogMeta -> LogMeta + ExtErr;
  (** [cdclog.NewJSONEventBatchDecoder] and the results of the calls of
      [NextEvent(cdclog.DDL)] while [HasNext] holds. *)
  NewJSONEventBatchDecoder : list byte -> list (SortItem + ExtErr) + ExtErr;
  (** [l.restoreClient.db.se.Execute] *)
  seExecute : string -> World -> World * option ExtErr;
  (** [dom.Reload] *)
  domReload : World -> World * option ExtErr;
  (** [dom.InfoSchema()] lookups *)
  TableByID : World -> Z -> option TableDesc;
  TableByName : World -> string -> string -> TableDesc + ExtErr;
  SchemaByName : World -> string -> bool;
  TableExists : World -> string -> string -> bool;
  (** [ParseQuoteName] of the restore package *)
  ParseQuoteName : string -> string * string;
  (** [l.tableFilter.MatchTable] *)
  MatchTable : string -> string -> bool;
  (** [cdclog.NewEventPuller]: the stream of one table *)
  NewEventPuller :
    string -> string -> list string -> list string -> list PullResult + ExtErr;
  (** the row encoder inside [TableBuffer.Append] *)
  encodeRow : option TableDesc -> SortItem -> kv.Pairs + ExtErr;
  (** [Pair.ClassifyAndAppend]: is this a data (not an index) pair *)
  isDataPair : kv.Pair -> bool;
  (** the loop of [writeRows] over the remaining ranges, run until none
      remains or a range fails *)
  ingestRanges :
    kv.Pairs -> list byte * list byte -> World -> World * option ExtErr;
  (** [sort.Slice] with the comparison of [collectRowChangeFiles] *)
  sortRowChangeFiles : list string -> list string
}.

Section Client.
Context `{Collaborators}.

(** [LogClient], the fields the replay uses. A held [ddlLock] is
    [true]. *)
Record LogClient := {
  ddlLock : bool;
  restoreClient : World;
  startTS : Z;
  endTS : Z;
  BatchFlushKVPairs : Z;
  BatchFlushKVSize : Z;
  meta : LogMeta;
  eventPullers : gmap Z (list PullResult);
  tableBuffers : gmap Z TableBuffer;
  dropTSMap : gmap string Z
}.

Definition setLock (b : bool) (l : LogClient) : LogClient :=
  {| ddlLock := b; restoreClient := restoreClient l;
     startTS := startTS l; endTS := endTS l;
     BatchFlushKVPairs := BatchFlushKVPairs l;
     BatchFlushKVSize := BatchFlushKVSize l; meta := meta l;
     eventPullers := eventPullers l; tableBuffers := tableBuffers l;
     dropTSMap := dropTSMap l |}.

Definition setWorld (w : World) (l : LogClient) : LogClient :=
  {| ddlLock := ddlLock l; restoreClient := w;
     startTS := startTS l; endTS := endTS l;
     BatchFlushKVPairs := BatchFlushKVPairs l;
     BatchFlushKVSize := BatchFlushKVSize l; meta := meta l;
     eventPullers := eventPullers l; tableBuffers := tableBuffers l;
     dropTSMap := dropTSMap l |}.

Definition setEndTS (ts : Z) (l : LogClient) : LogClient :=
  {| ddlLock := ddlLock l; restoreClient := restoreClient l;
     startTS := startTS l; endTS := ts;
     BatchFlushKVPairs := BatchFlushKVPairs l;
     BatchFlushKVSize := BatchFlushKVSize l; meta := meta l;
     eventPullers := eventPullers l; tableBuffers := tableBuffers l;
     dropTSMap := dropTSMap l |}.

Definition setMeta (m : LogMeta) (l : LogClient) : LogClient :=
  {| ddlLock := ddlLock l; restoreClient := restoreClient l;
     startTS := startTS l; endTS := endTS l;
     BatchFlushKVPairs := BatchFlushKVPairs l;
     BatchFlushKVSize := BatchFlushKVSize l; meta := m;
     eventPullers := eventPullers l; tableBuffers := tableBuffers l;
     dropTSMap := dropTSMap l |}.

Definition setPuller (tableID : Z) (p : list PullResult) (l : LogClient)
  : LogClient :=
  {| ddlLock := ddlLock l; restoreClient := restoreClient l;
     startTS := startTS l; endTS := endTS l;
     BatchFlushKVPairs := BatchFlushKVPairs l;
     BatchFlushKVSize := BatchFlushKVSize l; meta := meta l;
     eventPullers := <[tableID := p]> (eventPullers l);
     tableBuffers := tableBuffers l; dropTSMap := dropTSMap l |}.

Definition setBuffer (tableID : Z) (t : TableBuffer) (l : LogClient)
  : LogClient :=
  {| ddlLock := ddlLock l; restoreClient := restoreClient l;
     startTS := startTS l; endTS := endTS l;
     BatchFlushKVPairs := BatchFlushKVPairs l;
     BatchFlushKVSize := BatchFlushKVSize l; meta := meta l;
     eventPullers := eventPullers l;
     tableBuffers := <[tableID := t]> (tableBuffers l);
     dropTSMap := dropTSMap l |}.

(** [l.dropTSMap.Store(schema, ts)] *)
Definition storeDropTS (schema : string) (ts : Z) (l : LogClient)
  : LogClient :=
  {| ddlLock := ddlLock l; restoreClient := restoreClient l;
     startTS := startTS l; endTS := endTS l;
     BatchFlushKVPairs := BatchFlushKVPairs l;
     BatchFlushKVSize := BatchFlushKVSize l; meta := meta l;
     eventPullers := eventPullers l; tableBuffers := tableBuffers l;
     dropTSMap := <[schema := ts]> (dropTSMap l) |}.

(** [ResetTSRange] *)
Definition ResetTSRange (startTs endTs : Z) (l : LogClient) : LogClient :=
  {| ddlLock := ddlLock l; restoreClient := restoreClient l;
     startTS := startTs; endTS := endTs;
     BatchFlushKVPairs := BatchFlushKVPairs l;
     BatchFlushKVSize := BatchFlushKVSize l; meta := meta l;
     eventPullers := eventPullers l; tableBuffers := tableBuffers l;
     dropTSMap := dropTSMap l |}.

(** *** The monad of the client's methods

    A method either returns ([Ok]), returns an error ([Failed]), panics
    on a nil buffer or a failed type assertion ([Panicked]), or waits
    for ever for the DDL lock ([Blocked]). It changes the client and
    emits events. *)
Inductive Stop := Failed (e : Error) | Panicked | Blocked.

Inductive Outcome (A : Type) :=
| Ok (a : A)
| Halt (s : Stop).
Global Arguments Ok {A} a.
Global Arguments Halt {A} s.

Definition M (A : Type) : Type :=
  LogClient -> Outcome A * LogClient * list Event.

Definition ret {A} (a : A) : M A := fun l => (Ok a, l, []).

Definition bind {A B} (m : M A) (k : A -> M B) : M B :=
  fun l =>
    match m l with
    | (Ok a, l1, t1) =>
        match k a l1 with
        | (r, l2, t2) => (r, l2, t1 ++ t2)
        end
    | (Halt s, l1, t1) => (Halt s, l1, t1)
    end.

Definition halt {A} (s : Stop) : M A := fun l => (Halt s, l, []).
Definition fail {A} (e : Error) : M A := halt (Failed e).
Definition get : M LogClient := fun l => (Ok l, l, []).
Definition modify (f : LogClient -> LogClient) : M unit :=
  fun l => (Ok tt, f l, []).
Definition emit (e : Event) : M unit := fun l => (Ok tt, l, [e]).

End Client.

Declare Scope restore_scope.
Notation "x <- m ; k" := (bind m (fun x => k))
  (at level 100, m at next level, right associativity,
   format "'[' x  <-  m ;  '/' k ']'") : restore_scope.
Notation "m ;; k" := (bind m (fun _ => k))
  (at level 100, right associativity,
   format "'[' m  ;;  '/' k ']'") : restore_scope.
Delimit Scope restore_scope with restore.
Bind Scope restore_scope with M.
Open Scope restore_scope.

Section Methods.
Context `{Collaborators}.

(** The SQL session: the call is recorded, the world moves on, and an
    error of the executor is the error of the call. *)
Definition Execute (sql : string) : M unit :=
  emit (EvExecute sql) ;;
  l <- get ;
  match seExecute sql (restoreClient l) with
  | (w, None) => modify (setWorld w)
  | (w, Some e) => modify (setWorld w) ;; fail (ErrExternal e)
  end.

(** [l.ddlLock.Lock()]: waits while the mutex is held. *)
Definition Lock : M unit :=
  l <- get ;
  if ddlLock l then halt Blocked
  else modify (setLock true) ;; emit EvLock.

(** [l.ddlLock.Unlock()]: unlocking a free mutex is a fatal error. *)
Definition Unlock : M unit :=
  l <- get ;
  if ddlLock l then modify (setLock false) ;; emit EvUnlock
  else halt Panicked.

Definition maybeTSInRange (l : LogClient) (ts : Z) : bool :=
  l.(startTS) <=? ts.

Definition tsInRange (l : LogClient) (ts : Z) : bool :=
  (l.(startTS) <=? ts) && (ts <=? l.(endTS)).

Definition shouldFilter (l : LogClient) (item : SortItem) : bool :=
  match l.(dropTSMap) !! item.(Schema) with
  | Some val => item.(TS) <? val
  | None => false
  end.

(** [NeedRestoreDDL]: the pair [(bool, error)] it returns. *)
Definition NeedRestoreDDL (l : LogClient) (fileName : string)
  : bool * option Error :=
  let names := Go.Split fileName "." in
  match names with
  | [name0; name1] =>
      if negb (String.eqb name0 ddlFilePrefix) then (false, None)
      else
        match Go.ParseUint name1 with
        | inr err => (false, Some (ErrParseUint err))
        | inl ts =>
            let ts := maxUint64 - ts in
            if ts <=? l.(endTS) then (true, None) else (false, None)
        end
  | _ => (false, None)
  end.

(** The callback of [WalkDir] in [collectDDLFiles], over the visited
    paths. *)
Fixpoint walkDDLFiles (l : LogClient) (paths ddlFiles : list string)
  : list string + Error :=
  match paths with
  | [] => inl ddlFiles
  | path :: rest =>
      match NeedRestoreDDL l (Go.Base path) with
      | (_, Some err) => inr err
      | (shouldRestore, None) =>
          walkDDLFiles l rest
            (if shouldRestore then ddlFiles ++ [path] else ddlFiles)
      end
  end.

Definition collectDDLFiles : M (list string) :=
  l <- get ;
  let (paths, walkErr) := WalkDir ddlEventsDir in
  match walkDDLFiles l paths [] with
  | inr err => fail err
  | inl ddlFiles =>
      match walkErr with
      | Some e => fail (ErrExternal e)
      | None => ret (Go.SortReverseStrings ddlFiles)
      end
  end.

Definition isDBRelatedDDL (ddl : MessageDDL) : bool :=
  match ddl.(Type_) with
  | ActionDropSchema | ActionCreateSchema
  | ActionModifySchemaCharsetAndCollate => true
  | _ => false
  end.

Definition isDropTable (ddl : MessageDDL) : bool :=
  match ddl.(Type_) with
  | ActionDropTable => true
  | _ => false
  end.

Definition isDropSchema (ddl : MessageDDL) : bool :=
  match ddl.(Type_) with
  | ActionDropSchema => true
  | _ => false
  end.

(** The inner loop of [doDBDDLJob], over the events one file decodes
    to. *)
Fixpoint doDBDDLEvents (events : list (SortItem + ExtErr)) : M unit :=
  match events with
  | [] => ret tt
  | inr e :: _ => fail (ErrExternal e)
  | inl item :: rest =>
      match item.(Data) with
      | DataRow _ => halt Panicked
      | DataDDL ddl =>
          l <- get ;
          (if isDBRelatedDDL ddl && tsInRange l item.(TS) then
             Execute ddl.(Query) ;;
             if isDropSchema ddl
             then modify (storeDropTS item.(Schema) item.(TS))
             else ret tt
           else ret tt) ;;
          doDBDDLEvents rest
      end
  end.

(** The outer loop of [doDBDDLJob], over the files. *)
Fixpoint doDBDDLFiles (ddls : list string) : M unit :=
  match ddls with
  | [] => ret tt
  | path :: rest =>
      match ReadFile path with
      | inr e => fail (ErrExternal e)
      | inl data =>
          match NewJSONEventBatchDecoder data with
          | inr e => fail (ErrExternal e)
          | inl events => doDBDDLEvents events ;; doDBDDLFiles rest
          end
      end
  end.

Definition doDBDDLJob (ddls : list string) : M unit :=
  match ddls with
  | [] => ret tt
  | _ => doDBDDLFiles ddls
  end.

(** [NeedRestoreRowChange]: the pair [(bool, error)] it returns. *)
Definition NeedRestoreRowChange (l : LogClient) (fileName : string)
  : bool * option Error :=
  if String.eqb fileName logPrefix then (true, None)
  else
    let names := Go.Split fileName "." in
    match names with
    | [name0; name1] =>
        if negb (String.eqb name0 logPrefix) then (false, None)
        else
          match Go.ParseUint name1 with
          | inr err => (false, Some (ErrParseUint err))
          | inl ts =>
              if maybeTSInRange l ts then (true, None) else (false, None)
          end
    | _ => (false, None)
    end.

(** [collectRowChangeFiles], first loop: of the table IDs that share a
    name, the largest is kept. *)
Definition keepLatestTableID (tableID : Z) (name : string)
    (nameIDMap : gmap string Z) : gmap string Z :=
  match nameIDMap !! name with
  | Some tid =>
      if tid <? tableID then <[name := tableID]> nameIDMap else nameIDMap
  | None => <[name := tableID]> nameIDMap
  end.

Definition nameIDMapOf (m : LogMeta) : gmap string Z :=
  map_fold keepLatestTableID ∅ m.(Names).

(** Second loop: the table filter. *)
Definition filteredTableIDs (m : LogMeta) : list Z :=
  omap (fun entry : string * Z =>
          let '(schema, table) := ParseQuoteName entry.1 in
          if MatchTable schema table then Some entry.2 else None)
       (map_to_list (nameIDMapOf m)).

(** The callback of [WalkDir] in [collectRowChangeFiles]. *)
Fixpoint walkRowChangeFiles (l : LogClient) (paths files : list string)
  : list string + Error :=
  match paths with
  | [] => inl files
  | path :: rest =>
      match NeedRestoreRowChange l (Go.Base path) with
      | (_, Some err) => inr err
      | (shouldRestore, None) =>
          walkRowChangeFiles l rest
            (if shouldRestore then files ++ [path] else files)
      end
  end.

(** Third loop: one directory [t_<tableID>] per table. A table with no
    collected file gets no entry. *)
Fixpoint collectTableDirs (l : LogClient) (tableIDs : list Z)
    (rowChangeFiles : gmap Z (list string))
  : gmap Z (list string) + Error :=
  match tableIDs with
  | [] => inl rowChangeFiles
  | tableID :: rest =>
      let dir := tableLogPrefix +:+ pretty tableID in
      let '(paths, walkErr) := WalkDir dir in
      match walkRowChangeFiles l paths [] with
      | inr err => inr err
      | inl files =>
          match walkErr with
          | Some e => inr (ErrExternal e)
          | None =>
              collectTableDirs l rest
                (match files with
                 | [] => rowChangeFiles
                 | _ => <[tableID := files]> rowChangeFiles
                 end)
          end
      end
  end.

Definition collectRowChangeFiles : M (gmap Z (list string)) :=
  l <- get ;
  match collectTableDirs l (filteredTableIDs l.(meta)) ∅ with
  | inr err => fail err
  | inl rowChangeFiles => ret (sortRowChangeFiles <$> rowChangeFiles)
  end.

(** [writeRows], the loop that removes duplicate keys: an element is
    kept when it is the last one or its successor has another key. *)
Fixpoint dedupKeepLast (kvs : kv.Pairs) : kv.Pairs :=
  match kvs with
  | [] => []
  | p :: rest =>
      match rest with
      | [] => [p]
      | q :: _ =>
          if Go.Equal p.(kv.Key) q.(kv.Key) then dedupKeepLast rest
          else p :: dedupKeepLast rest
      end
  end.

(** [newKvs] of [writeRows]: the batch stable-sorted by key, duplicates
    removed. *)
Definition newKvsOf (kvs : kv.Pairs) : kv.Pairs :=
  dedupKeepLast (Go.SliceStable kv.lessKey kvs).

Definition writeRows (kvs : kv.Pairs) : M unit :=
  match kvs with
  | [] => ret tt
  | _ =>
      let newKvs := newKvsOf kvs in
      match head newKvs, last newKvs with
      | Some first, Some final =>
          emit (EvIngest newKvs) ;;
          l <- get ;
          match ingestRanges newKvs
                  (first.(kv.Key), kv.NextKey final.(kv.Key))
                  (restoreClient l) with
          | (w, None) => modify (setWorld w)
          | (w, Some e) => modify (setWorld w) ;; fail (ErrExternal e)
          end
      | _, _ => halt Panicked
      end
  end.

Definition reloadTableMeta (tableID : Z) (item : SortItem) : M unit :=
  l0 <- get ;
  match domReload (restoreClient l0) with
  | (w, Some e) => modify (setWorld w) ;; fail (ErrExternal e)
  | (w, None) =>
      modify (setWorld w) ;;
      l <- get ;
      match l.(tableBuffers) !! tableID with
      | None => halt Panicked
      | Some tb =>
          let newTableID := TableID tb in
          let attach (newTableInfo : TableDesc) : M unit :=
            if SchemaByName w item.(Schema)
            then modify (setBuffer tableID (ReloadMeta tb newTableInfo))
            else fail (ErrRestoreSchemaNotExists item.(Schema)) in
          if negb (newTableID =? 0) then
            match TableByID w newTableID with
            (* [errors.Trace(err)] of the nil [err] of [Reload] *)
            | None => ret tt
            | Some newTableInfo => attach newTableInfo
            end
          else
            match TableByName w item.(Schema) item.(Table) with
            | inr e => fail (ErrExternal e)
            | inl newTableInfo => attach newTableInfo
            end
      end
  end.

Definition applyKVChanges (tableID : Z) : M unit :=
  l <- get ;
  match l.(tableBuffers) !! tableID with
  | None => halt Panicked
  | Some tableBuffer =>
      if IsEmpty tableBuffer then ret tt
      else
        let dataKVs := List.filter isDataPair tableBuffer.(KvPairs) in
        let indexKVs :=
          List.filter (fun p => negb (isDataPair p)) tableBuffer.(KvPairs) in
        writeRows dataKVs ;;
        writeRows indexKVs ;;
        modify (setBuffer tableID (Clear tableBuffer))
  end.

(** [l.tableBuffers[tableID].Append(item)] *)
Definition Append (tableID : Z) (item : SortItem) : M unit :=
  emit (EvAppend tableID item) ;;
  l <- get ;
  match l.(tableBuffers) !! tableID with
  | None => halt Panicked
  | Some tb =>
      match encodeRow (TableInfo tb) item with
      | inr e => fail (ErrExternal e)
      | inl pairs => modify (setBuffer tableID (appendPairs tb pairs))
      end
  end.

(** The body of the DDL case once the event is a table-level DDL of
    this table. *)
Definition executeTableDDL (tableID : Z) (item : SortItem)
    (ddl : MessageDDL) (continue : M unit) : M unit :=
  applyKVChanges tableID ;;
  Lock ;;
  Execute ("use " +:+ item.(Schema)) ;;
  Execute ddl.(Query) ;;
  Unlock ;;
  if isDropTable ddl then
    l <- get ;
    match l.(tableBuffers) !! tableID with
    | None => halt Panicked
    | Some tb => modify (setBuffer tableID (ResetTableInfo tb)) ;; continue
    end
  else reloadTableMeta tableID item ;; continue.

(** The body of the row case. *)
Definition appendRow (tableID : Z) (item : SortItem) (continue : M unit)
  : M unit :=
  l <- get ;
  match l.(tableBuffers) !! tableID with
  | None => halt Panicked
  | Some tb =>
      (match TableInfo tb with
       | None => reloadTableMeta tableID item
       | Some _ => ret tt
       end) ;;
      Append tableID item ;;
      l' <- get ;
      match l'.(tableBuffers) !! tableID with
      | None => halt Panicked
      | Some tb' =>
          (if ShouldApply tb' then applyKVChanges tableID else ret tt) ;;
          continue
      end
  end.

(** [restoreTableFromPuller]: the loop over the events the puller
    yields; the end of the list is the nil item. *)
Fixpoint restoreTableFromPuller (tableID : Z) (puller : list PullResult)
  : M unit :=
  match puller with
  | [] => applyKVChanges tableID
  | PullError msg :: _ => fail (ErrExternal msg)
  | PullItem item :: rest =>
      let continue := restoreTableFromPuller tableID rest in
      l <- get ;
      if item.(TS) <? l.(startTS) then continue
      else if l.(endTS) <? item.(TS) then applyKVChanges tableID
      else if shouldFilter l item then applyKVChanges tableID ;; continue
      else
        match item.(Data) with
        | DataDDL ddl =>
            let name := default "" (l.(meta).(Names) !! tableID) in
            let '(schema, table) := ParseQuoteName name in
            if negb (String.eqb schema item.(Schema)
                     && (String.eqb table item.(Table)
                         || isDBRelatedDDL ddl))
            then continue
            else if isDBRelatedDDL ddl then continue
            else executeTableDDL tableID item ddl continue
        | DataRow _ => appendRow tableID item continue
        end
  end.

(** [restoreTables]: one worker per puller. The workers are run one at
    a time, in the order of the table IDs, and the first that stops ends
    the run: the schedule of a pool of one worker. *)
Fixpoint runWorkers (workers : list (Z * list PullResult)) : M unit :=
  match workers with
  | [] => ret tt
  | (tableID, puller) :: rest =>
      emit (EvWorker tableID) ;;
      restoreTableFromPuller tableID puller ;;
      runWorkers rest
  end.

Definition restoreTables : M unit :=
  l <- get ;
  runWorkers (map_to_list l.(eventPullers)).

(** [RestoreLogData], the loop that creates the puller and the buffer
    of each table. *)
Fixpoint createPullers (ddlFiles : list string)
    (tables : list (Z * list string)) : M unit :=
  match tables with
  | [] => ret tt
  | (tableID, files) :: rest =>
      l <- get ;
      let w := restoreClient l in
      let name := default "" (l.(meta).(Names) !! tableID) in
      let '(schema, table) := ParseQuoteName name in
      match NewEventPuller schema table ddlFiles files with
      | inr e => fail (ErrExternal e)
      | inl puller =>
          modify (setPuller tableID puller) ;;
          tableInfo <-
            (if TableExists w schema table then
               match TableByName w schema table with
               | inr e => fail (ErrExternal e)
               | inl tbl =>
                   if SchemaByName w schema then ret (Some tbl)
                   else fail (ErrRestoreSchemaNotExists schema)
               end
             else ret None) ;
          modify (setBuffer tableID
                    (NewTableBuffer tableInfo l.(BatchFlushKVPairs)
                       l.(BatchFlushKVSize))) ;;
          createPullers ddlFiles rest
      end
  end.

(** [RestoreLogData] after the window check (from "collect ddl files"
    on). *)
Definition restoreAfterWindowCheck : M unit :=
  ddlFiles <- collectDDLFiles ;
  doDBDDLJob ddlFiles ;;
  rowChangesFiles <- collectRowChangeFiles ;
  createPullers ddlFiles (map_to_list rowChangesFiles) ;;
  restoreTables.

Definition RestoreLogData : M unit :=
  l <- get ;
  match ReadFile metaFile with
  | inr e => fail (ErrExternal e)
  | inl data =>
      match jsonUnmarshal data l.(meta) with
      | inr e => fail (ErrExternal e)
      | inl m =>
          modify (setMeta m) ;;
          if m.(GlobalResolvedTS) <? l.(startTS)
          then fail ErrRestoreRTsConstrain
          else
            (if m.(GlobalResolvedTS) <? l.(endTS)
             then modify (setEndTS m.(GlobalResolvedTS))
             else ret tt) ;;
            restoreAfterWindowCheck
      end
  end.

(** *** Vocabulary of the statements *)

(** The pending pairs of a table's buffer. *)
Definition pending (l : LogClient) (tableID : Z) : kv.Pairs :=
  match l.(tableBuffers) !! tableID with
  | Some tb => tb.(KvPairs)
  | None => []
  end.

(** The events among the results of a decoder. *)
Definition okItems (events : list (SortItem + ExtErr)) : list SortItem :=
  omap (fun r : SortItem + ExtErr =>
          match r with inl item => Some item | inr _ => None end)
       events.

(** The events a DDL file decodes to, when it reads and decodes. *)
Definition fileEvents (path : string) : list SortItem :=
  match ReadFile path with
  | inl data =>
      match NewJSONEventBatchDecoder data with
      | inl events => okItems events
      | inr _ => []
      end
  | inr _ => []
  end.

(** A database-level DDL event inside the window of the client. *)
Definition dbDDLInWindow (l : LogClient) (item : SortItem) : bool :=
  match item.(Data) with
  | DataDDL ddl => isDBRelatedDDL ddl && tsInRange l item.(TS)
  | DataRow _ => false
  end.

Definition queryOf (item : SortItem) : string :=
  match item.(Data) with
  | DataDDL ddl => ddl.(Query)
  | DataRow _ => ""
  end.

(** The statements of the database-level DDL events of the files, in the
    order of the files and of the events in each, that lie in the window. *)
Definition dbDDLQueries (l : LogClient) (ddls : list string) : list string :=
  queryOf <$> List.filter (dbDDLInWindow l) (concat (fileEvents <$> ddls)).

(** The outcome, the final client and the events of a run. *)
Definition outcomeOf {A} (r : Outcome A * LogClient * list Event) : Outcome A :=
  r.1.1.
Definition stateOf {A} (r : Outcome A * LogClient * list Event) : LogClient :=
  r.1.2.
Definition traceOf {A} (r : Outcome A * LogClient * list Event) : list Event :=
  r.2.

(** [Q] holds of the outcome, the client and the events so far after [m]
    runs from [l] with the events [t0] behind it. *)
Definition wpa {A} (m : M A) (l : LogClient) (t0 : list Event)
    (Q : Outcome A -> LogClient -> list Event -> Prop) : Prop :=
  Q (outcomeOf (m l)) (stateOf (m l)) (t0 ++ traceOf (m l)).

(** [l'] differs from [l] in the state of the cluster only. *)
Definition onlyWorld (l l' : LogClient) : Prop :=
  l' = setWorld (restoreClient l') l.

(** [m] keeps [I]: from a client and events that satisfy [I], the run ends,
    whatever its outcome, in a client and events that satisfy [I]. *)
Definition keeps {A} (I : LogClient -> list Event -> Prop) (m : M A) : Prop :=
  forall l t, I l t -> wpa m l t (fun _ l' t' => I l' t').

(** What one batch contributes to a flush: nothing when it is empty. *)
Definition ingestEvents (kvs : kv.Pairs) : list Event :=
  match kvs with
  | [] => []
  | _ => [EvIngest (newKvsOf kvs)]
  end.

(** The events of a flush of the pending pairs [ps] that succeeds: the data
    batch, then the index batch. *)
Definition flushEvents (ps : kv.Pairs) : list Event :=
  ingestEvents (List.filter isDataPair ps)
  ++ ingestEvents (List.filter (fun p => negb (isDataPair p)) ps).

(** The worker of table [tableID] started from the client [l0]. *)
Section WorkerVocabulary.
Variables (tableID : Z) (l0 : LogClient).

(** What the worker only reads. *)
Definition sameWindow (l : LogClient) : Prop :=
  l.(startTS) = l0.(startTS) /\ l.(endTS) = l0.(endTS)
  /\ l.(dropTSMap) = l0.(dropTSMap) /\ l.(meta) = l0.(meta)
  /\ l.(eventPullers) = l0.(eventPullers)
  /\ forall tid, tid <> tableID ->
       l.(tableBuffers) !! tid = l0.(tableBuffers) !! tid.

(** An event inside the window that no drop fence hides. *)
Definition admitted (item : SortItem) : Prop :=
  l0.(startTS) <= item.(TS) <= l0.(endTS)
  /\ forall fence, l0.(dropTSMap) !! item.(Schema) = Some fence ->
       fence <= item.(TS).

(** Where a pair of the buffer or of an ingested batch comes from: the
    pairs pending at the start, or a row among [items] that was
    appended. *)
Definition derivedFrom (items : list SortItem) (p : kv.Pair) : Prop :=
  In p (pending l0 tableID)
  \/ exists item ti pairs,
       In item items /\ admitted item
       /\ encodeRow ti item = inl pairs /\ In p pairs.

(** The rows the run has appended so far. *)
Definition appendedRows (t : list Event) : list SortItem :=
  omap (fun e => match e with EvAppend _ item => Some item | _ => None end) t.

(** An event that neither appends a row nor ingests a batch. *)
Definition silent (e : Event) : Prop :=
  match e with
  | EvAppend _ _ | EvIngest _ => False
  | _ => True
  end.

(** The invariant of the replay loop over the events of [stream]. *)
Definition WInv (stream : list PullResult) (l : LogClient) (t : list Event)
  : Prop :=
  sameWindow l
  /\ (forall tid item, In (EvAppend tid item) t ->
        tid = tableID /\ In (PullItem item) stream /\ admitted item)
  /\ (forall p, In p (pending l tableID) -> derivedFrom (appendedRows t) p)
  /\ (forall kvs p, In (EvIngest kvs) t -> In p kvs ->
        derivedFrom (appendedRows t) p).

End WorkerVocabulary.

(** The in-window database-level statements among [items]. *)
Definition dbQueriesOf (l : LogClient) (items : list SortItem) : list string :=
  queryOf <$> List.filter (dbDDLInWindow l) items.

(** What a run of the database-level DDL job has done: it only executed
    statements, a first part of [queries], all of them when it returned;
    the window is as it was. *)
Definition executedOf (queries : list string) (l : LogClient) (t0 : list Event)
    (o : Outcome unit) (l' : LogClient) (t' : list Event) : Prop :=
  startTS l' = startTS l /\ endTS l' = endTS l
  /\ match o with
     | Ok _ => t' = t0 ++ (EvExecute <$> queries)
     | Halt _ =>
         exists done rest,
           queries = done ++ rest /\ t' = t0 ++ (EvExecute <$> done)
     end.

(** The DDL files [collectDDLFiles] returns when the walk succeeds. *)
Definition collectedDDLFiles (l : LogClient) : list string :=
  match walkDDLFiles l (fst (WalkDir ddlEventsDir)) [] with
  | inl ddlFiles => Go.SortReverseStrings ddlFiles
  | inr _ => []
  end.

(** The client after [RestoreLogData] loaded the metadata and clamped the
    end of the window. *)
Definition afterWindowCheck (l : LogClient) : LogClient :=
  match ReadFile metaFile with
  | inl data =>
      match jsonUnmarshal data l.(meta) with
      | inl m =>
          setEndTS (Z.min l.(endTS) m.(GlobalResolvedTS)) (setMeta m l)
      | inr _ => l
      end
  | inr _ => l
  end.

(** No worker has started in [t]. *)
Definition noWorker (t : list Event) : Prop :=
  forall tableID, ~ In (EvWorker tableID) t.

(** The visited paths of the DDL directory that [NeedRestoreDDL]
    accepts, in the order of the visit. *)
Definition acceptedDDLFiles (l : LogClient) : list string :=
  List.filter (fun path => fst (NeedRestoreDDL l (Go.Base path)))
    (fst (WalkDir ddlEventsDir)).


(** A [DropSchema] event of the schema [schema] inside the window. *)
Definition dropsSchema (l : LogClient) (schema : string) (item : SortItem)
  : bool :=
  match item.(Data) with
  | DataDDL ddl =>
      isDropSchema ddl && tsInRange l item.(TS)
      && String.eqb item.(Schema) schema
  | DataRow _ => false
  end.

(** [l'] differs from [l] in the state of the cluster and the drop
    fences only. *)
Definition onlyWorldAndFences (l l' : LogClient) : Prop :=
  ddlLock l' = ddlLock l /\ startTS l' = startTS l /\ endTS l' = endTS l
  /\ BatchFlushKVPairs l' = BatchFlushKVPairs l
  /\ BatchFlushKVSize l' = BatchFlushKVSize l /\ meta l' = meta l
  /\ eventPullers l' = eventPullers l /\ tableBuffers l' = tableBuffers l.

(** The fence of [schema] once the events [items] went through the job. *)
Definition fenceAfter (l : LogClient) (schema : string)
    (items : list SortItem) (before : option Z) : option Z :=
  match last (List.filter (dropsSchema l schema) items) with
  | Some item => Some (TS item)
  | None => before
  end.

(** What a run of the job does to the client: the fences, and nothing
    else but the cluster. *)
Definition fencesOf (items : list SortItem) (l : LogClient)
    (o : Outcome unit) (l' : LogClient) : Prop :=
  onlyWorldAndFences l l'
  /\ (o = Ok tt ->
      forall schema,
        dropTSMap l' !! schema
        = fenceAfter l schema items (dropTSMap l !! schema)).

(** A table-level DDL event of the table [tableID], as the replay loop
    tells it: a DDL event of the schema and the table the metadata names,
    and no database-level one. *)
Definition tableDDLOf (l : LogClient) (tableID : Z) (item : SortItem) : bool :=
  match item.(Data) with
  | DataDDL ddl =>
      let '(schema, table) :=
        ParseQuoteName (default "" (l.(meta).(Names) !! tableID)) in
      String.eqb schema item.(Schema) && String.eqb table item.(Table)
      && negb (isDBRelatedDDL ddl)
  | DataRow _ => false
  end.

(** What the replay of a table leaves alone when it returns: the lock,
    the window, the metadata and the drop fences. *)
Definition sameSetup (l l' : LogClient) : Prop :=
  ddlLock l' = ddlLock l /\ startTS l' = startTS l /\ endTS l' = endTS l
  /\ meta l' = meta l /\ dropTSMap l' = dropTSMap l.

(** A table-level DDL event of the stream that the replay of the table
    executes: inside the window, and of this table. *)
Definition replayedDDL (l : LogClient) (tableID : Z)
    (stream : list PullResult) (item : SortItem) : Prop :=
  In (PullItem item) stream /\ tableDDLOf l tableID item = true
  /\ tsInRange l item.(TS) = true.

(** The schema and table names of a table ID, from the metadata. *)
Definition namesOf (l : LogClient) (tableID : Z) : string * string :=
  ParseQuoteName (default "" (l.(meta).(Names) !! tableID)).

(** The descriptor [RestoreLogData] gives the new buffer of a table: the
    table of that name, when the cluster has one. *)
Definition resolvedAtStart (l : LogClient) (tableID : Z) : option TableDesc :=
  let '(schema, table) := namesOf l tableID in
  if TableExists (restoreClient l) schema table then
    match TableByName (restoreClient l) schema table with
    | inl tbl => Some tbl
    | inr _ => None
    end
  else None.

(** The lock and statement events of a run. *)
Definition ddlSteps (t : list Event) : list Event :=
  List.filter (fun e => match e with
                        | EvExecute _ | EvLock | EvUnlock => true
                        | _ => false
                        end) t.

(** What the execution of one table-level DDL event leaves among them. *)
Definition ddlBlock (item : SortItem) : list Event :=
  [EvLock; EvExecute ("use " +:+ item.(Schema)); EvExecute (queryOf item);
   EvUnlock].

(** How a replay of the table that started with the events [t0] behind
    it stands: its lock and statement events are the blocks of executed
    table-level DDL events of the stream, the last block unfinished by
    [rest]; when it returned, nothing is missing, nothing is pending, and
    the setup is that of [l0]. *)
Definition replayed (l0 : LogClient) (tableID : Z) (stream : list PullResult)
    (t0 : list Event) (o : Outcome unit) (l' : LogClient) (t' : list Event)
  : Prop :=
  exists items rest,
    Forall (replayedDDL l0 tableID stream) items
    /\ ddlSteps t' ++ rest = ddlSteps t0 ++ concat (ddlBlock <$> items)
    /\ (o = Ok tt ->
        rest = [] /\ pending l' tableID = [] /\ sameSetup l0 l').

End Methods.

End restore.

(** ** [br/pkg/lightning/backend/kv]: the row encoder *)

Module sql2kv.

(** [types.Datum], by kind. *)
Inductive Datum :=
| KindNull
| KindInt64 (v : Z)
| KindUint64 (v : Z)
| KindBytes (b : list byte)
| KindMinNotNull.

(** [ast.ExprNode] of a generated column, by its text. *)
Definition ExprNode := string.

(** [table.Column]: the fields the encoder reads. [GeneratedExpr] is the
    parsed expression (nil for a plain column), [GeneratedExprString]
    the text [IsGenerated] tests. *)
Record Column := {
  ID : Z;
  Offset : Z;
  GeneratedExpr : option ExprNode;
  GeneratedExprString : string;
  AutoIncrementFlag : bool;
  UnsignedFlag : bool
}.

(** [model.TableInfo]: what [Encode] asks of it. *)
Record TableInfo := {
  ContainsAutoRandomBits : bool;
  TableHasAutoRowID : bool
}.

Inductive AllocatorType := RowIDAllocType | AutoIncrementType | AutoRandomType.

Definition EncErr := string.

(** The collaborators of the encoder: the expression rewriter and
    evaluator, the cast of a value to a column, the null and default
    handling of a column, the allocators and [AddRecord]. *)
Class EncoderDeps := {
  Expression : Type;
  RewriteAstExpr : ExprNode -> Expression + EncErr;
  Eval : Expression -> list Datum -> Datum + EncErr;
  CastValue : Datum -> Column -> Datum + EncErr;
  CastExtraHandle : Datum -> Datum + EncErr;
  CheckNotNull : Column -> Datum -> bool;
  HandleBadNull : Column -> Datum -> Datum + EncErr;
  GetColDefaultValue : Column -> Datum + EncErr;
  GetMinValue : Column -> Datum;
  GetInt64 : Datum -> Z;
  IncrementalMask : Column -> Z;
  (** [getAutoRecordID], [None] where it panics on the field type *)
  getAutoRecordID : Datum -> Column -> option Z;
  Rebase : AllocatorType -> Z -> option EncErr;
  AddRecord : list Datum -> kv.Pairs + EncErr
}.

Section Encoder.
Context `{EncoderDeps}.

Record genCol := { index : nat; expr : Expression }.

(** [autoIDFn] is a closure over the seed; it is a field here. *)
Record tableKVEncoder := {
  tblCols : list Column;
  tblMeta : TableInfo;
  autoRandomColID : Z;
  genCols : list genCol;
  autoIDFn : Z -> Z
}.

Inductive Result (A : Type) :=
| Done (a : A)
| Error (e : EncErr)
| Panic.
Global Arguments Done {A} a.
Global Arguments Error {A} e.
Global Arguments Panic {A}.

(** What [Encode] does to the record and the allocators, in order. *)
Inductive EncEvent :=
| EvAppendRecord (i : nat) (value : Datum)
| EvRebase (kind : AllocatorType) (v : Z)
| EvEvalGen (index : nat)
| EvSetGen (index : nat) (value : Datum)
| EvAddRecord (record : list Datum).

Definition hasGeneratedExpr (col : Column) : bool :=
  match col.(GeneratedExpr) with Some _ => true | None => false end.

(** [cols[i].Offset]; the indices of [genCols] are indices of [cols]. *)
Definition offsetAt (cols : list Column) (i : nat) : Z :=
  match cols !! i with
  | Some col => col.(Offset)
  | None => 0
  end.

(** The loop of [collectGeneratedColumns] that rewrites the expression
    of each generated column, [i] being the index of the head of
    [rest] in [cols]. *)
Fixpoint rewriteGenCols (i : nat) (rest : list Column) (acc : list genCol)
  : list genCol + EncErr :=
  match rest with
  | [] => inl acc
  | col :: rest' =>
      match col.(GeneratedExpr) with
      | None => rewriteGenCols (S i) rest' acc
      | Some e =>
          match RewriteAstExpr e with
          | inr err => inr err
          | inl ex =>
              rewriteGenCols (S i) rest' (acc ++ [{| index := i; expr := ex |}])
          end
      end
  end.

(** [collectGeneratedColumns]. [slices.SortFunc] orders by the offset;
    it promises no order among equal offsets, which a table does not
    have; the insertion sort stands for it. *)
Definition collectGeneratedColumns (cols : list Column)
  : list genCol + EncErr :=
  if negb (existsb hasGeneratedExpr cols) then inl []
  else
    match rewriteGenCols 0 cols [] with
    | inr err => inr err
    | inl gcs =>
        inl (Go.SliceStable
               (fun i j => offsetAt cols i.(index) <? offsetAt cols j.(index))
               gcs)
    end.

(** [NewTableKVEncoder], given the auto-random column and the ID
    conversion it derives from the table. *)
Definition NewTableKVEncoder (cols : list Column) (meta : TableInfo)
    (autoRandomCol : Z) (idFn : Z -> Z) : tableKVEncoder + EncErr :=
  match collectGeneratedColumns cols with
  | inr err => inr err
  | inl gcs =>
      inl {| tblCols := cols; tblMeta := meta;
             autoRandomColID := if meta.(ContainsAutoRandomBits)
                                then autoRandomCol else 0;
             genCols := gcs; autoIDFn := idFn |}
  end.

(** [evaluateGeneratedColumns]: the record after the loop, the events,
    and the column and error the loop stopped at, if any. *)
Fixpoint evaluateGeneratedColumns (record : list Datum)
    (cols : list Column) (gcs : list genCol)
  : list Datum * list EncEvent * option (option Column * EncErr) :=
  match gcs with
  | [] => (record, [], None)
  | gc :: rest =>
      match cols !! gc.(index) with
      | None => (record, [], Some (None, "index out of range"))
      | Some col =>
          match Eval gc.(expr) record with
          | inr err => (record, [EvEvalGen gc.(index)], Some (Some col, err))
          | inl evaluated =>
              match CastValue evaluated col with
              | inr err =>
                  (record, [EvEvalGen gc.(index)], Some (Some col, err))
              | inl value =>
                  let record' := <[gc.(index) := value]> record in
                  let '(r, t, e) := evaluateGeneratedColumns record' cols rest in
                  (r, EvEvalGen gc.(index) :: EvSetGen gc.(index) value :: t, e)
              end
          end
      end
  end.

Definition isAutoRandomCol (kvcodec : tableKVEncoder) (col : Column) : bool :=
  kvcodec.(tblMeta).(ContainsAutoRandomBits)
  && (col.(ID) =? kvcodec.(autoRandomColID)).

Definition isAutoIncCol (col : Column) : bool := col.(AutoIncrementFlag).

Definition IsGenerated (col : Column) : bool :=
  negb (String.eqb col.(GeneratedExprString) "").

Definition getActualDatum (kvcodec : tableKVEncoder) (rowID : Z)
    (colIndex : nat) (inputDatum : option Datum) : Result Datum :=
  match kvcodec.(tblCols) !! colIndex with
  | None => Panic
  | Some col =>
      let ofSum (r : Datum + EncErr) : Result Datum :=
        match r with inl v => Done v | inr e => Error e end in
      let special (value : Datum) (isBadNullValue : bool) : Result Datum :=
        if isAutoIncCol col then ofSum (CastValue (KindInt64 rowID) col)
        else if isAutoRandomCol kvcodec col then
          let realRowID := kvcodec.(autoIDFn) rowID in
          let val := if col.(UnsignedFlag)
                     then KindUint64 (realRowID mod 2 ^ 64)
                     else KindInt64 realRowID in
          ofSum (CastValue val col)
        else if IsGenerated col then Done (GetMinValue col)
        else if isBadNullValue then ofSum (HandleBadNull col value)
        else ofSum (GetColDefaultValue col) in
      match inputDatum with
      | Some d =>
          match CastValue d col with
          | inr err => Error err
          | inl value =>
              if CheckNotNull col value then Done value
              else special value true
          end
      | None => special KindNull false
      end
  end.

(** [row[j]] when [j] is an index of [row]. *)
Definition rowAt (row : list Datum) (j : Z) : option Datum :=
  if (0 <=? j) && (j <? Z.of_nat (length row))
  then row !! Z.to_nat j else None.

(** The first loop of [Encode], from column [i] on: one value per
    column is appended to the record. *)
Fixpoint encodeColumns (kvcodec : tableKVEncoder) (row : list Datum)
    (rowID : Z) (columnPermutation : list Z) (i : nat)
    (rest : list Column) (record : list Datum)
  : Result (list Datum) * list EncEvent :=
  match rest with
  | [] => (Done record, [])
  | col :: rest' =>
      match columnPermutation !! i with
      | None => (Panic, [])
      | Some j =>
          match getActualDatum kvcodec rowID i (rowAt row j) with
          | Panic => (Panic, [])
          | Error e => (Error e, [])
          | Done value =>
              let record' := record ++ [value] in
              let rebaseRandom :=
                if isAutoRandomCol kvcodec col
                then Some (AutoRandomType,
                           Z.land (GetInt64 value) (IncrementalMask col))
                else None in
              let continue (t : list EncEvent) :=
                let '(r, t') :=
                  encodeColumns kvcodec row rowID columnPermutation (S i)
                    rest' record' in
                (r, t ++ t') in
              let afterRandom (t : list EncEvent) :=
                if isAutoIncCol col then
                  match getAutoRecordID value col with
                  | None => (Panic, t)
                  | Some v =>
                      match Rebase AutoIncrementType v with
                      | Some e => (Error e, t ++ [EvRebase AutoIncrementType v])
                      | None => continue (t ++ [EvRebase AutoIncrementType v])
                      end
                  end
                else continue t in
              match rebaseRandom with
              | Some (kind, v) =>
                  match Rebase kind v with
                  | Some e =>
                      (Error e, [EvAppendRecord i value; EvRebase kind v])
                  | None =>
                      afterRandom [EvAppendRecord i value; EvRebase kind v]
                  end
              | None => afterRandom [EvAppendRecord i value]
              end
          end
      end
  end.

(** The row-ID step of [Encode] for a table with an automatic row
    ID. *)
Definition encodeRowID (kvcodec : tableKVEncoder) (row : list Datum)
    (rowID : Z) (columnPermutation : list Z) (record : list Datum)
  : Result (list Datum) * list EncEvent :=
  let n := length kvcodec.(tblCols) in
  match columnPermutation !! n with
  | None => (Panic, [])
  | Some j =>
      let cast : Result (Datum * Z) :=
        match rowAt row j with
        | Some d =>
            match CastExtraHandle d with
            | inl value => Done (value, GetInt64 value)
            | inr e => Error e
            end
        | None => Done (KindInt64 (kvcodec.(autoIDFn) rowID), rowID)
        end in
      match cast with
      | Panic => (Panic, [])
      | Error e => (Error e, [])
      | Done (value, rowValue) =>
          let t := [EvAppendRecord n value; EvRebase RowIDAllocType rowValue] in
          match Rebase RowIDAllocType rowValue with
          | Some e => (Error e, t)
          | None => (Done (record ++ [value]), t)
          end
      end
  end.

(** [Encode]: the pairs of the row, or the error, and the events. *)
Definition Encode (kvcodec : tableKVEncoder) (row : list Datum)
    (rowID : Z) (columnPermutation : list Z)
  : Result kv.Pairs * list EncEvent :=
  let cols := kvcodec.(tblCols) in
  match encodeColumns kvcodec row rowID columnPermutation 0 cols [] with
  | (Done record, t1) =>
      let '(r2, t2) :=
        if kvcodec.(tblMeta).(TableHasAutoRowID)
        then encodeRowID kvcodec row rowID columnPermutation record
        else (Done record, []) in
      match r2 with
      | Done record2 =>
          let '(record3, t3, genErr) :=
            match kvcodec.(genCols) with
            | [] => (record2, [], None)
            | gcs => evaluateGeneratedColumns record2 cols gcs
            end in
          match genErr with
          | Some (Some _, e) => (Error e, t1 ++ t2 ++ t3)
          | Some (None, _) => (Panic, t1 ++ t2 ++ t3)
          | None =>
              match AddRecord record3 with
              | inr e => (Error e, t1 ++ t2 ++ t3 ++ [EvAddRecord record3])
              | inl pairs => (Done pairs, t1 ++ t2 ++ t3 ++ [EvAddRecord record3])
              end
          end
      | Error e => (Error e, t1 ++ t2)
      | Panic => (Panic, t1 ++ t2)
      end
  | (Error e, t1) => (Error e, t1)
  | (Panic, t1) => (Panic, t1)
  end.

(** *** Vocabulary of the statements *)

(** The generated columns [Encode] evaluated, in order. *)
Definition evalIndices (t : list EncEvent) : list nat :=
  omap (fun e => match e with EvEvalGen i => Some i | _ => None end) t.

(** An event of the part of [Encode] that fills the record from the row. *)
Definition fillsRecord (e : EncEvent) : Prop :=
  match e with
  | EvAppendRecord _ _ | EvRebase _ _ => True
  | _ => False
  end.

(** An event of the part of [Encode] that follows it. *)
Definition afterFill (e : EncEvent) : Prop :=
  match e with
  | EvEvalGen _ | EvSetGen _ _ | EvAddRecord _ => True
  | _ => False
  end.

(** The value [Encode] takes for the column of index [i]: that of the
    row's field the permutation names, or the one [getActualDatum]
    synthesizes when it names none. *)
Definition columnValue (kvcodec : tableKVEncoder) (row : list Datum)
    (rowID : Z) (columnPermutation : list Z) (i : nat) : Result Datum :=
  match columnPermutation !! i with
  | None => Panic
  | Some j => getActualDatum kvcodec rowID i (rowAt row j)
  end.

(** The number of values of the record [Encode] hands to [AddRecord]. *)
Definition recordLength (kvcodec : tableKVEncoder) : nat :=
  (length kvcodec.(tblCols)
   + if kvcodec.(tblMeta).(TableHasAutoRowID) then 1 else 0)%nat.

(** The events that hand a record to [AddRecord]. *)
Definition addedRecords (t : list EncEvent) : list (list Datum) :=
  omap (fun e => match e with EvAddRecord r => Some r | _ => None end) t.

(** The indices of the generated columns of [cols], from index [i] on. *)
Fixpoint generatedFrom (i : nat) (cols : list Column) : list nat :=
  match cols with
  | [] => []
  | col :: rest =>
      if hasGeneratedExpr col then i :: generatedFrom (S i) rest
      else generatedFrom (S i) rest
  end.

End Encoder.

(** A table to run the encoder on: a plain column [a], then two generated
    columns whose offsets are in the reverse order of their indices. *)
Module scenario.

Definition plain (id offset : Z) : Column :=
  {| ID := id; Offset := offset; GeneratedExpr := None;
     GeneratedExprString := ""; AutoIncrementFlag := false;
     UnsignedFlag := false |}.

Definition generated (id offset : Z) (e : string) : Column :=
  {| ID := id; Offset := offset; GeneratedExpr := Some e;
     GeneratedExprString := e; AutoIncrementFlag := false;
     UnsignedFlag := false |}.

Definition demoCols : list Column :=
  [plain 1 0; generated 2 2 "a + c"; generated 3 1 "a + 1"].

Definition demoMeta : TableInfo :=
  {| ContainsAutoRandomBits := false; TableHasAutoRowID := true |}.

(** Expressions evaluate to the number of values of the record; casts and
    defaults are the identity; nothing fails. *)
Definition demoDeps : EncoderDeps :=
  {| Expression := string;
     RewriteAstExpr := fun e => inl e;
     Eval := fun _ record => inl (KindInt64 (Z.of_nat (length record)));
     CastValue := fun d _ => inl d;
     CastExtraHandle := fun d => inl d;
     CheckNotNull := fun _ d =>
       match d with KindNull => false | _ => true end;
     HandleBadNull := fun _ d => inl d;
     GetColDefaultValue := fun _ => inl KindNull;
     GetMinValue := fun _ => KindMinNotNull;
     GetInt64 := fun d => match d with KindInt64 v => v | _ => 0 end;
     IncrementalMask := fun _ => 0;
     getAutoRecordID := fun d _ =>
       match d with KindInt64 v => Some v | _ => None end;
     Rebase := fun _ _ => None;
     AddRecord := fun record =>
       inl [{| kv.Key := [x74]; kv.Val := [] |}] |}.

(** The encoder [NewTableKVEncoder] builds for the table. *)
Definition demoEncoder : @tableKVEncoder demoDeps :=
  {| tblCols := demoCols; tblMeta := demoMeta; autoRandomColID := 0;
     genCols := [@Build_genCol demoDeps 2 "a + 1";
                 @Build_genCol demoDeps 1 "a + c"];
     autoIDFn := fun id => id |}.

End scenario.

End sql2kv.

(** ** [br/pkg/lightning/backend/kv]: the rows of encoded pairs *)

Module kvrows.

(** [common.KvPair], the fields this file reads or writes. *)
Record KvPair := { Key : list byte; Val : list byte; RowID : list byte }.

(** A [*bytesBuf] or a [*kvMemBuf], by identity; the nil pointer is
    [None]. *)
Definition BufRef := nat.

(** [KvPairs]. The values of type [Rows] and [Row] this file makes are
    all [*KvPairs]. *)
Record KvPairs := {
  pairs : list KvPair;
  bytesBuf : option BufRef;
  memBuf : option BufRef
}.

(** Go's [int] (64 bits, two's complement) and [uint64]. *)
Definition wrapInt (x : Z) : Z := (x + 2 ^ 63) mod 2 ^ 64 - 2 ^ 63.
Definition wrapUint64 (x : Z) : Z := x mod 2 ^ 64.

(** [len(kv.Key) + len(kv.Val)], an [int]. *)
Definition pairLen (kv : KvPair) : Z :=
  wrapInt (Z.of_nat (length kv.(Key)) + Z.of_nat (length kv.(Val))).

(** [MakeRowsFromKvPairs] and [MakeRowFromKvPairs]. *)
Definition MakeRowsFromKvPairs (ps : list KvPair) : KvPairs :=
  {| pairs := ps; bytesBuf := None; memBuf := None |}.

(** [KvPairsFromRows] and [KvPairsFromRow], on a [*KvPairs]. *)
Definition KvPairsFromRows (rows : KvPairs) : list KvPair := rows.(pairs).

(** [KvPairs.Size] *)
Definition Size (kvs : KvPairs) : Z :=
  fold_left (fun size kv => wrapUint64 (size + wrapUint64 (pairLen kv)))
    kvs.(pairs) 0.

(** [kvs.pairs[i:j]] for [i <= j <= len(kvs.pairs)]. *)
Definition slice (all : list KvPair) (i j : nat) : list KvPair :=
  take (j - i) (drop i all).

(** The loop of [SplitIntoChunks]: [rest] are the pairs from index [j]
    on; the result is [res] and [i] after the loop. *)
Fixpoint splitLoop (splitSize : Z) (all rest : list KvPair) (j : nat)
    (res : list KvPairs) (i : nat) (cumSize : Z) : list KvPairs * nat :=
  match rest with
  | [] => (res, i)
  | p :: rest' =>
      let size := pairLen p in
      if (i <? j)%nat && (splitSize <? wrapInt (cumSize + size)) then
        splitLoop splitSize all rest' (S j)
          (res ++ [{| pairs := slice all i j; bytesBuf := None;
                      memBuf := None |}])
          j (wrapInt (0 + size))
      else
        splitLoop splitSize all rest' (S j) res i (wrapInt (cumSize + size))
  end.

(** [KvPairs.SplitIntoChunks]; the nil result is the empty list. *)
Definition SplitIntoChunks (kvs : KvPairs) (splitSize : Z) : list KvPairs :=
  match kvs.(pairs) with
  | [] => []
  | _ =>
      let '(res, i) := splitLoop splitSize kvs.(pairs) kvs.(pairs) 0 [] 0 0 in
      if (i =? 0)%nat then res ++ [kvs]
      else res ++ [{| pairs := drop i kvs.(pairs);
                      bytesBuf := kvs.(bytesBuf); memBuf := kvs.(memBuf) |}]
  end.

(** What [Clear] asks of the memory pool. *)
Inductive BufEvent := EvRecycle (mem : option BufRef) (buf : BufRef).

(** [KvPairs.Clear]: the receiver after the call, and the calls of
    [Recycle]. *)
Definition Clear (kvs : KvPairs) : KvPairs * list BufEvent :=
  match kvs.(bytesBuf) with
  | Some buf =>
      ({| pairs := []; bytesBuf := None; memBuf := None |},
       [EvRecycle kvs.(memBuf) buf])
  | None => ({| pairs := []; bytesBuf := None; memBuf := kvs.(memBuf) |}, [])
  end.

Section Classify.
(** [verification.KVChecksum] and its [UpdateOne]. *)
Context {Checksum : Type} (UpdateOne : Checksum -> KvPair -> Checksum).
(** [tablecodec.TableSplitKeyLen] *)
Variable TableSplitKeyLen : nat.

(** The targets of [ClassifyAndAppend]: [*data], [dataChecksum],
    [*indices], [indexChecksum]. The two rows are [*KvPairs] values (the
    type assertions hold), distinct objects, and distinct from the
    receiver. *)
Record Classified := {
  data : KvPairs;
  dataChecksum : Checksum;
  indices : KvPairs;
  indexChecksum : Checksum
}.

Definition appendPair (kvs : KvPairs) (kv : KvPair) : KvPairs :=
  {| pairs := kvs.(pairs) ++ [kv]; bytesBuf := kvs.(bytesBuf);
     memBuf := kvs.(memBuf) |}.

(** The loop of [ClassifyAndAppend]; [true] when the index expression
    [kv.Key[TableSplitKeyLen+1]] is out of range and panics. *)
Fixpoint classifyLoop (ps : list KvPair) (st : Classified)
  : Classified * bool :=
  match ps with
  | [] => (st, false)
  | kv :: rest =>
      match kv.(Key) !! (TableSplitKeyLen + 1)%nat with
      | None => (st, true)
      | Some b =>
          if Byte.eqb b "r" then
            classifyLoop rest
              {| data := appendPair st.(data) kv;
                 dataChecksum := UpdateOne st.(dataChecksum) kv;
                 indices := st.(indices);
                 indexChecksum := st.(indexChecksum) |}
          else
            classifyLoop rest
              {| data := st.(data);
                 dataChecksum := st.(dataChecksum);
                 indices := appendPair st.(indices) kv;
                 indexChecksum := UpdateOne st.(indexChecksum) kv |}
      end
  end.

(** [KvPairs.ClassifyAndAppend]: the receiver and the targets after the
    call, and whether it panicked. *)
Definition ClassifyAndAppend (kvs : KvPairs) (st : Classified)
  : KvPairs * Classified * bool :=
  match classifyLoop kvs.(pairs) st with
  | (st', true) => (kvs, st', true)
  | (st', false) =>
      match kvs.(bytesBuf) with
      | Some buf =>
          ({| pairs := kvs.(pairs); bytesBuf := None; memBuf := None |},
           {| data := {| pairs := st'.(data).(pairs); bytesBuf := Some buf;
                         memBuf := kvs.(memBuf) |};
              dataChecksum := st'.(dataChecksum);
              indices := st'.(indices);
              indexChecksum := st'.(indexChecksum) |},
           false)
      | None => (kvs, st', false)
      end
  end.

(** A key of a record (not of an index): the byte after the table
    prefix is [r]. *)
Definition isRecordKey (kv : KvPair) : bool :=
  match kv.(Key) !! (TableSplitKeyLen + 1)%nat with
  | Some b => Byte.eqb b "r"
  | None => false
  end.

(** A key long enough for the test. *)
Definition longKey (kv : KvPair) : Prop :=
  (TableSplitKeyLen + 1 < length kv.(Key))%nat.

End Classify.

(** *** Vocabulary of the statements *)

(** The length of the key and the value of a pair, and the total of a
    list of pairs. *)
Definition pairSize (kv : KvPair) : Z :=
  Z.of_nat (length kv.(Key)) + Z.of_nat (length kv.(Val)).

Definition sizeOf (ps : list KvPair) : Z :=
  fold_right (fun kv acc => pairSize kv + acc) 0 ps.

(** Chunks such that none could take the first pair of the next within
    [splitSize]. *)
Fixpoint greedy (splitSize : Z) (chunks : list (list KvPair)) : Prop :=
  match chunks with
  | c1 :: ((c2 :: _) as rest) =>
      (exists p, head c2 = Some p /\ splitSize < sizeOf c1 + pairSize p)
      /\ greedy splitSize rest
  | _ => True
  end.

(** A chunk that carries no buffer and is not empty. *)
Definition plainChunk (c : KvPairs) : Prop :=
  c.(pairs) <> [] /\ c.(bytesBuf) = None /\ c.(memBuf) = None.

(** A chunk within [splitSize], or of one pair. *)
Definition fitsChunk (splitSize : Z) (c : list KvPair) : Prop :=
  sizeOf c <= splitSize \/ length c = 1%nat.

(** Rows to split: three pairs of lengths 3, 3 and 5, with buffers. *)
Definition demoRows : KvPairs :=
  {| pairs := [ {| Key := [x6b; x31]; Val := [x61]; RowID := [] |};
                {| Key := [x6b; x32]; Val := [x62]; RowID := [] |};
                {| Key := [x6b; x33]; Val := [x63; x64; x65]; RowID := [] |} ];
     bytesBuf := Some 1%nat; memBuf := Some 2%nat |}.

End kvrows.

(** ** [NewTableKVEncoder]: the row IDs of a table with shard bits *)

Module shardid.

Section AutoID.
(** What [rd.Uint32()] returns once [rd.Seed(id)] has reset the
    generator: a function of [id]. *)
Variable uint32Of : Z -> Z.
(** [autoid.RowIDBitLength] *)
Variable RowIDBitLength : Z.

Definition wrapInt64 (x : Z) : Z := (x + 2 ^ 63) mod 2 ^ 64 - 2 ^ 63.
Definition wrapUint64 (x : Z) : Z := x mod 2 ^ 64.

(** [x << count] on [int64] with an unsigned count: the low 64 bits of
    the shifted value, 0 once the count reaches 64. *)
Definition shlInt64 (x count : Z) : Z :=
  if 64 <=? count then 0 else wrapInt64 (Z.shiftl x count).

(** The closure [autoIDFn] for a table with [ShardRowIDBits > 0]. *)
Definition shardRowID (ShardRowIDBits : Z) (id : Z) : Z :=
  let mask := wrapInt64 (shlInt64 1 ShardRowIDBits - 1) in
  let shift := wrapUint64 (RowIDBitLength - ShardRowIDBits - 1) in
  let shardBits := shlInt64 (Z.land (uint32Of id mod 2 ^ 32) mask) shift in
  Z.lor shardBits id.

(** [autoIDFn] as [NewTableKVEncoder] chooses it; [compose] is
    [shardFmt.Compose(shard, id)] of a table with auto-random bits. *)
Definition newAutoIDFn (containsAutoRandomBits : bool) (compose : Z -> Z)
    (ShardRowIDBits : Z) : Z -> Z :=
  if containsAutoRandomBits then compose
  else if 0 <? ShardRowIDBits then shardRowID ShardRowIDBits
  else fun id => id.

End AutoID.

End shardid.

(** ** [distribute_framework/dispatcher]: the registry of flow handles *)

Module dispatcher.

(** A [GTaskFlowHandle] value: an implementation, by identity, or nil. *)
Definition GTaskFlowHandle := option nat.

(** [taskDispatcherHandleMap] *)
Definition HandleMap := gmap string GTaskFlowHandle.

Definition RegisterGTaskFlowHandle (taskType : string)
    (dispatcherHandle : GTaskFlowHandle) (m : HandleMap) : HandleMap :=
  <[taskType := dispatcherHandle]> m.

(** The handle of a type that is not in the map is nil. *)
Definition GetGTaskFlowHandle (taskType : string) (m : HandleMap)
  : GTaskFlowHandle :=
  default None (m !! taskType).

End dispatcher.

(** ** A backup to run the client on

    One table, [test.t1] with ID 45, one DDL file whose name encodes the
    commit timestamp 50, and a cluster that executes every statement but
    one [ALTER TABLE]. *)

Module scenario.
Import cdclog restore.

Definition ddlFile : string := "ddls/ddl.18446744073709551565".

Definition createDB50 : SortItem :=
  {| Data := DataDDL {| Query := "CREATE DATABASE test";
                        Type_ := ActionCreateSchema |};
     Schema := "test"; Table := ""; TS := 50 |}.

Definition createDB110 : SortItem :=
  {| Data := DataDDL {| Query := "CREATE DATABASE other";
                        Type_ := ActionCreateSchema |};
     Schema := "other"; Table := ""; TS := 110 |}.


Definition alter160 : SortItem :=
  {| Data := DataDDL {| Query := "ALTER TABLE t1 ADD COLUMN c INT";
                        Type_ := ActionOther |};
     Schema := "test"; Table := "t1"; TS := 160 |}.

Definition rename170 : SortItem :=
  {| Data := DataDDL {| Query := "ALTER TABLE t1 COMMENT 'x'";
                        Type_ := ActionOther |};
     Schema := "test"; Table := "t1"; TS := 170 |}.

Definition rowAt (ts : Z) (payload : list byte) : SortItem :=
  {| Data := DataRow {| RowPayload := payload |};
     Schema := "test"; Table := "t1"; TS := ts |}.

Definition demoMeta : LogMeta :=
  {| Names := {[ 45 := "`test`.`t1`" ]}; GlobalResolvedTS := 300 |}.

Definition demo : Collaborators :=
  {| World := list string;
     ReadFile := fun path =>
       if String.eqb path metaFile then inl [x01]
       else if String.eqb path ddlFile then inl [x02]
       else inr "no such file";
     WalkDir := fun dir =>
       if String.eqb dir ddlEventsDir then ([ddlFile; "ddls/README"], None)
       else if String.eqb dir "t_45"
            then (["t_45/cdclog.150"; "t_45/cdclog.90"; "t_45/cdclog"], None)
            else ([], None);
     jsonUnmarshal := fun data _ =>
       match data with
       | [x01] => inl demoMeta
       | _ => inr "bad json"
       end;
     NewJSONEventBatchDecoder := fun data =>
       match data with
       | [x02] => inl [inl createDB50; inl createDB110; inl alter160]
       | _ => inr "bad event file"
       end;
     seExecute := fun sql w =>
       (w ++ [sql],
        if String.eqb sql "ALTER TABLE t1 ADD COLUMN c INT"
        then Some "ddl failed" else None);
     domReload := fun w => (w, None);
     TableByID := fun _ id => Some {| TableMetaID := id |};
     TableByName := fun _ _ _ => inl {| TableMetaID := 45 |};
     SchemaByName := fun _ _ => true;
     TableExists := fun _ _ _ => true;
     ParseQuoteName := fun _ => ("test", "t1");
     MatchTable := fun _ _ => true;
     NewEventPuller := fun _ _ _ _ =>
       inl [PullItem (rowAt 90 [x61]); PullItem (rowAt 150 [x62]);
            PullItem (rowAt 250 [x63])];
     encodeRow := fun _ item =>
       match item.(Data) with
       | DataRow row => inl [{| kv.Key := row.(RowPayload); kv.Val := [x76] |}]
       | DataDDL _ => inr "not a row"
       end;
     isDataPair := fun _ => true;
     ingestRanges := fun _ _ w => (w, None);
     sortRowChangeFiles := fun files => files |}.

(** A client with the window [100, 200], the buffer of table 45 empty and
    unresolved, no drop fence and the DDL lock free. *)
Definition demoClient : @LogClient demo :=
  {| ddlLock := false; restoreClient := ([] : @World demo);
     startTS := 100; endTS := 200;
     BatchFlushKVPairs := 10; BatchFlushKVSize := 1000;
     meta := demoMeta;
     eventPullers := ∅;
     tableBuffers := {[ 45 := NewTableBuffer None 10 1000 ]};
     dropTSMap := ∅ |}.

(** The same client after [doDBDDLJob] stored the fence of a
    [DROP DATABASE test] committed at 150. *)
Definition fencedClient : @LogClient demo := storeDropTS "test" 150 demoClient.

(** A stream of table 45: a row behind the fence, a row after it. *)
Definition fencedStream : list PullResult :=
  [PullItem (rowAt 120 [x61]); PullItem (rowAt 160 [x62])].

(** The same backup on a cluster whose catalog no longer knows a table by
    the ID the buffer holds (the table was truncated: it has a new ID). *)
Definition staleCatalog : Collaborators :=
  {| World := @World demo;
     ReadFile := @ReadFile demo;
     WalkDir := @WalkDir demo;
     jsonUnmarshal := @jsonUnmarshal demo;
     NewJSONEventBatchDecoder := @NewJSONEventBatchDecoder demo;
     seExecute := @seExecute demo;
     domReload := @domReload demo;
     TableByID := fun _ _ => None;
     TableByName := @TableByName demo;
     SchemaByName := @SchemaByName demo;
     TableExists := @TableExists demo;
     ParseQuoteName := @ParseQuoteName demo;
     MatchTable := @MatchTable demo;
     NewEventPuller := @NewEventPuller demo;
     encodeRow := @encodeRow demo;
     isDataPair := @isDataPair demo;
     ingestRanges := @ingestRanges demo;
     sortRowChangeFiles := @sortRowChangeFiles demo |}.


(** A buffer of table 45 with two pending pairs of one key. *)
Definition loadedBuffer : TableBuffer :=
  {| KvPairs := [ {| kv.Key := [x6b]; kv.Val := [x31] |};
                  {| kv.Key := [x6b]; kv.Val := [x32] |} ];
     tableInfo := Some {| TableMetaID := 45 |};
     flushKVPairs := 10; flushKVSize := 1000 |}.

(** [demoClient] with that buffer, on the cluster of [demo] and on the one
    whose ingester fails. *)
Definition loadedClient : @LogClient demo :=
  {| ddlLock := false; restoreClient := ([] : @World demo);
     startTS := 100; endTS := 200;
     BatchFlushKVPairs := 10; BatchFlushKVSize := 1000;
     meta := demoMeta;
     eventPullers := ∅;
     tableBuffers := {[ 45 := loadedBuffer ]};
     dropTSMap := ∅ |}.


(** A client on that cluster whose buffer of table 45 is resolved to the
    table of ID 45. *)
Definition staleClient : @LogClient staleCatalog :=
  {| ddlLock := false; restoreClient := ([] : @World staleCatalog);
     startTS := 100; endTS := 200;
     BatchFlushKVPairs := 10; BatchFlushKVSize := 1000;
     meta := demoMeta;
     eventPullers := ∅;
     tableBuffers :=
       {[ 45 := NewTableBuffer (Some {| TableMetaID := 45 |}) 10 1000 ]};
     dropTSMap := ∅ |}.

End scenario.

(* ===================================================================== *)
(** * Part II: theorems                                                   *)
(* ===================================================================== *)

(** ** File-name classification *)

Section FileNames.
Import Go restore.
Context `{Collaborators}.

Example Split_ddl_name : Split "ddl.18446744073709551515" "." = ["ddl"; "18446744073709551515"].
Proof. reflexivity. Qed.

Example ParseUint_rejects_sign : ParseUint "+7" = inr ErrSyntax.
Proof. reflexivity. Qed.

(** A name that is not the prefix plus one timestamp segment is skipped by
    [NeedRestoreDDL] without an error. *)
Lemma NeedRestoreDDL_wrong_shape (l : LogClient) (fileName : string) :
  (length (Split fileName ".") <> 2%nat
   \/ head (Split fileName ".") <> Some ddlFilePrefix) ->
  NeedRestoreDDL l fileName = (false, None).
Proof.
  unfold NeedRestoreDDL.
  destruct (Split fileName ".") as [|name0 [|name1 [|name2 rest]]]; simpl;
    intros [Hlen | Hhead]; try reflexivity; try (exfalso; apply Hlen; reflexivity).
  destruct (String.eqb name0 ddlFilePrefix) eqn:E; simpl; [|reflexivity].
  apply String.eqb_eq in E. subst name0. exfalso. apply Hhead. reflexivity.
Qed.

(** [NeedRestoreDDL] returns an error only for a well-shaped name whose
    timestamp does not parse, and the error is the parser's. *)
Lemma NeedRestoreDDL_error (l : LogClient) (fileName : string) (e : Error) :
  snd (NeedRestoreDDL l fileName) = Some e <->
  exists ts err, Split fileName "." = [ddlFilePrefix; ts]
                 /\ ParseUint ts = inr err /\ e = ErrParseUint err.
Proof.
  unfold NeedRestoreDDL. split.
  - destruct (Split fileName ".") as [|name0 [|name1 [|name2 rest]]]; simpl;
      try discriminate.
    destruct (String.eqb name0 ddlFilePrefix) eqn:E; simpl; [|discriminate].
    apply String.eqb_eq in E. subst name0.
    destruct (ParseUint name1) as [ts|err] eqn:P; simpl.
    + destruct (_ <=? _); discriminate.
    + intros [= <-]. eauto.
  - intros (ts & err & -> & -> & ->). reflexivity.
Qed.

Lemma NeedRestoreRowChange_wrong_shape (l : LogClient) (fileName : string) :
  fileName <> logPrefix ->
  (length (Split fileName ".") <> 2%nat
   \/ head (Split fileName ".") <> Some logPrefix) ->
  NeedRestoreRowChange l fileName = (false, None).
Proof.
  unfold NeedRestoreRowChange. intros Hbare.
  destruct (String.eqb fileName logPrefix) eqn:B.
  { apply String.eqb_eq in B. contradiction. }
  destruct (Split fileName ".") as [|name0 [|name1 [|name2 rest]]]; simpl;
    intros [Hlen | Hhead]; try reflexivity; try (exfalso; apply Hlen; reflexivity).
  destruct (String.eqb name0 logPrefix) eqn:E; simpl; [|reflexivity].
  apply String.eqb_eq in E. subst name0. exfalso. apply Hhead. reflexivity.
Qed.

Lemma NeedRestoreRowChange_error (l : LogClient) (fileName : string) (e : Error) :
  snd (NeedRestoreRowChange l fileName) = Some e <->
  exists ts err, Split fileName "." = [logPrefix; ts]
                 /\ ParseUint ts = inr err /\ e = ErrParseUint err.
Proof.
  unfold NeedRestoreRowChange. split.
  - destruct (String.eqb fileName logPrefix) eqn:B; [discriminate|].
    destruct (Split fileName ".") as [|name0 [|name1 [|name2 rest]]]; simpl;
      try discriminate.
    destruct (String.eqb name0 logPrefix) eqn:E; simpl; [|discriminate].
    apply String.eqb_eq in E. subst name0.
    destruct (ParseUint name1) as [ts|err] eqn:P; simpl.
    + destruct (maybeTSInRange l ts); discriminate.
    + intros [= <-]. eauto.
  - intros (ts & err & Hs & Hp & ->).
    destruct (String.eqb fileName logPrefix) eqn:B.
    { apply String.eqb_eq in B. subst fileName. discriminate Hs. }
    rewrite Hs, Hp. reflexivity.
Qed.

(** C10. File-name classification is lenient: a DDL or row-change file
    name that does not split at "." into exactly two segments, or whose
    first segment is not the expected prefix ("ddl", "cdclog"), makes
    [NeedRestoreDDL] and [NeedRestoreRowChange] return [(false, nil)]; an
    error is returned only when the name has the right shape and its
    timestamp segment does not parse as an unsigned integer; and the bare
    name "cdclog" is always collected. *)
Theorem NeedRestore_file_names_lenient (l : LogClient) (fileName : string) :
  let names := Split fileName "." in
  let misshaped (prefix : string) :=
    length names <> 2%nat \/ head names <> Some prefix in
  (misshaped ddlFilePrefix -> NeedRestoreDDL l fileName = (false, None))
  /\ (fileName <> logPrefix -> misshaped logPrefix ->
      NeedRestoreRowChange l fileName = (false, None))
  /\ (forall e, snd (NeedRestoreDDL l fileName) = Some e <->
        exists ts err, names = [ddlFilePrefix; ts]
                       /\ ParseUint ts = inr err /\ e = ErrParseUint err)
  /\ (forall e, snd (NeedRestoreRowChange l fileName) = Some e <->
        exists ts err, names = [logPrefix; ts]
                       /\ ParseUint ts = inr err /\ e = ErrParseUint err)
  /\ NeedRestoreRowChange l logPrefix = (true, None).
Proof.
  cbv zeta. split; [apply NeedRestoreDDL_wrong_shape|].
  split; [apply NeedRestoreRowChange_wrong_shape|].
  split; [intros e; apply NeedRestoreDDL_error|].
  split; [intros e; apply NeedRestoreRowChange_error|].
  reflexivity.
Qed.

End FileNames.

(** ** The byte order of keys *)

Section ByteOrder.
Import Go.

Lemma to_N_inj (x y : byte) : Byte.to_N x = Byte.to_N y -> x = y.
Proof.
  intros E. pose proof (Byte.of_to_N x) as Hx. pose proof (Byte.of_to_N y) as Hy.
  rewrite E in Hx. congruence.
Qed.

Lemma Equal_eq (a b : list byte) : Equal a b = true <-> a = b.
Proof.
  revert b. induction a as [|x a IH]; intros [|y b]; simpl; try easy.
  rewrite andb_true_iff, IH. split.
  - intros [E ->]. apply Byte.byte_dec_bl in E. now subst.
  - intros [= -> ->]. split; [apply Byte.byte_dec_lb|]; reflexivity.
Qed.

Lemma Equal_refl (a : list byte) : Equal a a = true.
Proof. now apply Equal_eq. Qed.

Lemma Compare_antisym (a b : list byte) : Compare a b = - Compare b a.
Proof.
  revert b. induction a as [|x a IH]; intros [|y b]; simpl; try reflexivity.
  destruct (N.ltb_spec (Byte.to_N x) (Byte.to_N y));
    destruct (N.ltb_spec (Byte.to_N y) (Byte.to_N x)); try lia; auto.
Qed.

Lemma Compare_eq (a b : list byte) : Compare a b = 0 <-> a = b.
Proof.
  revert b. induction a as [|x a IH]; intros [|y b]; simpl; try easy.
  destruct (N.ltb_spec (Byte.to_N x) (Byte.to_N y)) as [L|L].
  { split; [lia|]. intros [= -> ->]. lia. }
  destruct (N.ltb_spec (Byte.to_N y) (Byte.to_N x)) as [G|G].
  { split; [lia|]. intros [= -> ->]. lia. }
  rewrite IH. assert (x = y) by (apply to_N_inj; lia). subst y.
  split; [intros ->; reflexivity | intros [= ->]; reflexivity].
Qed.

Lemma Compare_range (a b : list byte) : -1 <= Compare a b <= 1.
Proof.
  revert b. induction a as [|x a IH]; intros [|y b]; simpl; try lia.
  destruct (_ <? _)%N; [lia|]. destruct (_ <? _)%N; [lia|]. apply IH.
Qed.

Lemma Compare_lt_trans (a b c : list byte) :
  Compare a b < 0 -> Compare b c < 0 -> Compare a c < 0.
Proof.
  revert b c. induction a as [|x a IH]; intros [|y b] [|z c]; simpl; try lia.
  destruct (N.ltb_spec (Byte.to_N x) (Byte.to_N y));
    destruct (N.ltb_spec (Byte.to_N y) (Byte.to_N x));
    destruct (N.ltb_spec (Byte.to_N y) (Byte.to_N z));
    destruct (N.ltb_spec (Byte.to_N z) (Byte.to_N y));
    destruct (N.ltb_spec (Byte.to_N x) (Byte.to_N z));
    destruct (N.ltb_spec (Byte.to_N z) (Byte.to_N x));
    try lia. apply IH.
Qed.

Lemma Compare_le_lt (a b : list byte) :
  Compare a b <= 0 <-> Compare a b < 0 \/ a = b.
Proof. rewrite <- Compare_eq. lia. Qed.

Lemma Compare_le_trans (a b c : list byte) :
  Compare a b <= 0 -> Compare b c <= 0 -> Compare a c <= 0.
Proof.
  rewrite !Compare_le_lt. intros [L1| ->] [L2| ->]; auto.
  left. eapply Compare_lt_trans; eassumption.
Qed.

Lemma Compare_lt_le_trans (a b c : list byte) :
  Compare a b < 0 -> Compare b c <= 0 -> Compare a c < 0.
Proof.
  rewrite Compare_le_lt. intros L1 [L2| <-]; auto.
  eapply Compare_lt_trans; eassumption.
Qed.

End ByteOrder.

(** ** [writeRows]: stable sort and removal of duplicate keys *)

Section WriteRows.
Import Go kv restore.

Lemma lessKey_false (p q : Pair) : lessKey q p = false -> keyLe p q.
Proof.
  unfold lessKey, keyLe. intros E. apply Z.ltb_ge in E.
  rewrite Compare_antisym. lia.
Qed.

Lemma lessKey_true (p q : Pair) : lessKey p q = true <-> keyLt p q.
Proof. unfold lessKey, keyLt. apply Z.ltb_lt. Qed.

Lemma keyLt_neq (p q : Pair) : keyLt p q -> Key p <> Key q.
Proof. unfold keyLt. intros L E. apply Compare_eq in E. lia. Qed.

Lemma insertBefore_elem (x p : Pair) (l : Pairs) :
  In p (insertBefore lessKey x l) <-> p = x \/ In p l.
Proof.
  induction l as [|y l IH]; simpl; [intuition|].
  destruct (lessKey y x); simpl; rewrite ?IH; intuition.
Qed.

Lemma SliceStable_elem (p : Pair) (l : Pairs) :
  In p (SliceStable lessKey l) <-> In p l.
Proof.
  induction l as [|x l IH]; simpl; [reflexivity|].
  rewrite insertBefore_elem, IH. intuition.
Qed.

Lemma insertBefore_sorted (x : Pair) (l : Pairs) :
  StronglySorted keyLe l -> StronglySorted keyLe (insertBefore lessKey x l).
Proof.
  induction 1 as [|y l Hs IH Hall]; simpl.
  - repeat constructor.
  - destruct (lessKey y x) eqn:E.
    + constructor; [exact IH|].
      apply List.Forall_forall. intros p Hp. apply insertBefore_elem in Hp.
      destruct Hp as [-> | Hp].
      * apply lessKey_true in E. unfold keyLt, keyLe in *. lia.
      * rewrite List.Forall_forall in Hall. auto.
    + apply lessKey_false in E. constructor; [constructor; assumption|].
      constructor; [exact E|].
      eapply List.Forall_impl; [|exact Hall]. intros p Hp.
      unfold keyLe in *. eapply Compare_le_trans; eassumption.
Qed.

Lemma SliceStable_sorted (l : Pairs) :
  StronglySorted keyLe (SliceStable lessKey l).
Proof.
  induction l as [|x l IH]; simpl; [constructor|].
  now apply insertBefore_sorted.
Qed.

(** Stability: the sort keeps the pairs of one key in their order. *)
Lemma insertBefore_filter (k : list byte) (x : Pair) (l : Pairs) :
  List.filter (hasKey k) (insertBefore lessKey x l) =
  if hasKey k x then x :: List.filter (hasKey k) l else List.filter (hasKey k) l.
Proof.
  induction l as [|y l IH]; simpl; [reflexivity|].
  destruct (lessKey y x) eqn:E; simpl.
  - rewrite IH. destruct (hasKey k x) eqn:Kx; [|reflexivity].
    destruct (hasKey k y) eqn:Ky; [|reflexivity].
    exfalso. apply lessKey_true, keyLt_neq in E. apply E.
    unfold hasKey in *. apply Equal_eq in Kx, Ky. congruence.
  - reflexivity.
Qed.

Lemma SliceStable_filter (k : list byte) (l : Pairs) :
  List.filter (hasKey k) (SliceStable lessKey l) = List.filter (hasKey k) l.
Proof.
  induction l as [|x l IH]; simpl; [reflexivity|].
  rewrite insertBefore_filter, IH. reflexivity.
Qed.

Lemma dedupKeepLast_elem (p : Pair) (l : Pairs) :
  In p (dedupKeepLast l) -> In p l.
Proof.
  induction l as [|x [|y l] IH]; simpl; [easy|tauto|].
  destruct (Equal (Key x) (Key y)); simpl in *; intuition.
Qed.

Lemma sorted_later_keys (x y : Pair) (l : Pairs) :
  StronglySorted keyLe (x :: y :: l) -> Key x <> Key y ->
  Forall (keyLt x) (y :: l).
Proof.
  intros Hs Hne. inversion Hs as [|? ? Hs' Hall]; subst.
  inversion Hall as [|? ? Hxy Hall']; subst.
  assert (Lxy : keyLt x y).
  { unfold keyLe, keyLt in *. apply Compare_le_lt in Hxy. tauto. }
  constructor; [exact Lxy|].
  inversion Hs' as [|? ? _ Hy]; subst.
  eapply List.Forall_impl; [|exact Hy]. intros p Hp.
  unfold keyLt, keyLe in *. eapply Compare_lt_le_trans; eassumption.
Qed.

(** After the sort, the survivors have strictly increasing keys. *)
Lemma dedupKeepLast_strict (l : Pairs) :
  StronglySorted keyLe l -> StronglySorted keyLt (dedupKeepLast l).
Proof.
  induction l as [|x [|y l] IH]; intros Hs; simpl.
  - constructor.
  - repeat constructor.
  - assert (Hs' : StronglySorted keyLe (y :: l)) by (inversion Hs; assumption).
    destruct (Equal (Key x) (Key y)) eqn:E; [auto|].
    constructor; [auto|].
    assert (Hne : Key x <> Key y).
    { intros Heq. apply Equal_eq in Heq. congruence. }
    pose proof (sorted_later_keys _ _ _ Hs Hne) as Hall.
    rewrite List.Forall_forall in *. intros p Hp. apply Hall.
    now apply dedupKeepLast_elem.
Qed.

Lemma filter_none {A} (f : A -> bool) (l : list A) :
  Forall (fun x => f x = false) l -> List.filter f l = [].
Proof.
  induction 1 as [|x l Hx _ IH]; simpl; [reflexivity|]. now rewrite Hx.
Qed.

Lemma last_cons_nonempty {A} (x : A) (l : list A) :
  l <> [] -> last (x :: l) = last l.
Proof. destruct l; [congruence | reflexivity]. Qed.

(** On a sorted batch, the survivor of a key is the last pair of its run. *)
Lemma dedupKeepLast_find (k : list byte) (l : Pairs) :
  StronglySorted keyLe l ->
  List.find (hasKey k) (dedupKeepLast l) = last (List.filter (hasKey k) l).
Proof.
  induction l as [|x [|y l] IH]; intros Hs.
  - reflexivity.
  - simpl. destruct (hasKey k x); reflexivity.
  - assert (Hs' : StronglySorted keyLe (y :: l)) by (inversion Hs; assumption).
    specialize (IH Hs').
    change (dedupKeepLast (x :: y :: l)) with
      (if Equal (Key x) (Key y) then dedupKeepLast (y :: l)
       else x :: dedupKeepLast (y :: l)).
    change (List.filter (hasKey k) (x :: y :: l)) with
      (if hasKey k x then x :: List.filter (hasKey k) (y :: l)
       else List.filter (hasKey k) (y :: l)).
    destruct (Equal (Key x) (Key y)) eqn:E.
    + rewrite IH. destruct (hasKey k x) eqn:Kx; [|reflexivity].
      symmetry. apply last_cons_nonempty.
      assert (Ky : hasKey k y = true).
      { unfold hasKey in *. apply Equal_eq in E, Kx. apply Equal_eq. congruence. }
      simpl. rewrite Ky. discriminate.
    + change (List.find (hasKey k) (x :: dedupKeepLast (y :: l))) with
        (if hasKey k x then Some x
         else List.find (hasKey k) (dedupKeepLast (y :: l))).
      destruct (hasKey k x) eqn:Kx; [|exact IH].
      assert (Hne : Key x <> Key y).
      { intros Heq. apply Equal_eq in Heq. congruence. }
      pose proof (sorted_later_keys _ _ _ Hs Hne) as Hall.
      assert (Hnil : List.filter (hasKey k) (y :: l) = []).
      { apply filter_none. eapply List.Forall_impl; [|exact Hall].
        intros p Lp. unfold hasKey in *. apply Equal_eq in Kx.
        destruct (Equal (Key p) k) eqn:Kp; [|reflexivity].
        apply Equal_eq in Kp. apply keyLt_neq in Lp. congruence. }
      rewrite Hnil. reflexivity.
Qed.

(** Strictly increasing keys: at most one pair per key. *)
Lemma strict_filter_find (k : list byte) (l : Pairs) :
  StronglySorted keyLt l ->
  List.filter (hasKey k) l =
  match List.find (hasKey k) l with Some p => [p] | None => [] end.
Proof.
  induction 1 as [|x l Hs IH Hall]; simpl; [reflexivity|].
  destruct (hasKey k x) eqn:Kx; [|exact IH].
  f_equal. apply filter_none. eapply List.Forall_impl; [|exact Hall].
  intros p Lp. unfold hasKey in *. apply Equal_eq in Kx.
  destruct (Equal (Key p) k) eqn:Kp; [|reflexivity].
  apply Equal_eq in Kp. apply keyLt_neq in Lp. congruence.
Qed.

Lemma newKvsOf_strict (kvs : Pairs) : StronglySorted keyLt (newKvsOf kvs).
Proof. apply dedupKeepLast_strict, SliceStable_sorted. Qed.

Lemma newKvsOf_find (k : list byte) (kvs : Pairs) :
  List.find (hasKey k) (newKvsOf kvs) = last (List.filter (hasKey k) kvs).
Proof.
  unfold newKvsOf. rewrite dedupKeepLast_find by apply SliceStable_sorted.
  now rewrite SliceStable_filter.
Qed.

Lemma newKvsOf_elem (p : Pair) (kvs : Pairs) : In p (newKvsOf kvs) -> In p kvs.
Proof. intros Hp. now apply SliceStable_elem, dedupKeepLast_elem. Qed.

Lemma insertBefore_nonempty (x : Pair) (l : Pairs) : insertBefore lessKey x l <> [].
Proof. destruct l as [|y l]; simpl; [easy|]. destruct (lessKey y x); easy. Qed.

Lemma dedupKeepLast_nonempty (l : Pairs) : l <> [] -> dedupKeepLast l <> [].
Proof.
  induction l as [|x [|y l] IH]; simpl; [easy|easy|].
  intros _. destruct (Equal (Key x) (Key y)); [apply IH|]; easy.
Qed.

Lemma newKvsOf_nonempty (kvs : Pairs) : kvs <> [] -> newKvsOf kvs <> [].
Proof.
  intros Hne. apply dedupKeepLast_nonempty.
  destruct kvs as [|x l]; [easy|]. apply insertBefore_nonempty.
Qed.

Example newKvsOf_two_keys :
  newKvsOf [ {| Key := [x02]; Val := [x0a] |}; {| Key := [x01]; Val := [x0b] |};
             {| Key := [x02]; Val := [x0c] |}; {| Key := [x01; x00]; Val := [] |} ]
  = [ {| Key := [x01]; Val := [x0b] |}; {| Key := [x01; x00]; Val := [] |};
      {| Key := [x02]; Val := [x0c] |} ].
Proof. reflexivity. Qed.

(** C4 (amended). [writeRows] stable-sorts the batch by key and keeps, of
    every run of equal keys, exactly its last pair: the surviving pairs have
    strictly increasing keys, and the pairs of key [k] that survive are the
    one pair of key [k] that was buffered last (none when no pair has the
    key). For two pairs of one key, the survivor is the second in buffering
    order, whichever of the two that is. *)
Theorem writeRows_keeps_last_buffered (kvs : Pairs) (k : list byte) :
  StronglySorted keyLe (SliceStable lessKey kvs)
  /\ List.filter (hasKey k) (SliceStable lessKey kvs) = List.filter (hasKey k) kvs
  /\ StronglySorted keyLt (newKvsOf kvs)
  /\ List.filter (hasKey k) (newKvsOf kvs) =
       match last (List.filter (hasKey k) kvs) with
       | Some p => [p]
       | None => []
       end
  /\ forall v1 v2,
       newKvsOf [ {| Key := k; Val := v1 |}; {| Key := k; Val := v2 |} ]
       = [ {| Key := k; Val := v2 |} ].
Proof.
  split; [apply SliceStable_sorted|].
  split; [apply SliceStable_filter|].
  split; [apply newKvsOf_strict|].
  split.
  - rewrite strict_filter_find by apply newKvsOf_strict.
    now rewrite newKvsOf_find.
  - intros v1 v2. unfold newKvsOf. simpl. unfold lessKey. simpl.
    assert (E : Compare k k = 0) by now apply Compare_eq.
    rewrite E. simpl. now rewrite Equal_refl.
Qed.

(** C4, as stated, fails: with [(k1, v2)] (committed at 9) buffered before
    [(k1, v1)] (committed at 5), the survivor is [(k1, v1)]. The pairs carry
    no commit timestamp; the buffering order decides. *)
Lemma writeRows_survivor_depends_on_order :
  let p5 := {| Key := [x6b; x31]; Val := [x76; x31] |} in
  let p9 := {| Key := [x6b; x31]; Val := [x76; x32] |} in
  newKvsOf [p9; p5] = [p5]
  /\ ~ (forall kvs, Permutation [p5; p9] kvs -> newKvsOf kvs = [p9]).
Proof.
  cbv zeta. split; [reflexivity|].
  intros Hall. specialize (Hall _ (perm_swap _ _ [])). discriminate Hall.
Qed.

End WriteRows.

(** ** Reasoning about runs of the client's methods *)

Section Logic.
Import restore.
Context `{Collaborators}.

Lemma wpa_ret {A} (a : A) l t0 (Q : Outcome A -> LogClient -> list Event -> Prop) :
  Q (Ok a) l t0 -> wpa (ret a) l t0 Q.
Proof. unfold wpa; simpl. now rewrite app_nil_r. Qed.

Lemma wpa_halt {A} (s : Stop) l t0 (Q : Outcome A -> LogClient -> list Event -> Prop) :
  Q (Halt s) l t0 -> wpa (halt s) l t0 Q.
Proof. unfold wpa; simpl. now rewrite app_nil_r. Qed.

Lemma wpa_fail {A} (e : Error) l t0 (Q : Outcome A -> LogClient -> list Event -> Prop) :
  Q (Halt (Failed e)) l t0 -> wpa (fail e) l t0 Q.
Proof. apply wpa_halt. Qed.

Lemma wpa_get l t0 (Q : Outcome LogClient -> LogClient -> list Event -> Prop) :
  Q (Ok l) l t0 -> wpa get l t0 Q.
Proof. unfold wpa; simpl. now rewrite app_nil_r. Qed.

Lemma wpa_modify f l t0 (Q : Outcome unit -> LogClient -> list Event -> Prop) :
  Q (Ok tt) (f l) t0 -> wpa (modify f) l t0 Q.
Proof. unfold wpa; simpl. now rewrite app_nil_r. Qed.

Lemma wpa_emit e l t0 (Q : Outcome unit -> LogClient -> list Event -> Prop) :
  Q (Ok tt) l (t0 ++ [e]) -> wpa (emit e) l t0 Q.
Proof. unfold wpa; simpl. auto. Qed.

Lemma wpa_bind {A B} (m : M A) (k : A -> M B) l t0
    (Q : Outcome B -> LogClient -> list Event -> Prop) :
  wpa m l t0 (fun o l1 t1 =>
                match o with
                | Ok a => wpa (k a) l1 t1 Q
                | Halt s => Q (Halt s) l1 t1
                end) ->
  wpa (bind m k) l t0 Q.
Proof.
  unfold wpa, bind, outcomeOf, stateOf, traceOf.
  destruct (m l) as [[[a|s] l1] t1]; simpl; [|auto].
  destruct (k a l1) as [[o2 l2] t2]; simpl. now rewrite app_assoc.
Qed.

Lemma wpa_mono {A} (m : M A) l t0
    (Q Q' : Outcome A -> LogClient -> list Event -> Prop) :
  wpa m l t0 Q -> (forall o l' t, Q o l' t -> Q' o l' t) -> wpa m l t0 Q'.
Proof. unfold wpa. auto. Qed.

Lemma wpa_run {A} (m : M A) l
    (Q : Outcome A -> LogClient -> list Event -> Prop) :
  wpa m l [] Q <-> Q (outcomeOf (m l)) (stateOf (m l)) (traceOf (m l)).
Proof. reflexivity. Qed.

Lemma keeps_bind {A B} I (m : M A) (k : A -> M B) :
  keeps I m -> (forall a, keeps I (k a)) -> keeps I (bind m k).
Proof.
  intros Hm Hk l t HI. apply wpa_bind. eapply wpa_mono; [apply Hm, HI|].
  intros [a|s] l1 t1 H1; [apply Hk, H1 | exact H1].
Qed.

Lemma keeps_ret {A} I (a : A) : keeps I (ret a).
Proof. intros l t HI. now apply wpa_ret. Qed.

Lemma keeps_halt {A} I (s : Stop) : keeps I (@halt _ A s).
Proof. intros l t HI. now apply wpa_halt. Qed.

(** Reading the client: what follows may use that it read the current
    one. *)
Lemma keeps_get {B} I (k : LogClient -> M B) :
  (forall l t, I l t -> wpa (k l) l t (fun _ l' t' => I l' t')) ->
  keeps I (bind get k).
Proof. intros Hk l t HI. apply wpa_bind, wpa_get. now apply Hk. Qed.

End Logic.

(** ** The invariant of the per-table replay loop *)

Section WorkerInvariant.
Import kv cdclog restore.
Context `{Collaborators}.
Variables (tableID : Z) (l0 : LogClient) (stream : list PullResult).

Abbreviation Inv := (WInv tableID l0 stream).

Lemma appendedRows_app (t1 t2 : list Event) :
  appendedRows (t1 ++ t2) = appendedRows t1 ++ appendedRows t2.
Proof.
  induction t1 as [|e t1 IH]; simpl; [reflexivity|].
  unfold appendedRows in *. simpl. destruct e; simpl; now rewrite ?IH.
Qed.

Lemma appendedRows_In (t : list Event) (item : SortItem) :
  In item (appendedRows t) <-> exists tid, In (EvAppend tid item) t.
Proof.
  induction t as [|e t IH]; simpl.
  - split; [easy | intros [? []]].
  - unfold appendedRows in *. simpl. destruct e; simpl; rewrite ?IH;
      try (split; [intros [tid Ht]; exists tid; now right
                  | intros [tid [Ht|Ht]]; [discriminate | now exists tid]]).
    split.
    + intros [->|[tid Ht]]; [exists tableID0; now left | exists tid; now right].
    + intros [tid [[= -> ->]|Ht]]; [now left | right; now exists tid].
Qed.

Lemma derivedFrom_mono (items items' : list SortItem) (p : Pair) :
  (forall item, In item items -> In item items') ->
  derivedFrom tableID l0 items p -> derivedFrom tableID l0 items' p.
Proof.
  intros Hsub [Hp | (item & ti & pairs & Hin & Hrest)]; [now left|].
  right. exists item, ti, pairs. split; [now apply Hsub | exact Hrest].
Qed.

Lemma derivedFrom_app (t e : list Event) (p : Pair) :
  derivedFrom tableID l0 (appendedRows t) p ->
  derivedFrom tableID l0 (appendedRows (t ++ e)) p.
Proof.
  apply derivedFrom_mono. intros item Hin. rewrite appendedRows_app.
  apply in_or_app. now left.
Qed.

Lemma Inv_start : sameWindow tableID l0 l0.
Proof. repeat split; reflexivity. Qed.

Lemma Inv_initial : Inv l0 [].
Proof.
  split; [apply Inv_start|]. split; [intros ? ? []|].
  split; [intros p Hp; now left | intros ? ? []].
Qed.

Lemma Inv_same_buffers l l' t :
  startTS l' = startTS l -> endTS l' = endTS l ->
  dropTSMap l' = dropTSMap l -> meta l' = meta l ->
  eventPullers l' = eventPullers l -> tableBuffers l' = tableBuffers l ->
  Inv l t -> Inv l' t.
Proof.
  intros Hs He Hd Hm Hpu Hb ((Hs0 & He0 & Hd0 & Hm0 & Hpu0 & Hb0) & Ha & Hp & Hi).
  split; [|split; [exact Ha|split; [|exact Hi]]].
  - repeat split; try congruence. intros tid Hne. rewrite Hb. auto.
  - unfold pending in *. rewrite Hb. exact Hp.
Qed.

Lemma Inv_setWorld (w : World) l t : Inv l t -> Inv (setWorld w l) t.
Proof. now apply Inv_same_buffers. Qed.

Lemma Inv_setLock (b : bool) l t : Inv l t -> Inv (setLock b l) t.
Proof. now apply Inv_same_buffers. Qed.

Lemma Inv_emit_silent (e : Event) l t : silent e -> Inv l t -> Inv l (t ++ [e]).
Proof.
  intros He (Hw & Ha & Hp & Hi). split; [exact Hw|].
  split; [|split].
  - intros tid item Hin. apply in_app_or in Hin as [Hin|[Heq|[]]]; [auto|].
    subst e. destruct He.
  - intros p Hin. apply derivedFrom_app. auto.
  - intros kvs p Hin Hp'. apply derivedFrom_app.
    apply in_app_or in Hin as [Hin|[Heq|[]]]; [eauto|]. subst e. destruct He.
Qed.

Lemma Inv_emit_ingest (kvs : Pairs) l t :
  (forall p, In p kvs -> derivedFrom tableID l0 (appendedRows t) p) ->
  Inv l t -> Inv l (t ++ [EvIngest kvs]).
Proof.
  intros Hk (Hw & Ha & Hp & Hi). split; [exact Hw|].
  split; [|split].
  - intros tid item Hin. apply in_app_or in Hin as [Hin|[Heq|[]]]; [auto|].
    discriminate Heq.
  - intros p Hin. apply derivedFrom_app. auto.
  - intros kvs' p Hin Hp'. apply derivedFrom_app.
    apply in_app_or in Hin as [Hin|[Heq|[]]]; [eauto|].
    injection Heq as <-. auto.
Qed.

Lemma Inv_emit_append (item : SortItem) l t :
  In (PullItem item) stream -> admitted l0 item ->
  Inv l t -> Inv l (t ++ [EvAppend tableID item]).
Proof.
  intros Hs Had (Hw & Ha & Hp & Hi). split; [exact Hw|].
  split; [|split].
  - intros tid it Hin. apply in_app_or in Hin as [Hin|[Heq|[]]]; [auto|].
    injection Heq as <- <-. auto.
  - intros p Hin. apply derivedFrom_app. auto.
  - intros kvs' p Hin Hp'. apply derivedFrom_app.
    apply in_app_or in Hin as [Hin|[Heq|[]]]; [eauto|]. discriminate Heq.
Qed.

Lemma pending_setBuffer (tb : TableBuffer) l :
  pending (setBuffer tableID tb l) tableID = KvPairs tb.
Proof. unfold pending, setBuffer; simpl. now rewrite lookup_insert_eq. Qed.

Lemma Inv_setBuffer (tb : TableBuffer) l t :
  (forall p, In p (KvPairs tb) -> derivedFrom tableID l0 (appendedRows t) p) ->
  Inv l t -> Inv (setBuffer tableID tb l) t.
Proof.
  intros Hk (Hw & Ha & Hp & Hi). split; [|split; [exact Ha|split; [|exact Hi]]].
  - destruct Hw as (? & ? & ? & ? & ? & Hother). repeat split; auto.
    intros tid Hne. simpl. rewrite lookup_insert_ne by congruence. auto.
  - intros p. rewrite pending_setBuffer. auto.
Qed.

Lemma pending_lookup (tb : TableBuffer) l :
  tableBuffers l !! tableID = Some tb -> pending l tableID = KvPairs tb.
Proof. unfold pending. now intros ->. Qed.

(** *** The operations of the loop keep the invariant *)

Lemma Execute_keeps (sql : string) : keeps Inv (Execute sql).
Proof.
  intros l t HI. unfold Execute. apply wpa_bind, wpa_emit.
  apply wpa_bind, wpa_get.
  assert (HI' : Inv l (t ++ [EvExecute sql])) by now apply Inv_emit_silent.
  destruct (seExecute sql (restoreClient l)) as [w [e|]].
  - apply wpa_bind, wpa_modify, wpa_fail. now apply Inv_setWorld.
  - apply wpa_modify. now apply Inv_setWorld.
Qed.

Lemma Lock_keeps : keeps Inv Lock.
Proof.
  intros l t HI. unfold Lock. apply wpa_bind, wpa_get.
  destruct (ddlLock l); [now apply wpa_halt|].
  apply wpa_bind, wpa_modify, wpa_emit.
  apply Inv_emit_silent; [exact I|]. now apply Inv_setLock.
Qed.

Lemma Unlock_keeps : keeps Inv Unlock.
Proof.
  intros l t HI. unfold Unlock. apply wpa_bind, wpa_get.
  destruct (ddlLock l); [|now apply wpa_halt].
  apply wpa_bind, wpa_modify, wpa_emit.
  apply Inv_emit_silent; [exact I|]. now apply Inv_setLock.
Qed.

Lemma writeRows_keeps (kvs : Pairs) l t :
  (forall p, In p kvs -> In p (pending l tableID)) ->
  Inv l t ->
  wpa (writeRows kvs) l t
    (fun _ l' t' => Inv l' t' /\ tableBuffers l' = tableBuffers l).
Proof.
  intros Hk0 HI.
  assert (Hk : forall p, In p kvs -> derivedFrom tableID l0 (appendedRows t) p).
  { intros p Hp. destruct HI as (_ & _ & Hp' & _). auto. }
  unfold writeRows. destruct kvs as [|p0 kvs']; [now apply wpa_ret|].
  set (kvs := p0 :: kvs') in *.
  destruct (head (newKvsOf kvs)) as [first|]; [|now apply wpa_halt].
  destruct (last (newKvsOf kvs)) as [final|]; [|now apply wpa_halt].
  apply wpa_bind, wpa_emit. apply wpa_bind, wpa_get.
  assert (HI' : Inv l (t ++ [EvIngest (newKvsOf kvs)])).
  { apply Inv_emit_ingest; [|exact HI]. intros p Hp. apply Hk.
    now apply newKvsOf_elem. }
  destruct (ingestRanges _ _ _) as [w [e|]].
  - apply wpa_bind, wpa_modify, wpa_fail. split; [now apply Inv_setWorld|reflexivity].
  - apply wpa_modify. split; [now apply Inv_setWorld|reflexivity].
Qed.

Lemma applyKVChanges_keeps : keeps Inv (applyKVChanges tableID).
Proof.
  intros l t HI. unfold applyKVChanges. apply wpa_bind, wpa_get.
  destruct (tableBuffers l !! tableID) as [tb|] eqn:Etb; [|now apply wpa_halt].
  destruct (IsEmpty tb); [now apply wpa_ret|].
  apply wpa_bind. eapply wpa_mono.
  { apply writeRows_keeps; [|exact HI]. intros p Hp.
    apply filter_In in Hp. rewrite (pending_lookup tb) by assumption. apply Hp. }
  intros [[]|s] l1 t1 [HI1 Hb1]; [|exact HI1].
  apply wpa_bind. eapply wpa_mono.
  { apply writeRows_keeps; [|exact HI1]. intros p Hp.
    apply filter_In in Hp. rewrite (pending_lookup tb) by congruence. apply Hp. }
  intros [[]|s'] l2 t2 [HI2 Hb2]; [|exact HI2].
  apply wpa_modify. apply Inv_setBuffer; [intros p []|exact HI2].
Qed.

Lemma Inv_setBuffer_same (tb tb' : TableBuffer) l t :
  tableBuffers l !! tableID = Some tb -> KvPairs tb' = KvPairs tb ->
  Inv l t -> Inv (setBuffer tableID tb' l) t.
Proof.
  intros Etb Hk HI. apply Inv_setBuffer; [|exact HI].
  intros p Hp. destruct HI as (_ & _ & Hp' & _). apply Hp'.
  rewrite (pending_lookup tb) by assumption. congruence.
Qed.

Lemma reloadTableMeta_keeps (item : SortItem) :
  keeps Inv (reloadTableMeta tableID item).
Proof.
  intros l t HI. unfold reloadTableMeta. apply wpa_bind, wpa_get.
  destruct (domReload (restoreClient l)) as [w [e|]].
  { apply wpa_bind, wpa_modify, wpa_fail. now apply Inv_setWorld. }
  apply wpa_bind, wpa_modify. apply wpa_bind, wpa_get.
  assert (HI' : Inv (setWorld w l) t) by now apply Inv_setWorld.
  change (tableBuffers (setWorld w l)) with (tableBuffers l).
  destruct (tableBuffers l !! tableID) as [tb|] eqn:Etb; [|now apply wpa_halt].
  assert (Hattach : forall ti,
    wpa (if SchemaByName w (Schema item)
         then modify (setBuffer tableID (ReloadMeta tb ti))
         else fail (ErrRestoreSchemaNotExists (Schema item)))
        (setWorld w l) t (fun _ l' t' => Inv l' t')).
  { intros ti. destruct (SchemaByName w (Schema item)); [|now apply wpa_fail].
    apply wpa_modify. now apply (Inv_setBuffer_same tb). }
  destruct (negb (TableID tb =? 0)).
  - destruct (TableByID w (TableID tb)); [apply Hattach | now apply wpa_ret].
  - destruct (TableByName w (Schema item) (Table item));
      [apply Hattach | now apply wpa_fail].
Qed.

Lemma Append_keeps (item : SortItem) :
  In (PullItem item) stream -> admitted l0 item ->
  keeps Inv (Append tableID item).
Proof.
  intros Hs Had l t HI. unfold Append. apply wpa_bind, wpa_emit.
  apply wpa_bind, wpa_get.
  assert (HI' : Inv l (t ++ [EvAppend tableID item])) by now apply Inv_emit_append.
  destruct (tableBuffers l !! tableID) as [tb|] eqn:Etb; [|now apply wpa_halt].
  destruct (encodeRow (TableInfo tb) item) as [pairs|e] eqn:Eenc;
    [|now apply wpa_fail].
  apply wpa_modify. apply Inv_setBuffer; [|exact HI'].
  intros p Hp. simpl in Hp. apply in_app_or in Hp as [Hp|Hp].
  - destruct HI' as (_ & _ & Hp' & _). apply Hp'.
    now rewrite (pending_lookup tb).
  - right. exists item, (TableInfo tb), pairs.
    split; [|split; [exact Had|split; [exact Eenc|exact Hp]]].
    apply appendedRows_In. exists tableID. apply in_or_app. right. now left.
Qed.

Lemma executeTableDDL_keeps (item : SortItem) (ddl : MessageDDL) (continue : M unit) :
  keeps Inv continue -> keeps Inv (executeTableDDL tableID item ddl continue).
Proof.
  intros Hc. unfold executeTableDDL.
  apply keeps_bind; [apply applyKVChanges_keeps|intros _].
  apply keeps_bind; [apply Lock_keeps|intros _].
  apply keeps_bind; [apply Execute_keeps|intros _].
  apply keeps_bind; [apply Execute_keeps|intros _].
  apply keeps_bind; [apply Unlock_keeps|intros _].
  destruct (isDropTable ddl).
  - apply keeps_get. intros l t HI.
    destruct (tableBuffers l !! tableID) as [tb|] eqn:Etb; [|now apply wpa_halt].
    apply wpa_bind, wpa_modify. apply Hc. now apply (Inv_setBuffer_same tb).
  - apply keeps_bind; [apply reloadTableMeta_keeps|intros _; exact Hc].
Qed.

Lemma appendRow_keeps (item : SortItem) (continue : M unit) :
  In (PullItem item) stream -> admitted l0 item ->
  keeps Inv continue -> keeps Inv (appendRow tableID item continue).
Proof.
  intros Hs Had Hc. unfold appendRow. apply keeps_get. intros l t HI.
  destruct (tableBuffers l !! tableID) as [tb|]; [|now apply wpa_halt].
  revert l t HI. change (keeps Inv
    ((match TableInfo tb with
      | Some _ => ret tt
      | None => reloadTableMeta tableID item
      end) ;;
     Append tableID item ;;
     l' <- get ;
     match tableBuffers l' !! tableID with
     | Some tb' =>
         (if ShouldApply tb' then applyKVChanges tableID else ret tt) ;; continue
     | None => halt Panicked
     end)).
  apply keeps_bind.
  { destruct (TableInfo tb); [apply keeps_ret | apply reloadTableMeta_keeps]. }
  intros _. apply keeps_bind; [now apply Append_keeps|intros _].
  apply keeps_get. intros l t HI.
  destruct (tableBuffers l !! tableID) as [tb'|]; [|now apply wpa_halt].
  revert l t HI. apply keeps_bind; [|intros _; exact Hc].
  destruct (ShouldApply tb'); [apply applyKVChanges_keeps | apply keeps_ret].
Qed.

Lemma shouldFilter_false l (item : SortItem) :
  shouldFilter l item = false ->
  forall fence, dropTSMap l !! Schema item = Some fence -> fence <= TS item.
Proof.
  unfold shouldFilter. intros Hf fence E. rewrite E in Hf.
  apply Z.ltb_ge in Hf. exact Hf.
Qed.

(** The replay loop keeps the invariant, whatever the events. *)
Lemma restoreTableFromPuller_keeps (puller : list PullResult) :
  (forall item, In (PullItem item) puller -> In (PullItem item) stream) ->
  keeps Inv (restoreTableFromPuller tableID puller).
Proof.
  induction puller as [|[item|msg] rest IH]; intros Hsub.
  - apply applyKVChanges_keeps.
  - assert (Hrest : keeps Inv (restoreTableFromPuller tableID rest)).
    { apply IH. intros it Hit. apply Hsub. now right. }
    simpl. apply keeps_get. intros l t HI.
    destruct (TS item <? startTS l) eqn:Elo; [now apply Hrest|].
    destruct (endTS l <? TS item) eqn:Ehi; [now apply applyKVChanges_keeps|].
    destruct (shouldFilter l item) eqn:Ef.
    { revert l t HI Elo Ehi Ef. intros l t HI _ _ _. revert l t HI.
      apply keeps_bind; [apply applyKVChanges_keeps|intros _; exact Hrest]. }
    assert (Had : admitted l0 item).
    { destruct HI as ((Hs & He & Hd & _) & _).
      apply Z.ltb_ge in Elo, Ehi. split; [lia|].
      intros fence E. apply (shouldFilter_false l); [exact Ef|congruence]. }
    assert (Hin : In (PullItem item) stream) by (apply Hsub; now left).
    destruct (Data item) as [ddl|row].
    + destruct (ParseQuoteName _) as [schema table].
      destruct (negb _); [now apply Hrest|].
      destruct (isDBRelatedDDL ddl); [now apply Hrest|].
      now apply executeTableDDL_keeps.
    + now apply appendRow_keeps.
  - simpl. intros l t HI. now apply wpa_fail.
Qed.

End WorkerInvariant.

(** ** What a flush does *)

Section Flush.
Import Go kv cdclog restore.
Context `{Collaborators}.

Lemma onlyWorld_refl l : onlyWorld l l.
Proof. unfold onlyWorld. now destruct l. Qed.

Lemma onlyWorld_setWorld w l l' : onlyWorld l l' -> onlyWorld l (setWorld w l').
Proof. unfold onlyWorld. intros ->. reflexivity. Qed.



Lemma onlyWorld_lock l l' : onlyWorld l l' -> ddlLock l' = ddlLock l.
Proof. unfold onlyWorld. now intros ->. Qed.

(** [writeRows] hands the deduplicated batch to the ingester, once, and
    touches nothing of the client but the cluster. *)
Lemma writeRows_spec (kvs : Pairs) l t0 :
  wpa (writeRows kvs) l t0
    (fun _ l' t' => t' = t0 ++ ingestEvents kvs /\ onlyWorld l l').
Proof.
  unfold writeRows. destruct kvs as [|p0 kvs'].
  { apply wpa_ret. simpl. rewrite app_nil_r. split; [reflexivity|apply onlyWorld_refl]. }
  set (kvs := p0 :: kvs').
  pose proof (newKvsOf_nonempty kvs ltac:(discriminate)) as Hne.
  destruct (head (newKvsOf kvs)) as [first|] eqn:Eh.
  2:{ destruct (newKvsOf kvs); [congruence|discriminate Eh]. }
  destruct (last (newKvsOf kvs)) as [final|] eqn:El.
  2:{ apply last_None in El. congruence. }
  apply wpa_bind, wpa_emit. apply wpa_bind, wpa_get.
  destruct (ingestRanges _ _ _) as [w [e|]].
  - apply wpa_bind, wpa_modify, wpa_fail.
    split; [reflexivity | apply onlyWorld_setWorld, onlyWorld_refl].
  - apply wpa_modify.
    split; [reflexivity | apply onlyWorld_setWorld, onlyWorld_refl].
Qed.

(** A flush that returns has handed both batches to the ingester and left
    the buffer empty; one that stops has handed over a first part of them
    at most. It emits nothing else. *)
Lemma applyKVChanges_spec (tableID : Z) l t0 :
  wpa (applyKVChanges tableID) l t0
    (fun o l' t' =>
       match o with
       | Ok _ =>
           t' = t0 ++ flushEvents (pending l tableID)
           /\ pending l' tableID = []
           /\ is_Some (tableBuffers l !! tableID)
           /\ ddlLock l' = ddlLock l
       | Halt _ =>
           exists done rest,
             flushEvents (pending l tableID) = done ++ rest /\ t' = t0 ++ done
       end).
Proof.
  unfold applyKVChanges. apply wpa_bind, wpa_get. unfold pending.
  destruct (tableBuffers l !! tableID) as [tb|] eqn:Etb.
  2:{ apply wpa_halt. exists [], []. split; [reflexivity|now rewrite app_nil_r]. }
  destruct (IsEmpty tb) eqn:Eempty.
  { apply wpa_ret. unfold IsEmpty in Eempty.
    destruct (KvPairs tb) eqn:Ek; [|discriminate].
    unfold flushEvents. simpl. rewrite app_nil_r. rewrite Etb, Ek. eauto. }
  apply wpa_bind. eapply wpa_mono; [apply writeRows_spec|].
  intros [[]|s] l1 t1 [-> Hw1].
  2:{ eexists _, _. split; [reflexivity|reflexivity]. }
  apply wpa_bind. eapply wpa_mono; [apply writeRows_spec|].
  intros [[]|s] l2 t2 [-> Hw2].
  2:{ exists (flushEvents (KvPairs tb)), []. rewrite app_nil_r.
      unfold flushEvents. now rewrite app_assoc. }
  apply wpa_modify. unfold flushEvents. rewrite app_assoc.
  split; [reflexivity|]. split; [|split; [eauto|]].
  - simpl. now rewrite lookup_insert_eq.
  - simpl. rewrite (onlyWorld_lock _ _ Hw2). apply (onlyWorld_lock _ _ Hw1).
Qed.

Lemma last_filter_Some {A} (f : A -> bool) (l : list A) (x : A) :
  In x l -> f x = true -> exists y, last (List.filter f l) = Some y.
Proof.
  intros Hin Hf. apply last_is_Some. intros E.
  assert (Hx : In x (List.filter f l)) by (apply filter_In; auto).
  rewrite E in Hx. destruct Hx.
Qed.

(** Every key of the batch is in what the ingester gets. *)
Lemma newKvsOf_covers (kvs : Pairs) (p : Pair) :
  In p kvs -> exists q, In q (newKvsOf kvs) /\ Key q = Key p.
Proof.
  intros Hp.
  destruct (last_filter_Some (hasKey (Key p)) kvs p Hp) as [q Hq].
  { unfold hasKey. apply Equal_refl. }
  rewrite <- newKvsOf_find in Hq. apply find_some in Hq as [Hin Hk].
  exists q. split; [exact Hin|]. unfold hasKey in Hk. now apply Equal_eq in Hk.
Qed.

Lemma ingestEvents_covers (kvs : Pairs) (p : Pair) :
  In p kvs ->
  exists batch q, In (EvIngest batch) (ingestEvents kvs)
                  /\ In q batch /\ Key q = Key p.
Proof.
  intros Hp. destruct (newKvsOf_covers kvs p Hp) as (q & Hq & Hk).
  exists (newKvsOf kvs), q. split; [|auto].
  destruct kvs; [destruct Hp | now left].
Qed.

(** The events of a flush carry every pending key. *)
Lemma flushEvents_covers (ps : Pairs) (p : Pair) :
  In p ps ->
  exists batch q, In (EvIngest batch) (flushEvents ps)
                  /\ In q batch /\ Key q = Key p.
Proof.
  intros Hp. unfold flushEvents. destruct (isDataPair p) eqn:Ed.
  - destruct (ingestEvents_covers (List.filter isDataPair ps) p)
      as (batch & q & Hb & Hq); [apply filter_In; auto|].
    exists batch, q. split; [apply in_or_app; now left | exact Hq].
  - destruct (ingestEvents_covers
                (List.filter (fun p => negb (isDataPair p)) ps) p)
      as (batch & q & Hb & Hq); [apply filter_In; rewrite Ed; auto|].
    exists batch, q. split; [apply in_or_app; now right | exact Hq].
Qed.

Lemma flushEvents_ingest_only (ps : Pairs) (e : Event) :
  In e (flushEvents ps) -> exists batch, e = EvIngest batch.
Proof.
  unfold flushEvents, ingestEvents. intros Hin.
  apply in_app_or in Hin as [Hin|Hin];
    [destruct (List.filter isDataPair ps)
    |destruct (List.filter (fun p => negb (isDataPair p)) ps)];
    simpl in Hin; intuition eauto.
Qed.

End Flush.

(** ** The per-table replay loop *)

Section Replay.
Import Go kv cdclog restore.
Context `{Collaborators}.

Lemma bind_get {B} (k : LogClient -> M B) l : bind get k l = k l l.
Proof. unfold bind, get. destruct (k l l) as [[o l'] t]. reflexivity. Qed.

Lemma bind_run {A B} (m : M A) (k : A -> M B) l :
  bind m k l =
  match outcomeOf (m l) with
  | Ok a =>
      (outcomeOf (k a (stateOf (m l))), stateOf (k a (stateOf (m l))),
       traceOf (m l) ++ traceOf (k a (stateOf (m l))))
  | Halt s => (Halt s, stateOf (m l), traceOf (m l))
  end.
Proof.
  unfold bind, outcomeOf, stateOf, traceOf.
  destruct (m l) as [[[a|s] l1] t1]; simpl; [|reflexivity].
  destruct (k a l1) as [[o l2] t2]; reflexivity.
Qed.

(** One turn of the loop on an event. *)
Lemma restoreTableFromPuller_item (tableID : Z) (item : SortItem)
    (rest : list PullResult) l :
  restoreTableFromPuller tableID (PullItem item :: rest) l =
  (if TS item <? startTS l then restoreTableFromPuller tableID rest
   else if endTS l <? TS item then applyKVChanges tableID
   else if shouldFilter l item
        then applyKVChanges tableID ;; restoreTableFromPuller tableID rest
   else match Data item with
        | DataDDL ddl =>
            let '(schema, table) :=
              ParseQuoteName (default "" (Names (meta l) !! tableID)) in
            if negb (String.eqb schema (Schema item)
                     && (String.eqb table (Table item) || isDBRelatedDDL ddl))
            then restoreTableFromPuller tableID rest
            else if isDBRelatedDDL ddl then restoreTableFromPuller tableID rest
            else executeTableDDL tableID item ddl
                   (restoreTableFromPuller tableID rest)
        | DataRow _ =>
            appendRow tableID item (restoreTableFromPuller tableID rest)
        end) l.
Proof. simpl. rewrite bind_get. reflexivity. Qed.

(** The invariant holds of every run of the loop from [l]. *)
Lemma restoreTableFromPuller_invariant (tableID : Z) (puller : list PullResult) l :
  WInv tableID l puller
    (stateOf (restoreTableFromPuller tableID puller l))
    (traceOf (restoreTableFromPuller tableID puller l)).
Proof.
  exact (restoreTableFromPuller_keeps tableID l puller puller
           (fun _ Hin => Hin) l [] (Inv_initial tableID l puller)).
Qed.

Lemma derivedFrom_stream (tableID : Z) (puller : list PullResult) l l' t p :
  WInv tableID l puller l' t ->
  derivedFrom tableID l (appendedRows t) p ->
  In p (pending l tableID)
  \/ exists item ti pairs,
       In (PullItem item) puller /\ admitted l item
       /\ encodeRow ti item = inl pairs /\ In p pairs.
Proof.
  intros (_ & Ha & _) [Hp | (item & ti & pairs & Hin & Had & Henc & Hp)];
    [now left|].
  right. exists item, ti, pairs. apply appendedRows_In in Hin as [tid Hin].
  destruct (Ha _ _ Hin) as (_ & Hs & _). auto.
Qed.

Lemma applyKVChanges_run (tableID : Z) l :
  let flush := applyKVChanges tableID l in
  (forall e, In e (traceOf flush) -> exists batch, e = EvIngest batch)
  /\ (outcomeOf flush = Ok tt ->
      traceOf flush = flushEvents (pending l tableID)
      /\ pending (stateOf flush) tableID = []
      /\ ddlLock (stateOf flush) = ddlLock l).
Proof.
  cbv zeta. pose proof (applyKVChanges_spec tableID l []) as Hs.
  apply wpa_run in Hs. simpl in Hs.
  destruct (outcomeOf (applyKVChanges tableID l)) as [[]|s] eqn:Eo.
  - destruct Hs as (Ht & Hp & _ & Hl). split.
    + intros e. rewrite Ht. apply flushEvents_ingest_only.
    + auto.
  - destruct Hs as (done & rest & Hf & Ht). split; [|discriminate].
    intros e He. apply (flushEvents_ingest_only (pending l tableID)).
    rewrite Hf, <- Ht. apply in_or_app. now left.
Qed.

(** C1. A row-change event whose commit timestamp lies outside
    [startTS, endTS] yields no pair that is appended to the table buffer
    or ingested: every row the loop appends comes from the stream and lies
    in the window, and every pair it ingests or leaves pending was pending
    at the start or encodes such a row. An event below [startTS] is
    dropped and the loop goes on with the rest; the first event above
    [endTS] (and not below [startTS]) makes the loop flush the buffer and
    stop, whatever follows it. *)
Theorem replay_respects_window (tableID : Z) (puller : list PullResult)
    (l : LogClient) :
  let r := restoreTableFromPuller tableID puller l in
  let inWindow (item : SortItem) :=
    In (PullItem item) puller /\ startTS l <= TS item <= endTS l in
  let fromWindow (p : Pair) :=
    In p (pending l tableID)
    \/ exists item ti pairs,
         inWindow item /\ encodeRow ti item = inl pairs /\ In p pairs in
  (forall tid item, In (EvAppend tid item) (traceOf r) -> inWindow item)
  /\ (forall batch p, In (EvIngest batch) (traceOf r) -> In p batch ->
      fromWindow p)
  /\ (forall p, In p (pending (stateOf r) tableID) -> fromWindow p)
  /\ (forall item rest, puller = PullItem item :: rest ->
      TS item < startTS l -> r = restoreTableFromPuller tableID rest l)
  /\ (forall item rest, puller = PullItem item :: rest ->
      startTS l <= TS item -> endTS l < TS item ->
      r = applyKVChanges tableID l
      /\ (forall e, In e (traceOf r) -> exists batch, e = EvIngest batch)
      /\ (outcomeOf r = Ok tt ->
          traceOf r = flushEvents (pending l tableID)
          /\ pending (stateOf r) tableID = [])).
Proof.
  cbv zeta.
  pose proof (restoreTableFromPuller_invariant tableID puller l) as HI.
  assert (Hfrom : forall p,
    derivedFrom tableID l
      (appendedRows (traceOf (restoreTableFromPuller tableID puller l))) p ->
    In p (pending l tableID)
    \/ exists item ti pairs,
         (In (PullItem item) puller /\ startTS l <= TS item <= endTS l)
         /\ encodeRow ti item = inl pairs /\ In p pairs).
  { intros p Hp. destruct (derivedFrom_stream _ _ _ _ _ _ HI Hp)
      as [Hp'|(item & ti & pairs & Hs & Had & Hrest)]; [now left|].
    right. exists item, ti, pairs. split; [|exact Hrest].
    split; [exact Hs | apply Had]. }
  destruct HI as (_ & Ha & Hp & Hi).
  split; [|split; [|split; [|split]]].
  - intros tid item Hin. destruct (Ha _ _ Hin) as (_ & Hs & Had).
    split; [exact Hs | apply Had].
  - intros batch p Hin Hp'. eauto.
  - intros p Hin. eauto.
  - intros item rest -> Hlt. rewrite restoreTableFromPuller_item.
    apply Z.ltb_lt in Hlt. now rewrite Hlt.
  - intros item rest -> Hge Hgt.
    assert (E : restoreTableFromPuller tableID (PullItem item :: rest) l
                = applyKVChanges tableID l).
    { rewrite restoreTableFromPuller_item.
      apply Z.ltb_ge in Hge. apply Z.ltb_lt in Hgt. now rewrite Hge, Hgt. }
    rewrite E. split; [reflexivity|].
    destruct (applyKVChanges_run tableID l) as [Hev Hok].
    split; [exact Hev|]. intros Ho. destruct (Hok Ho) as (? & ? & _). auto.
Qed.


(** C3. With a drop fence [fence] recorded for the schema of an event, an
    event of that schema with a commit timestamp below [fence] never
    reaches the DDL/row dispatch: the loop drops it (below the window),
    stops on it (above the window) or flushes and goes on with the rest
    (the fence). In any stream, in any order, no such event is appended,
    and every ingested pair was pending at the start or encodes a row that
    no fence hides. *)
Theorem drop_fence_filters_before_dispatch (tableID : Z) (l : LogClient)
    (item : SortItem) (rest : list PullResult) (fence : Z) :
  dropTSMap l !! Schema item = Some fence ->
  TS item < fence ->
  let r := restoreTableFromPuller tableID (PullItem item :: rest) l in
  (r = restoreTableFromPuller tableID rest l
   \/ r = applyKVChanges tableID l
   \/ r = (applyKVChanges tableID ;; restoreTableFromPuller tableID rest) l)
  /\ forall puller : list PullResult,
       let r' := restoreTableFromPuller tableID puller l in
       let hidden (it : SortItem) :=
         Schema it = Schema item /\ TS it < fence in
       (forall tid it, In (EvAppend tid it) (traceOf r') -> ~ hidden it)
       /\ (forall batch p, In (EvIngest batch) (traceOf r') -> In p batch ->
           In p (pending l tableID)
           \/ exists it ti pairs,
                In (PullItem it) puller /\ ~ hidden it
                /\ encodeRow ti it = inl pairs /\ In p pairs).
Proof.
  intros Hfence Hlt. cbv zeta. split.
  - rewrite restoreTableFromPuller_item.
    destruct (TS item <? startTS l); [now left|].
    destruct (endTS l <? TS item); [right; now left|].
    unfold shouldFilter. rewrite Hfence.
    apply Z.ltb_lt in Hlt. rewrite Hlt. right. now right.
  - intros puller.
    pose proof (restoreTableFromPuller_invariant tableID puller l) as HI.
    assert (Hvis : forall it, admitted l it ->
                              ~ (Schema it = Schema item /\ TS it < fence)).
    { intros it [_ Had] [Hs Hts]. rewrite <- Hs in Hfence.
      specialize (Had _ Hfence). lia. }
    split.
    + intros tid it Hin. destruct HI as (_ & Ha & _).
      destruct (Ha _ _ Hin) as (_ & _ & Had). auto.
    + intros batch p Hin Hp. pose proof HI as (_ & _ & _ & Hi).
      destruct (derivedFrom_stream _ _ _ _ _ _ HI (Hi _ _ Hin Hp))
        as [Hp'|(it & ti & pairs & Hs & Had & Hrest)]; [now left|].
      right. exists it, ti, pairs. auto.
Qed.

(** A statement is recorded, moves the cluster on, and fails when the
    executor does. *)
Lemma Execute_run (sql : string) l :
  Execute sql l =
  (match snd (seExecute sql (restoreClient l)) with
   | None => Ok tt
   | Some e => Halt (Failed (ErrExternal e))
   end,
   setWorld (fst (seExecute sql (restoreClient l))) l,
   [EvExecute sql]).
Proof.
  unfold Execute, bind, emit, get, modify, fail, halt.
  destruct (seExecute sql (restoreClient l)) as [w [e|]]; reflexivity.
Qed.

Lemma Lock_run l :
  Lock l = if ddlLock l then (Halt Blocked, l, [])
           else (Ok tt, setLock true l, [EvLock]).
Proof. unfold Lock. rewrite bind_get. now destruct (ddlLock l). Qed.

Lemma Unlock_run l :
  Unlock l = if ddlLock l then (Ok tt, setLock false l, [EvUnlock])
             else (Halt Panicked, l, []).
Proof. unfold Unlock. rewrite bind_get. now destruct (ddlLock l). Qed.



(** C7. The pending pairs of the table's buffer are flushed by
    [applyKVChanges] before (a) a table-level DDL of the table is executed,
    (b) the loop ends on the nil item, (c) the loop stops on an event above
    [endTS]. The flush emits ingestions only; when it returns, every
    pending key was handed to the ingester and the buffer is empty; when it
    stops, so does the loop, and the DDL is not executed. *)
Theorem flush_precedes_boundaries (tableID : Z) (l : LogClient) :
  let flush := applyKVChanges tableID l in
  (forall e, In e (traceOf flush) -> exists batch, e = EvIngest batch)
  /\ (outcomeOf flush = Ok tt ->
      traceOf flush = flushEvents (pending l tableID)
      /\ pending (stateOf flush) tableID = []
      /\ forall p, In p (pending l tableID) ->
           exists batch q, In (EvIngest batch) (traceOf flush)
                           /\ In q batch /\ Key q = Key p)
  /\ (forall item ddl rest,
        Data item = DataDDL ddl -> isDBRelatedDDL ddl = false ->
        tsInRange l (TS item) = true -> shouldFilter l item = false ->
        ParseQuoteName (default "" (Names (meta l) !! tableID))
        = (Schema item, Table item) ->
        let r := restoreTableFromPuller tableID (PullItem item :: rest) l in
        exists after,
          traceOf r = traceOf flush ++ after
          /\ (outcomeOf flush <> Ok tt -> r = flush /\ after = [])
          /\ (outcomeOf flush = Ok tt -> ddlLock l = false ->
              exists more,
                after = EvLock :: EvExecute ("use " +:+ Schema item) :: more))
  /\ restoreTableFromPuller tableID [] l = flush
  /\ (forall item rest,
        startTS l <= TS item -> endTS l < TS item ->
        restoreTableFromPuller tableID (PullItem item :: rest) l = flush).
Proof.
  cbv zeta. destruct (applyKVChanges_run tableID l) as [Hev Hok].
  split; [exact Hev|]. split; [|split; [|split; [reflexivity|]]].
  - intros Ho. destruct (Hok Ho) as (Ht & Hp & _).
    split; [exact Ht|]. split; [exact Hp|].
    intros p Hin. rewrite Ht. now apply flushEvents_covers.
  - intros item ddl rest Hd Hdb Hin Hf Hname.
    rewrite restoreTableFromPuller_item.
    unfold tsInRange in Hin. apply andb_true_iff in Hin as [Hlo Hhi].
    apply Z.leb_le in Hlo, Hhi.
    assert (E1 : (TS item <? startTS l) = false) by (apply Z.ltb_ge; lia).
    assert (E2 : (endTS l <? TS item) = false) by (apply Z.ltb_ge; lia).
    rewrite E1, E2, Hf, Hd, Hname, Hdb, !String.eqb_refl. simpl.
    unfold executeTableDDL. rewrite bind_run.
    destruct (outcomeOf (applyKVChanges tableID l)) as [[]|s] eqn:Eo.
    + eexists. split; [reflexivity|]. split; [congruence|].
      intros _ Hfree. destruct (Hok eq_refl) as (_ & _ & Hl).
      rewrite bind_run, Lock_run, Hl, Hfree.
      cbn [outcomeOf stateOf traceOf fst snd].
      rewrite bind_run, Execute_run.
      destruct (snd (seExecute _ _)); simpl; eauto.
    + exists []. rewrite app_nil_r. split; [reflexivity|].
      split; [|discriminate]. intros _. split; [|reflexivity].
      unfold outcomeOf, stateOf, traceOf in *.
      destruct (applyKVChanges tableID l) as [[o l'] t]. simpl in *. now subst.
  - intros item rest Hge Hgt. rewrite restoreTableFromPuller_item.
    apply Z.ltb_ge in Hge. apply Z.ltb_lt in Hgt. now rewrite Hge, Hgt.
Qed.

End Replay.

(** ** The replay loop on the backup of [scenario] *)

Section ReplayScenario.
Import kv cdclog restore scenario.
#[local] Existing Instance demo.

Example replay_of_window_rows :
  traceOf (restoreTableFromPuller 45
             [PullItem (rowAt 90 [x61]); PullItem (rowAt 150 [x62]);
              PullItem (rowAt 250 [x63]); PullItem (rowAt 160 [x64])]
             demoClient)
  = [EvAppend 45 (rowAt 150 [x62]);
     EvIngest [{| Key := [x62]; Val := [x76] |}]].
Proof. vm_compute. reflexivity. Qed.

Example replay_flushes_before_table_ddl :
  traceOf (restoreTableFromPuller 45
             [PullItem (rowAt 150 [x62]); PullItem rename170] demoClient)
  = [EvAppend 45 (rowAt 150 [x62]);
     EvIngest [{| Key := [x62]; Val := [x76] |}];
     EvLock; EvExecute "use test"; EvExecute "ALTER TABLE t1 COMMENT 'x'";
     EvUnlock].
Proof. vm_compute. reflexivity. Qed.

(** The fence of [fencedClient] hides the row committed at 120 from every
    stream of table 45. *)
Lemma drop_fence_witness :
  dropTSMap fencedClient !! Schema (rowAt 120 [x61]) = Some 150
  /\ TS (rowAt 120 [x61]) < 150
  /\ traceOf (restoreTableFromPuller 45 fencedStream fencedClient)
     = [EvAppend 45 (rowAt 160 [x62]);
        EvIngest [{| Key := [x62]; Val := [x76] |}]]
  /\ forall tid it,
       In (EvAppend tid it)
          (traceOf (restoreTableFromPuller 45 fencedStream fencedClient)) ->
       ~ (Schema it = Schema (rowAt 120 [x61]) /\ TS it < 150).
Proof.
  split; [reflexivity|]. split; [reflexivity|]. split; [vm_compute; reflexivity|].
  exact (proj1 (proj2 (drop_fence_filters_before_dispatch 45 fencedClient
                         (rowAt 120 [x61]) [] 150 eq_refl eq_refl)
                      fencedStream)).
Defined.


(** C8 fails on the code: a table-level DDL whose statement the executor
    rejects makes the loop return the error after [Lock] and before
    [Unlock]; the client is left with the DDL lock held. *)
Lemma ddl_error_leaves_lock_held :
  let r := restoreTableFromPuller 45 [PullItem alter160] demoClient in
  ddlLock demoClient = false
  /\ outcomeOf r = Halt (Failed (ErrExternal "ddl failed"))
  /\ traceOf r = [EvLock; EvExecute "use test";
                  EvExecute "ALTER TABLE t1 ADD COLUMN c INT"]
  /\ ddlLock (stateOf r) = true.
Proof. vm_compute. repeat split; reflexivity. Qed.

(** A worker that needs the lock after that waits for ever. *)
Example worker_blocks_on_leaked_lock :
  let leaked := stateOf (restoreTableFromPuller 45 [PullItem alter160] demoClient) in
  outcomeOf (restoreTableFromPuller 45 [PullItem rename170] leaked)
  = Halt Blocked.
Proof. vm_compute. reflexivity. Qed.

End ReplayScenario.

(** ** The DDL lock on the error paths *)

Section DDLLock.
Import kv cdclog restore.
Context `{Collaborators}.

(** When the schema switch or the DDL statement fails, the table-level DDL
    step returns the error with the lock held: no [Unlock] is reached. *)
Lemma executeTableDDL_error_keeps_lock (tableID : Z) (item : SortItem)
    (ddl : MessageDDL) (continue : M unit) l :
  let flush := applyKVChanges tableID l in
  let r := executeTableDDL tableID item ddl continue l in
  let use := seExecute ("use " +:+ Schema item) (restoreClient (stateOf flush)) in
  let exec := seExecute (Query ddl) (fst use) in
  ddlLock l = false -> outcomeOf flush = Ok tt ->
  snd use <> None \/ snd exec <> None ->
  ddlLock (stateOf r) = true
  /\ ~ In EvUnlock (traceOf r)
  /\ exists e, outcomeOf r = Halt (Failed (ErrExternal e)).
Proof.
  cbv zeta. intros Hfree Hok Herr.
  destruct (applyKVChanges_run tableID l) as [Hev Hflush].
  destruct (Hflush Hok) as (_ & _ & Hl).
  assert (Hnot : ~ In EvUnlock (traceOf (applyKVChanges tableID l))).
  { intros Hin. destruct (Hev _ Hin) as [batch Hb]. discriminate Hb. }
  unfold executeTableDDL. rewrite bind_run, Hok.
  rewrite bind_run, Lock_run, Hl, Hfree.
  cbn [outcomeOf stateOf traceOf fst snd].
  rewrite bind_run, Execute_run.
  cbn [outcomeOf stateOf traceOf fst snd restoreClient setLock].
  destruct (snd (seExecute ("use " +:+ Schema item) _)) as [e1|] eqn:E1.
  { cbn. split; [reflexivity|]. split; [|eauto].
    intros Hin. apply in_app_or in Hin as [Hin|Hin]; [auto|].
    simpl in Hin. intuition discriminate. }
  rewrite bind_run, Execute_run.
  cbn [outcomeOf stateOf traceOf fst snd restoreClient setWorld].
  destruct (snd (seExecute (Query ddl) _)) as [e2|] eqn:E2.
  { cbn. split; [reflexivity|]. split; [|eauto].
    intros Hin. apply in_app_or in Hin as [Hin|Hin]; [auto|].
    simpl in Hin. intuition discriminate. }
  exfalso. destruct Herr as [Hu|He]; [now apply Hu|now apply He].
Qed.

End DDLLock.

(** ** [RestoreLogData]: the window check and the database-level DDL *)

Section Orchestrator.
Import Go kv cdclog restore.
Context `{Collaborators}.

Lemma setEndTS_same l : setEndTS (endTS l) l = l.
Proof. now destruct l. Qed.

(** C2. Once the metadata is loaded, [RestoreLogData] fails with the
    invalid-window error, having changed nothing but [l.meta] and done
    nothing, when [startTS] is above the loaded [GlobalResolvedTS]; and
    when [startTS] is not above it the check passes: [endTS] becomes the
    smaller of [endTS] and [GlobalResolvedTS] and the restore goes on with
    the collection of the DDL files. *)
Theorem RestoreLogData_window_check (l : LogClient) (data : list byte)
    (m : LogMeta) :
  ReadFile metaFile = inl data ->
  jsonUnmarshal data (meta l) = inl m ->
  (GlobalResolvedTS m < startTS l ->
   RestoreLogData l = (Halt (Failed ErrRestoreRTsConstrain), setMeta m l, []))
  /\ (startTS l <= GlobalResolvedTS m ->
      RestoreLogData l = restoreAfterWindowCheck (afterWindowCheck l)
      /\ endTS (afterWindowCheck l) = Z.min (endTS l) (GlobalResolvedTS m)
      /\ endTS (afterWindowCheck l) <= GlobalResolvedTS m
      /\ startTS (afterWindowCheck l) = startTS l).
Proof.
  intros Hread Hjson. unfold RestoreLogData, afterWindowCheck.
  rewrite bind_get, Hread, Hjson. split.
  - intros Hlt. apply Z.ltb_lt in Hlt. rewrite bind_run. simpl. now rewrite Hlt.
  - intros Hle. apply Z.ltb_ge in Hle. rewrite bind_run. simpl. rewrite Hle.
    split; [|split; [reflexivity|split; [lia|reflexivity]]].
    rewrite bind_run.
    destruct (GlobalResolvedTS m <? endTS l) eqn:E.
    + apply Z.ltb_lt in E. rewrite Z.min_r by lia. simpl.
      destruct (restoreAfterWindowCheck _) as [[o l'] t]. reflexivity.
    + apply Z.ltb_ge in E. rewrite Z.min_l by lia. simpl.
      change (endTS l) with (endTS (setMeta m l)). rewrite setEndTS_same.
      destruct (restoreAfterWindowCheck _) as [[o l'] t]. reflexivity.
Qed.

End Orchestrator.

Section OrchestratorScenario.
Import kv cdclog restore scenario.
#[local] Existing Instance demo.

(** A window that starts at 400, above the resolved timestamp 300 of the
    backup, is refused; the window [100, 500] is cut to [100, 300]. *)
Lemma RestoreLogData_window_witness :
  ReadFile metaFile = inl [x01]
  /\ jsonUnmarshal [x01] (meta demoClient) = inl demoMeta
  /\ RestoreLogData (ResetTSRange 400 500 demoClient)
     = (Halt (Failed ErrRestoreRTsConstrain),
        setMeta demoMeta (ResetTSRange 400 500 demoClient), [])
  /\ endTS (afterWindowCheck (ResetTSRange 100 500 demoClient)) = 300.
Proof.
  split; [reflexivity|]. split; [reflexivity|]. split.
  - exact (proj1 (RestoreLogData_window_check (ResetTSRange 400 500 demoClient)
                    [x01] demoMeta eq_refl eq_refl) eq_refl).
  - reflexivity.
Defined.

End OrchestratorScenario.

(** ** The database-level DDL job *)

Section DBDDL.
Import Go kv cdclog restore.
Context `{Collaborators}.

Lemma Execute_spec (sql : string) l t0 :
  wpa (Execute sql) l t0
    (fun _ l' t' => t' = t0 ++ [EvExecute sql] /\ onlyWorld l l').
Proof.
  unfold wpa. rewrite Execute_run. simpl. split; [reflexivity|].
  apply onlyWorld_setWorld, onlyWorld_refl.
Qed.

Lemma dbDDLInWindow_window l l' (item : SortItem) :
  startTS l' = startTS l -> endTS l' = endTS l ->
  dbDDLInWindow l' item = dbDDLInWindow l item.
Proof. unfold dbDDLInWindow, tsInRange. now intros -> ->. Qed.

Lemma dbQueriesOf_window l l' items :
  startTS l' = startTS l -> endTS l' = endTS l ->
  dbQueriesOf l' items = dbQueriesOf l items.
Proof.
  intros Hs He. unfold dbQueriesOf. f_equal. apply filter_ext.
  intros item. now apply dbDDLInWindow_window.
Qed.

Lemma dbQueriesOf_app l items1 items2 :
  dbQueriesOf l (items1 ++ items2) = dbQueriesOf l items1 ++ dbQueriesOf l items2.
Proof. unfold dbQueriesOf. now rewrite List.filter_app, fmap_app. Qed.

Lemma executedOf_stop queries l t0 s : executedOf queries l t0 (Halt s) l t0.
Proof.
  split; [reflexivity|]. split; [reflexivity|]. exists [], queries.
  split; [reflexivity|]. simpl. now rewrite app_nil_r.
Qed.

Lemma executedOf_none l t0 : executedOf [] l t0 (Ok tt) l t0.
Proof.
  split; [reflexivity|]. split; [reflexivity|]. simpl. now rewrite app_nil_r.
Qed.

Lemma doDBDDLEvents_spec (events : list (SortItem + ExtErr)) l t0 :
  wpa (doDBDDLEvents events) l t0
    (executedOf (dbQueriesOf l (okItems events)) l t0).
Proof.
  revert l t0. induction events as [|[item|e] events IH]; intros l t0.
  - apply wpa_ret. apply executedOf_none.
  - cbn [doDBDDLEvents]. unfold okItems. cbn [omap list_omap]. fold (okItems events).
    unfold dbQueriesOf. cbn [List.filter]. unfold dbDDLInWindow at 1.
    destruct (Data item) as [ddl|row] eqn:Ed.
    2:{ apply wpa_halt. apply executedOf_stop. }
    apply wpa_bind, wpa_get.
    destruct (isDBRelatedDDL ddl && tsInRange l (TS item)) eqn:Ein.
    + cbn [fmap list_fmap]. fold (dbQueriesOf l (okItems events)).
      assert (Eq : queryOf item = Query ddl) by (unfold queryOf; now rewrite Ed).
      rewrite Eq. apply wpa_bind, wpa_bind.
      eapply wpa_mono; [apply Execute_spec|].
      intros [[]|s] l1 t1 [-> Hw].
      2:{ unfold onlyWorld in Hw. rewrite Hw.
          split; [reflexivity|]. split; [reflexivity|].
          exists [Query ddl], (dbQueriesOf l (okItems events)).
          split; reflexivity. }
      assert (Hstep : forall l2, startTS l2 = startTS l -> endTS l2 = endTS l ->
        wpa (doDBDDLEvents events) l2 (t0 ++ [EvExecute (Query ddl)])
          (executedOf (Query ddl :: dbQueriesOf l (okItems events)) l t0)).
      { intros l2 Hs He. eapply wpa_mono; [apply IH|].
        intros o l3 t3 (Hs3 & He3 & Ht).
        rewrite (dbQueriesOf_window l l2) in Ht by assumption.
        split; [congruence|]. split; [congruence|].
        destruct o as [[]|s].
        - rewrite Ht, <- app_assoc. reflexivity.
        - destruct Ht as (done & rest & Hq & Ht).
          exists (Query ddl :: done), rest. rewrite Hq, Ht, <- app_assoc.
          split; reflexivity. }
      unfold onlyWorld in Hw.
      destruct (isDropSchema ddl).
      * apply wpa_modify. apply Hstep; rewrite Hw; reflexivity.
      * apply wpa_ret. apply Hstep; rewrite Hw; reflexivity.
    + apply wpa_bind, wpa_ret. apply IH.
  - apply wpa_fail. apply executedOf_stop.
Qed.

Lemma doDBDDLFiles_spec (ddls : list string) l t0 :
  wpa (doDBDDLFiles ddls) l t0 (executedOf (dbDDLQueries l ddls) l t0).
Proof.
  revert l t0. induction ddls as [|path ddls IH]; intros l t0.
  - apply wpa_ret. apply executedOf_none.
  - cbn [doDBDDLFiles]. unfold dbDDLQueries. cbn [fmap list_fmap concat].
    fold (dbQueriesOf l (fileEvents path ++ concat (fileEvents <$> ddls))).
    rewrite dbQueriesOf_app. unfold fileEvents at 1.
    destruct (ReadFile path) as [data|e].
    2:{ apply wpa_fail. apply executedOf_stop. }
    destruct (NewJSONEventBatchDecoder data) as [events|e].
    2:{ apply wpa_fail. apply executedOf_stop. }
    apply wpa_bind. eapply wpa_mono; [apply doDBDDLEvents_spec|].
    intros [[]|s] l1 t1 (Hs & He & Ht).
    + eapply wpa_mono; [apply IH|]. intros o l2 t2 (Hs2 & He2 & Ht2).
      unfold dbDDLQueries in Ht2.
      fold (dbQueriesOf l1 (concat (fileEvents <$> ddls))) in Ht2.
      rewrite (dbQueriesOf_window l l1) in Ht2 by assumption.
      split; [congruence|]. split; [congruence|]. subst t1.
      destruct o as [[]|s].
      * rewrite Ht2, fmap_app, app_assoc. reflexivity.
      * destruct Ht2 as (done & rest & Hq & Ht2).
        exists (dbQueriesOf l (okItems events) ++ done), rest.
        rewrite Hq, Ht2, fmap_app, !app_assoc. split; reflexivity.
    + split; [exact Hs|]. split; [exact He|].
      destruct Ht as (done & rest & Hq & Ht).
      exists done, (rest ++ dbQueriesOf l (concat (fileEvents <$> ddls))).
      rewrite Hq, <- app_assoc. split; [reflexivity|exact Ht].
Qed.

Lemma doDBDDLJob_spec (ddls : list string) l t0 :
  wpa (doDBDDLJob ddls) l t0 (executedOf (dbDDLQueries l ddls) l t0).
Proof.
  unfold doDBDDLJob. destruct ddls as [|path ddls]; [|apply doDBDDLFiles_spec].
  apply wpa_ret. apply executedOf_none.
Qed.

End DBDDL.

(** ** The order of the collected DDL files *)

Section FileOrder.
Import Go restore.

Lemma insertBefore_In {A} (less : A -> A -> bool) (x y : A) (l : list A) :
  In y (insertBefore less x l) <-> y = x \/ In y l.
Proof.
  induction l as [|z l IH]; simpl; [intuition|].
  destruct (less z x); simpl; rewrite ?IH; intuition.
Qed.

Lemma SliceStable_In {A} (less : A -> A -> bool) (y : A) (l : list A) :
  In y (SliceStable less l) <-> In y l.
Proof.
  induction l as [|x l IH]; simpl; [reflexivity|].
  rewrite insertBefore_In, IH. intuition.
Qed.

Lemma ascii_compare_refl (c : ascii) : Ascii.compare c c = Eq.
Proof. unfold Ascii.compare. apply N.compare_refl. Qed.

Lemma string_compare_refl (s : string) : String.compare s s = Eq.
Proof. induction s as [|c s IH]; simpl; [reflexivity|]. now rewrite ascii_compare_refl. Qed.

Lemma string_compare_lt_trans (a b c : string) :
  String.compare a b = Lt -> String.compare b c = Lt -> String.compare a c = Lt.
Proof.
  revert b c. induction a as [|x a IH]; intros [|y b] [|z c]; simpl;
    try discriminate; try reflexivity.
  unfold Ascii.compare.
  destruct (N.compare_spec (N_of_ascii x) (N_of_ascii y)) as [Exy|Lxy|Gxy];
    try discriminate;
    destruct (N.compare_spec (N_of_ascii y) (N_of_ascii z)) as [Eyz|Lyz|Gyz];
    try discriminate; intros H1 H2.
  - rewrite Exy, Eyz, N.compare_refl. eapply IH; eassumption.
  - rewrite Exy. now apply N.compare_lt_iff in Lyz as ->.
  - rewrite <- Eyz. now apply N.compare_lt_iff in Lxy as ->.
  - assert (L : (N_of_ascii x < N_of_ascii z)%N) by lia.
    now apply N.compare_lt_iff in L as ->.
Qed.

(** [a] does not come before [b]: [b <= a]. *)
Lemma ltb_false_iff (a b : string) :
  String.ltb a b = false <-> (String.compare b a = Lt \/ a = b).
Proof.
  unfold String.ltb. rewrite String.compare_antisym.
  destruct (String.compare b a) eqn:E; simpl.
  - apply String.compare_eq_iff in E. subst. intuition.
  - intuition.
  - split; [discriminate|]. intros [Hd| ->]; [discriminate|].
    rewrite string_compare_refl in E. discriminate.
Qed.

Lemma ltb_false_trans (a b c : string) :
  String.ltb a b = false -> String.ltb b c = false -> String.ltb a c = false.
Proof.
  rewrite !ltb_false_iff. intros [H1| ->] [H2| ->]; auto.
  left. eapply string_compare_lt_trans; eassumption.
Qed.

Lemma ltb_true_false (a b : string) :
  String.ltb a b = true -> String.ltb b a = false.
Proof.
  unfold String.ltb. rewrite (String.compare_antisym a b).
  destruct (String.compare b a); simpl; congruence.
Qed.

(** [sort.Sort(sort.Reverse(...))] leaves no path before a larger one. *)
Lemma SortReverseStrings_sorted (l : list string) :
  StronglySorted (fun a b => String.ltb a b = false) (SortReverseStrings l).
Proof.
  unfold SortReverseStrings. induction l as [|x l IH]; simpl; [constructor|].
  revert IH. generalize (SliceStable (fun a b => String.ltb b a) l). clear l.
  intros l. induction 1 as [|y l Hs IH Hall]; simpl.
  - repeat constructor.
  - destruct (String.ltb x y) eqn:E.
    + constructor; [exact IH|]. apply List.Forall_forall. intros z Hz.
      apply insertBefore_In in Hz as [-> | Hz].
      * now apply ltb_true_false.
      * rewrite List.Forall_forall in Hall. auto.
    + constructor; [constructor; assumption|]. constructor; [exact E|].
      eapply List.Forall_impl; [|exact Hall]. intros z Hz.
      eapply ltb_false_trans; eassumption.
Qed.

Lemma string_compare_prefix (p a b : string) :
  String.compare (p +:+ a) (p +:+ b) = String.compare a b.
Proof.
  induction p as [|c p IH]; simpl; [reflexivity|].
  now rewrite ascii_compare_refl.
Qed.

Lemma digitVal_range (c : ascii) (d : Z) :
  digitVal c = Some d -> 0 <= d <= 9 /\ Z.of_N (N_of_ascii c) = d + 48.
Proof.
  unfold digitVal. destruct (_ && _) eqn:E; [|discriminate].
  intros [= <-]. apply andb_true_iff in E as [E1 E2].
  apply Z.leb_le in E1, E2. lia.
Qed.

(** The value of a digit string read after the prefix value [acc]. *)
Lemma parseDigits_acc (s : string) (acc v : Z) :
  parseDigits s acc = Some v ->
  exists w, parseDigits s 0 = Some w
            /\ v = acc * 10 ^ Z.of_nat (String.length s) + w
            /\ 0 <= w < 10 ^ Z.of_nat (String.length s).
Proof.
  revert acc v. induction s as [|c s IH]; intros acc v; simpl.
  - intros [= <-]. exists 0. split; [reflexivity|]. lia.
  - destruct (digitVal c) as [d|] eqn:Ed; [|discriminate].
    destruct (digitVal_range c d Ed) as [Hd _].
    intros Hv. destruct (IH _ _ Hv) as (w & Hw & -> & Hr).
    destruct (parseDigits s (0 * 10 + d)) as [v0|] eqn:E0.
    2:{ exfalso. clear - Hw E0 IH.
        assert (Hx : forall a, parseDigits s a <> None).
        { clear - Hw. revert Hw. generalize 0 at 1. generalize w.
          induction s as [|c s IH]; intros w0 a0 Hw a; simpl in *; [discriminate|].
          destruct (digitVal c); [|discriminate]. eapply IH; eassumption. }
        now apply (Hx (0 * 10 + d)). }
    destruct (IH _ _ E0) as (w' & Hw' & -> & Hr').
    assert (w' = w) by congruence. subst w'.
    exists ((0 * 10 + d) * 10 ^ Z.of_nat (String.length s) + w).
    split; [reflexivity|].
    rewrite Nat2Z.inj_succ, Z.pow_succ_r by lia. split; [ring|]. nia.
Qed.

(** Digit strings of one length compare as their values. *)
Lemma digits_compare (s1 s2 : string) (w1 w2 : Z) :
  String.length s1 = String.length s2 ->
  parseDigits s1 0 = Some w1 -> parseDigits s2 0 = Some w2 ->
  String.compare s1 s2 = (w1 ?= w2).
Proof.
  revert s2 w1 w2. induction s1 as [|c1 s1 IH]; intros [|c2 s2] w1 w2; simpl;
    try discriminate.
  - intros _ [= <-] [= <-]. reflexivity.
  - intros [= Hlen].
    destruct (digitVal c1) as [d1|] eqn:E1; [|discriminate].
    destruct (digitVal c2) as [d2|] eqn:E2; [|discriminate].
    destruct (digitVal_range _ _ E1) as [Hd1 Hc1].
    destruct (digitVal_range _ _ E2) as [Hd2 Hc2].
    intros H1 H2.
    destruct (parseDigits_acc _ _ _ H1) as (r1 & Hr1 & -> & Hb1).
    destruct (parseDigits_acc _ _ _ H2) as (r2 & Hr2 & -> & Hb2).
    rewrite <- Hlen in *. set (n := 10 ^ Z.of_nat (String.length s1)) in *.
    unfold Ascii.compare. rewrite <- N2Z.inj_compare. rewrite Hc1, Hc2.
    destruct (Z.compare_spec (d1 + 48) (d2 + 48)) as [E|L|G].
    + assert (d1 = d2) by lia. subst d2. rewrite (IH s2 r1 r2 Hlen Hr1 Hr2).
      destruct (Z.compare_spec r1 r2); symmetry;
        [apply Z.compare_eq_iff|apply Z.compare_lt_iff|apply Z.compare_gt_iff]; lia.
    + symmetry. apply Z.compare_lt_iff. nia.
    + symmetry. apply Z.compare_gt_iff. nia.
Qed.

Lemma ParseUint_digits (s : string) (v : Z) :
  ParseUint s = inl v -> parseDigits s 0 = Some v.
Proof.
  unfold ParseUint. destruct s as [|c s]; [discriminate|].
  destruct (parseDigits (String c s) 0) as [w|]; [|discriminate].
  destruct (w <=? _); [|discriminate]. now intros [= <-].
Qed.

(** Two paths of the sorted list whose names are a common prefix followed
    by timestamps of one width: the earlier path has the older commit
    timestamp. *)
Lemma sorted_paths_oldest_first (files : list string) (prefix ea eb : string)
    (na nb : Z) (before after : list string) :
  StronglySorted (fun a b => String.ltb a b = false) files ->
  files = before ++ (prefix +:+ ea) :: after ->
  In (prefix +:+ eb) after ->
  String.length ea = String.length eb ->
  ParseUint ea = inl na -> ParseUint eb = inl nb ->
  maxUint64 - na <= maxUint64 - nb.
Proof.
  intros Hs -> Hin Hlen Ha Hb.
  assert (Hs' : StronglySorted (fun a b => String.ltb a b = false)
                  ((prefix +:+ ea) :: after)).
  { clear - Hs. induction before as [|x before IH]; simpl in Hs; [exact Hs|].
    inversion Hs; auto. }
  inversion Hs' as [|? ? _ Hall]; subst. rewrite List.Forall_forall in Hall.
  specialize (Hall _ Hin). unfold String.ltb in Hall.
  rewrite string_compare_prefix in Hall.
  rewrite (digits_compare ea eb na nb Hlen (ParseUint_digits _ _ Ha)
             (ParseUint_digits _ _ Hb)) in Hall.
  destruct (Z.compare_spec na nb); try discriminate; lia.
Qed.

End FileOrder.

(** ** Database-level DDL comes before the workers *)

Section BeforeWorkers.
Import Go kv cdclog restore.
Context `{Collaborators}.

(** The walk keeps the visited paths that [NeedRestoreDDL] accepts. *)
Lemma walkDDLFiles_In l (paths acc files : list string) (path : string) :
  walkDDLFiles l paths acc = inl files -> In path files ->
  In path acc
  \/ (In path paths /\ NeedRestoreDDL l (Base path) = (true, None)).
Proof.
  revert acc. induction paths as [|p paths IH]; intros acc; simpl.
  - intros [= <-]. now left.
  - destruct (NeedRestoreDDL l (Base p)) as [should [err|]] eqn:E; [discriminate|].
    intros Hw Hin. destruct (IH _ Hw Hin) as [Hacc|[Hp Hn]]; [|right; auto].
    destruct should; [|now left].
    apply in_app_or in Hacc as [Hacc|[<-|[]]]; [now left|right; auto].
Qed.

Lemma collectedDDLFiles_In l (path : string) :
  In path (collectedDDLFiles l) ->
  In path (fst (WalkDir ddlEventsDir))
  /\ NeedRestoreDDL l (Base path) = (true, None).
Proof.
  unfold collectedDDLFiles.
  destruct (walkDDLFiles l _ []) as [files|e] eqn:E; [|intros []].
  intros Hin. apply SliceStable_In in Hin.
  destruct (walkDDLFiles_In _ _ _ _ _ E Hin) as [[]|Hp]. exact Hp.
Qed.

Lemma collectDDLFiles_run l :
  stateOf (collectDDLFiles l) = l
  /\ traceOf (collectDDLFiles l) = []
  /\ forall files, outcomeOf (collectDDLFiles l) = Ok files ->
       files = collectedDDLFiles l.
Proof.
  unfold collectDDLFiles, collectedDDLFiles. rewrite bind_get.
  destruct (WalkDir ddlEventsDir) as [paths walkErr]. simpl.
  destruct (walkDDLFiles l paths []) as [files|e]; [|repeat split; discriminate].
  destruct walkErr; repeat split; try discriminate. now intros ? [= <-].
Qed.

Lemma collectRowChangeFiles_run l :
  stateOf (collectRowChangeFiles l) = l /\ traceOf (collectRowChangeFiles l) = [].
Proof.
  unfold collectRowChangeFiles. rewrite bind_get.
  destruct (collectTableDirs _ _ _); split; reflexivity.
Qed.

(** Creating the pullers and buffers emits nothing and keeps the window. *)
Lemma createPullers_spec (ddlFiles : list string)
    (tables : list (Z * list string)) l t0 :
  wpa (createPullers ddlFiles tables) l t0
    (fun _ l' t' => t' = t0 /\ startTS l' = startTS l /\ endTS l' = endTS l).
Proof.
  revert l t0. induction tables as [|[tableID files] tables IH]; intros l t0.
  - now apply wpa_ret.
  - cbn [createPullers]. apply wpa_bind, wpa_get.
    destruct (ParseQuoteName _) as [schema table].
    destruct (NewEventPuller schema table ddlFiles files) as [puller|e];
      [|now apply wpa_fail].
    apply wpa_bind, wpa_modify. apply wpa_bind.
    assert (Hnext : forall ti,
      wpa (modify (setBuffer tableID
                     (NewTableBuffer ti (BatchFlushKVPairs l) (BatchFlushKVSize l))) ;;
           createPullers ddlFiles tables)
        (setPuller tableID puller l) t0
        (fun _ l' t' => t' = t0 /\ startTS l' = startTS l /\ endTS l' = endTS l)).
    { intros ti. apply wpa_bind, wpa_modify. eapply wpa_mono; [apply IH|].
      intros o l' t' (-> & Hs & He). simpl in Hs, He. auto. }
    destruct (TableExists _ _ _); [|apply wpa_ret, Hnext].
    destruct (TableByName _ _ _) as [tbl|e]; [|now apply wpa_fail].
    destruct (SchemaByName _ _); [apply wpa_ret, Hnext | now apply wpa_fail].
Qed.

(** The workers start with a worker. *)
Lemma runWorkers_trace (workers : list (Z * list PullResult)) l :
  traceOf (runWorkers workers l) = []
  \/ exists tableID rest, traceOf (runWorkers workers l) = EvWorker tableID :: rest.
Proof.
  destruct workers as [|[tableID puller] workers]; [now left|].
  right. cbn [runWorkers]. rewrite bind_run. simpl. eauto.
Qed.

Lemma restoreTables_trace l :
  traceOf (restoreTables l) = []
  \/ exists tableID rest, traceOf (restoreTables l) = EvWorker tableID :: rest.
Proof. unfold restoreTables. rewrite bind_get. apply runWorkers_trace. Qed.

Lemma noWorker_executes (queries : list string) : noWorker (EvExecute <$> queries).
Proof.
  intros tableID Hin. induction queries as [|q queries IH]; simpl in Hin;
    [easy|]. destruct Hin as [Hin|Hin]; [discriminate|auto].
Qed.

(** The events before the first worker are those of the part of the run
    that starts no worker. *)
Lemma first_worker_split (xs ys before after : list Event) (tableID : Z) :
  xs ++ ys = before ++ EvWorker tableID :: after ->
  noWorker xs -> noWorker before ->
  (ys = [] \/ exists t rest, ys = EvWorker t :: rest) ->
  before = xs.
Proof.
  revert before. induction xs as [|x xs IH]; intros before Heq Hxs Hb Hys.
  - simpl in Heq. destruct before as [|b before]; [reflexivity|].
    exfalso. destruct Hys as [->|(t & rest & ->)]; [discriminate|].
    injection Heq as <- _. apply (Hb t). now left.
  - destruct before as [|b before].
    + exfalso. injection Heq as -> _. apply (Hxs tableID). now left.
    + injection Heq as <- Heq. f_equal. apply IH; auto.
      * intros t Hin. apply (Hxs t). now right.
      * intros t Hin. apply (Hb t). now right.
Qed.

(** When a worker starts, the job has executed every in-window
    database-level statement of the collected files, in order, and nothing
    else has happened. *)
Lemma restoreAfterWindowCheck_first_worker l (before after : list Event)
    (tableID : Z) :
  traceOf (restoreAfterWindowCheck l) = before ++ EvWorker tableID :: after ->
  noWorker before ->
  before = EvExecute <$> dbDDLQueries l (collectedDDLFiles l).
Proof.
  unfold restoreAfterWindowCheck. rewrite bind_run.
  destruct (collectDDLFiles_run l) as (Hs & Ht & Hfiles).
  destruct (outcomeOf (collectDDLFiles l)) as [files|s] eqn:Eo.
  2:{ simpl. rewrite Ht. intros Heq. destruct before; discriminate Heq. }
  rewrite (Hfiles files eq_refl), Hs, Ht. simpl.
  set (ddls := collectedDDLFiles l).
  pose proof (doDBDDLJob_spec ddls l []) as Hjob. unfold wpa in Hjob.
  rewrite bind_run. destruct Hjob as (_ & _ & Hjob). simpl in Hjob.
  destruct (outcomeOf (doDBDDLJob ddls l)) as [[]|s] eqn:Ej.
  2:{ simpl. destruct Hjob as (done & rest & _ & ->). intros Heq Hb.
      exfalso. apply (noWorker_executes done tableID). rewrite Heq.
      apply in_or_app. right. now left. }
  simpl. rewrite Hjob. set (l1 := stateOf (doDBDDLJob ddls l)).
  rewrite bind_run. destruct (collectRowChangeFiles_run l1) as [Hs1 Ht1].
  rewrite Hs1, Ht1.
  destruct (outcomeOf (collectRowChangeFiles l1)) as [rowFiles|s] eqn:Er.
  2:{ simpl. rewrite app_nil_r. intros Heq Hb.
      exfalso. apply (noWorker_executes (dbDDLQueries l ddls) tableID).
      rewrite Heq. apply in_or_app. right. now left. }
  simpl. rewrite bind_run.
  pose proof (createPullers_spec ddls (map_to_list rowFiles) l1 []) as Hcp.
  unfold wpa in Hcp. destruct Hcp as (Hcp & _). simpl in Hcp. rewrite Hcp.
  destruct (outcomeOf (createPullers ddls (map_to_list rowFiles) l1)) as [[]|s].
  2:{ simpl. rewrite app_nil_r. intros Heq Hb.
      exfalso. apply (noWorker_executes (dbDDLQueries l ddls) tableID).
      rewrite Heq. apply in_or_app. right. now left. }
  simpl. intros Heq Hb.
  apply (first_worker_split _ _ _ _ _ Heq);
    [apply noWorker_executes | exact Hb | apply restoreTables_trace].
Qed.

Lemma RestoreLogData_run l :
  RestoreLogData l =
  match ReadFile metaFile with
  | inr e => (Halt (Failed (ErrExternal e)), l, [])
  | inl data =>
      match jsonUnmarshal data (meta l) with
      | inr e => (Halt (Failed (ErrExternal e)), l, [])
      | inl m =>
          if GlobalResolvedTS m <? startTS l
          then (Halt (Failed ErrRestoreRTsConstrain), setMeta m l, [])
          else restoreAfterWindowCheck (afterWindowCheck l)
      end
  end.
Proof.
  unfold RestoreLogData, afterWindowCheck. rewrite bind_get.
  destruct (ReadFile metaFile) as [data|e]; [|reflexivity].
  destruct (jsonUnmarshal data (meta l)) as [m|e]; [|reflexivity].
  rewrite bind_run. simpl.
  destruct (GlobalResolvedTS m <? startTS l); [reflexivity|].
  rewrite bind_run.
  destruct (GlobalResolvedTS m <? endTS l) eqn:E.
  - apply Z.ltb_lt in E. rewrite Z.min_r by lia. simpl.
    destruct (restoreAfterWindowCheck _) as [[o l'] t]. reflexivity.
  - apply Z.ltb_ge in E. rewrite Z.min_l by lia. simpl.
    change (endTS l) with (endTS (setMeta m l)). rewrite setEndTS_same.
    destruct (restoreAfterWindowCheck _) as [[o l'] t]. reflexivity.
Qed.

(** C5 (amended). Every database-level DDL event (create, drop or alter
    schema) of the collected DDL files whose commit timestamp lies in
    [startTS, endTS] is executed, in the order of the collected files and
    of the events in each file, before any per-table worker starts; the
    events outside the window are not executed. The collected files are the
    visited ones that [NeedRestoreDDL] accepts (decoded timestamp at most
    [endTS]), in descending byte order of their paths: of two collected
    paths that are one prefix followed by encoded timestamps of the same
    width, the one with the older commit timestamp comes first. A job that
    stops early has executed a first part of these statements. *)
Theorem db_ddl_precedes_workers (l : LogClient) :
  (forall ddls,
     let job := doDBDDLJob ddls l in
     (outcomeOf job = Ok tt ->
      traceOf job = EvExecute <$> dbDDLQueries l ddls)
     /\ exists done rest,
          dbDDLQueries l ddls = done ++ rest
          /\ traceOf job = EvExecute <$> done)
  /\ (forall before tableID after,
        traceOf (RestoreLogData l) = before ++ EvWorker tableID :: after ->
        noWorker before ->
        before = EvExecute <$> dbDDLQueries (afterWindowCheck l)
                                 (collectedDDLFiles (afterWindowCheck l)))
  /\ (forall path,
        In path (collectedDDLFiles l) ->
        In path (fst (WalkDir ddlEventsDir))
        /\ NeedRestoreDDL l (Base path) = (true, None))
  /\ (forall before after prefix ea eb na nb,
        collectedDDLFiles l = before ++ (prefix +:+ ea) :: after ->
        In (prefix +:+ eb) after ->
        String.length ea = String.length eb ->
        ParseUint ea = inl na -> ParseUint eb = inl nb ->
        maxUint64 - na <= maxUint64 - nb).
Proof.
  split; [|split; [|split]].
  - intros ddls. cbv zeta.
    pose proof (doDBDDLJob_spec ddls l []) as (_ & _ & Hjob).
    simpl in Hjob. destruct (outcomeOf (doDBDDLJob ddls l)) as [[]|s].
    + split; [auto|]. exists (dbDDLQueries l ddls), []. now rewrite app_nil_r.
    + split; [discriminate|]. exact Hjob.
  - intros before tableID after. rewrite RestoreLogData_run.
    destruct (ReadFile metaFile) as [data|e].
    2:{ simpl. intros Heq. destruct before; discriminate Heq. }
    destruct (jsonUnmarshal data (meta l)) as [m|e].
    2:{ simpl. intros Heq. destruct before; discriminate Heq. }
    destruct (GlobalResolvedTS m <? startTS l).
    { simpl. intros Heq. destruct before; discriminate Heq. }
    apply restoreAfterWindowCheck_first_worker.
  - apply collectedDDLFiles_In.
  - intros before after prefix ea eb na nb Hfiles.
    apply (sorted_paths_oldest_first (collectedDDLFiles l) prefix ea eb na nb
             before after); [|exact Hfiles].
    unfold collectedDDLFiles. destruct (walkDDLFiles l _ []);
      [apply SortReverseStrings_sorted | constructor].
Qed.

End BeforeWorkers.

Section BeforeWorkersScenario.
Import kv cdclog restore scenario.
#[local] Existing Instance demo.

Example RestoreLogData_on_backup :
  let r := RestoreLogData demoClient in
  outcomeOf r = Ok tt
  /\ traceOf r = [EvExecute "CREATE DATABASE other"; EvWorker 45;
                  EvAppend 45 (rowAt 150 [x62]);
                  EvIngest [{| Key := [x62]; Val := [x76] |}]].
Proof. vm_compute. split; reflexivity. Qed.

(** C5, as stated, fails: the collected file [ddlFile] holds the
    database-level event [CREATE DATABASE test], committed at 50, below
    the window [100, 200]; the restore returns without executing it. *)
Lemma db_ddl_below_window_is_skipped :
  let r := RestoreLogData demoClient in
  In ddlFile (collectedDDLFiles (afterWindowCheck demoClient))
  /\ In createDB50 (fileEvents ddlFile)
  /\ isDBRelatedDDL {| Query := "CREATE DATABASE test";
                       Type_ := ActionCreateSchema |} = true
  /\ outcomeOf r = Ok tt
  /\ In (EvWorker 45) (traceOf r)
  /\ ~ In (EvExecute "CREATE DATABASE test") (traceOf r).
Proof.
  cbv zeta. split; [vm_compute; now left|]. split; [vm_compute; now left|].
  split; [reflexivity|]. split; [vm_compute; reflexivity|].
  assert (E : traceOf (RestoreLogData demoClient)
              = [EvExecute "CREATE DATABASE other"; EvWorker 45;
                 EvAppend 45 (rowAt 150 [x62]);
                 EvIngest [{| Key := [x62]; Val := [x76] |}]])
    by (vm_compute; reflexivity).
  rewrite E. split; [simpl; auto|]. simpl. intuition discriminate.
Qed.

End BeforeWorkersScenario.

(** ** The row encoder: generated columns *)

Section GeneratedColumns.
Import Go sql2kv.
Context `{EncoderDeps}.

Lemma insertBefore_sorted_by {A} (key : A -> Z) (x : A) (l : list A) :
  StronglySorted (fun a b => key a <= key b) l ->
  StronglySorted (fun a b => key a <= key b)
    (insertBefore (fun a b => key a <? key b) x l).
Proof.
  induction 1 as [|y l Hs IH Hall]; simpl.
  - repeat constructor.
  - destruct (key y <? key x) eqn:E.
    + apply Z.ltb_lt in E. constructor; [exact IH|].
      apply List.Forall_forall. intros z Hz. apply insertBefore_In in Hz.
      destruct Hz as [-> | Hz]; [lia|].
      rewrite List.Forall_forall in Hall. auto.
    + apply Z.ltb_ge in E. constructor; [constructor; assumption|].
      constructor; [exact E|].
      eapply List.Forall_impl; [|exact Hall]. simpl. intros z Hz. lia.
Qed.

Lemma SliceStable_sorted_by {A} (key : A -> Z) (l : list A) :
  StronglySorted (fun a b => key a <= key b)
    (SliceStable (fun a b => key a <? key b) l).
Proof.
  induction l as [|x l IH]; simpl; [constructor|].
  now apply insertBefore_sorted_by.
Qed.

Lemma insertBefore_Permutation {A} (less : A -> A -> bool) (x : A) (l : list A) :
  Permutation (insertBefore less x l) (x :: l).
Proof.
  induction l as [|y l IH]; simpl; [reflexivity|].
  destruct (less y x); [|reflexivity].
  rewrite IH. apply perm_swap.
Qed.

Lemma SliceStable_Permutation {A} (less : A -> A -> bool) (l : list A) :
  Permutation (SliceStable less l) l.
Proof.
  induction l as [|x l IH]; simpl; [reflexivity|].
  rewrite insertBefore_Permutation. now constructor.
Qed.

Lemma StronglySorted_fmap {A B} (f : A -> B) (R : B -> B -> Prop) (l : list A) :
  StronglySorted (fun a b => R (f a) (f b)) l -> StronglySorted R (f <$> l).
Proof.
  induction 1 as [|x l Hs IH Hall]; simpl; constructor; [exact IH|].
  apply List.Forall_forall. intros y Hy. apply in_map_iff in Hy as (z & <- & Hz).
  rewrite List.Forall_forall in Hall. auto.
Qed.

Lemma StronglySorted_prefix {A} (R : A -> A -> Prop) (l1 l2 : list A) :
  StronglySorted R (l1 ++ l2) -> StronglySorted R l1.
Proof.
  induction l1 as [|x l1 IH]; simpl; [constructor|].
  intros Hs. inversion Hs as [|? ? Hs' Hall]; subst. constructor; [auto|].
  apply List.Forall_app in Hall. tauto.
Qed.

(** The rewriting loop collects the generated columns, by index, in the
    order of [cols]. *)
Lemma rewriteGenCols_indices (rest : list Column) (i : nat)
    (acc gcs : list genCol) :
  rewriteGenCols i rest acc = inl gcs ->
  index <$> gcs = (index <$> acc) ++ generatedFrom i rest.
Proof.
  revert i acc. induction rest as [|col rest IH]; intros i acc; simpl.
  - intros [= <-]. now rewrite app_nil_r.
  - unfold hasGeneratedExpr. destruct (GeneratedExpr col) as [e|]; [|apply IH].
    destruct (RewriteAstExpr e) as [ex|err]; [|discriminate].
    intros Hr. rewrite (IH _ _ Hr), fmap_app, <- app_assoc. reflexivity.
Qed.

Lemma generatedFrom_none (cols : list Column) (i : nat) :
  existsb hasGeneratedExpr cols = false -> generatedFrom i cols = [].
Proof.
  revert i. induction cols as [|col cols IH]; intros i; simpl; [reflexivity|].
  destruct (hasGeneratedExpr col); simpl; [discriminate|apply IH].
Qed.

(** [collectGeneratedColumns] returns every generated column once, in
    ascending order of the column offsets. *)
Lemma collectGeneratedColumns_sorted (cols : list Column) (gcs : list genCol) :
  collectGeneratedColumns cols = inl gcs ->
  StronglySorted (fun i j => offsetAt cols i <= offsetAt cols j) (index <$> gcs)
  /\ Permutation (index <$> gcs) (generatedFrom 0 cols).
Proof.
  unfold collectGeneratedColumns.
  destruct (existsb hasGeneratedExpr cols) eqn:Eany; simpl.
  2:{ intros [= <-]. rewrite generatedFrom_none by assumption.
      split; [constructor|reflexivity]. }
  destruct (rewriteGenCols 0 cols []) as [raw|err] eqn:Er; [|discriminate].
  intros [= <-]. split.
  - apply StronglySorted_fmap.
    apply (SliceStable_sorted_by (fun gc => offsetAt cols (index gc))).
  - rewrite SliceStable_Permutation.
    now rewrite (rewriteGenCols_indices _ _ _ _ Er).
Qed.

Lemma evalIndices_app (t1 t2 : list EncEvent) :
  evalIndices (t1 ++ t2) = evalIndices t1 ++ evalIndices t2.
Proof.
  induction t1 as [|e t1 IH]; simpl; [reflexivity|].
  unfold evalIndices in *. simpl. destruct e; simpl; now rewrite ?IH.
Qed.

Lemma evalIndices_fill (t : list EncEvent) :
  Forall fillsRecord t -> evalIndices t = [].
Proof.
  induction 1 as [|e t He _ IH]; [reflexivity|].
  unfold evalIndices in *. simpl. destruct e; simpl in *; tauto.
Qed.

(** [evaluateGeneratedColumns] evaluates the columns of [gcs] in the order
    of [gcs], up to the one that fails. *)
Lemma evaluateGeneratedColumns_trace (cols : list Column) (gcs : list genCol)
    (record : list Datum) :
  let res := evaluateGeneratedColumns record cols gcs in
  Forall afterFill (snd (fst res))
  /\ (exists rest, index <$> gcs = evalIndices (snd (fst res)) ++ rest)
  /\ (snd res = None -> evalIndices (snd (fst res)) = index <$> gcs).
Proof.
  revert record. induction gcs as [|gc gcs IH]; intros record.
  - split; [constructor|]. split; [now exists []|reflexivity].
  - cbn [evaluateGeneratedColumns]. rewrite fmap_cons.
    destruct (cols !! index gc) as [col|].
    2:{ split; [constructor|]. split; [eexists; reflexivity|discriminate]. }
    destruct (Eval (expr gc) record) as [evaluated|err].
    2:{ split; [repeat constructor|].
        split; [now exists (index <$> gcs)|discriminate]. }
    destruct (CastValue evaluated col) as [value|err].
    2:{ split; [repeat constructor|].
        split; [now exists (index <$> gcs)|discriminate]. }
    specialize (IH (<[index gc := value]> record)). cbv zeta in IH.
    destruct (evaluateGeneratedColumns _ cols gcs) as [[r t] e].
    cbn [fst snd] in *.
    change (evalIndices (EvEvalGen (index gc) :: EvSetGen (index gc) value :: t))
      with (index gc :: evalIndices t).
    destruct IH as (Hall & [rest Hrest] & Hdone).
    split; [repeat constructor; exact Hall|].
    split; [exists rest; now rewrite Hrest|].
    intros He. now rewrite Hdone.
Qed.

Lemma Forall_fill_app (t1 t2 : list EncEvent) :
  Forall fillsRecord t1 -> Forall fillsRecord t2 -> Forall fillsRecord (t1 ++ t2).
Proof. intros H1 H2. apply List.Forall_app. now split. Qed.

(** The first loop of [Encode] only fills the record, and when it returns
    it has appended a value for every column. *)
Lemma encodeColumns_spec (kvcodec : tableKVEncoder) (row : list Datum)
    (rowID : Z) (perm : list Z) (rest : list Column) (i : nat)
    (record : list Datum) :
  let res := encodeColumns kvcodec row rowID perm i rest record in
  Forall fillsRecord (snd res)
  /\ forall record', fst res = Done record' ->
       forall j, (i <= j < i + length rest)%nat ->
         exists v, In (EvAppendRecord j v) (snd res).
Proof.
  revert i record. induction rest as [|col rest IH]; intros i record.
  - split; [constructor|]. intros record' _ j Hj. simpl in Hj. lia.
  - cbn [encodeColumns]. cbv zeta.
    destruct (perm !! i) as [j0|]; [|split; [constructor|discriminate]].
    destruct (getActualDatum kvcodec rowID i (rowAt row j0)) as [value|e|];
      [|split; [constructor|discriminate]..].
    specialize (IH (S i) (record ++ [value])). cbv zeta in IH.
    destruct (encodeColumns kvcodec row rowID perm (S i) rest (record ++ [value]))
      as [r t'] eqn:Erec.
    cbn [fst snd] in IH. destruct IH as [Hfill Hall].
    assert (Hcont : forall t : list EncEvent,
      Forall fillsRecord t ->
      (exists v, In (EvAppendRecord i v) t) ->
      Forall fillsRecord (t ++ t')
      /\ forall record', r = Done record' ->
           forall j, (i <= j < i + length (col :: rest))%nat ->
             exists v, In (EvAppendRecord j v) (t ++ t')).
    { intros t Ht [v Hv]. split; [now apply Forall_fill_app|].
      intros record' Hr j Hj. destruct (Nat.eq_dec j i) as [->|Hne].
      - exists v. apply in_or_app. now left.
      - destruct (Hall record' Hr j) as [v' Hv']; [simpl in Hj; lia|].
        exists v'. apply in_or_app. now right. }
    assert (Hafter : forall t : list EncEvent,
      Forall fillsRecord t ->
      (exists v, In (EvAppendRecord i v) t) ->
      let res :=
        if isAutoIncCol col then
          match getAutoRecordID value col with
          | None => (Panic, t)
          | Some v =>
              match Rebase AutoIncrementType v with
              | Some e => (Error e, t ++ [EvRebase AutoIncrementType v])
              | None => (r, (t ++ [EvRebase AutoIncrementType v]) ++ t')
              end
          end
        else (r, t ++ t') in
      Forall fillsRecord (snd res)
      /\ forall record', fst res = Done record' ->
           forall j, (i <= j < i + length (col :: rest))%nat ->
             exists v, In (EvAppendRecord j v) (snd res)).
    { intros t Ht Hv. cbv zeta.
      destruct (isAutoIncCol col); [|now apply Hcont].
      destruct (getAutoRecordID value col) as [v|];
        [|split; [exact Ht|discriminate]].
      assert (Ht' : Forall fillsRecord (t ++ [EvRebase AutoIncrementType v])).
      { apply Forall_fill_app; [exact Ht|repeat constructor]. }
      destruct (Rebase AutoIncrementType v); [split; [exact Ht'|discriminate]|].
      apply Hcont; [exact Ht'|].
      destruct Hv as [v0 Hv0]. exists v0. apply in_or_app. now left. }
    destruct (isAutoRandomCol kvcodec col).
    + destruct (Rebase AutoRandomType _) as [e|].
      * split; [repeat constructor|discriminate].
      * apply Hafter; [repeat constructor|]. exists value. now left.
    + apply Hafter; [repeat constructor|]. exists value. now left.
Qed.

Lemma encodeRowID_spec (kvcodec : tableKVEncoder) (row : list Datum)
    (rowID : Z) (perm : list Z) (record : list Datum) :
  Forall fillsRecord (snd (encodeRowID kvcodec row rowID perm record)).
Proof.
  unfold encodeRowID. destruct (perm !! _) as [j|]; [|constructor].
  destruct (rowAt row j) as [d|].
  - destruct (CastExtraHandle d) as [value|e]; [|constructor].
    destruct (Rebase RowIDAllocType _); repeat constructor.
  - destruct (Rebase RowIDAllocType _); repeat constructor.
Qed.

(** C9. In the row encoder, the generated columns (virtual or stored) are
    evaluated only after a value was set in the record for every column of
    the table, and in ascending order of the column offsets: the events of
    [Encode] split into a part that only fills the record and a part that
    evaluates; when a generated column is evaluated, every column has its
    value; the evaluated columns are generated columns of the table in
    ascending offset, each at most once, and all of them when [Encode]
    returns pairs. *)
Theorem generated_columns_evaluated_last (cols : list Column)
    (meta : TableInfo) (autoRandomCol : Z) (idFn : Z -> Z)
    (kvcodec : tableKVEncoder) (row : list Datum) (rowID : Z)
    (columnPermutation : list Z) :
  NewTableKVEncoder cols meta autoRandomCol idFn = inl kvcodec ->
  let r := Encode kvcodec row rowID columnPermutation in
  exists fill after : list EncEvent,
    snd r = fill ++ after
    /\ Forall fillsRecord fill /\ Forall afterFill after
    /\ (evalIndices (snd r) <> [] ->
        forall i, (i < length cols)%nat ->
          exists v, In (EvAppendRecord i v) fill)
    /\ StronglySorted (fun i j => offsetAt cols i <= offsetAt cols j)
         (evalIndices (snd r))
    /\ (exists rest,
          Permutation (evalIndices (snd r) ++ rest) (generatedFrom 0 cols))
    /\ (forall pairs, fst r = Done pairs ->
          Permutation (evalIndices (snd r)) (generatedFrom 0 cols)).
Proof.
  unfold NewTableKVEncoder.
  destruct (collectGeneratedColumns cols) as [gcs|err] eqn:Egc; [|discriminate].
  intros [= <-]. cbv zeta.
  destruct (collectGeneratedColumns_sorted cols gcs Egc) as [Hsorted Hperm].
  unfold Encode. cbn [tblCols tblMeta genCols].
  pose proof (encodeColumns_spec
                {| tblCols := cols; tblMeta := meta;
                   autoRandomColID := if ContainsAutoRandomBits meta
                                      then autoRandomCol else 0;
                   genCols := gcs; autoIDFn := idFn |}
                row rowID columnPermutation cols 0 []) as Hcols.
  cbv zeta in Hcols.
  set (kvcodec := {| tblCols := cols; tblMeta := meta;
                     autoRandomColID := _; genCols := gcs; autoIDFn := idFn |})
    in *.
  destruct (encodeColumns kvcodec row rowID columnPermutation 0 cols [])
    as [[record|e|] t1]; cbn [fst snd] in Hcols; destruct Hcols as [Hf1 Hall].
  2,3: (exists t1, []; cbn [fst snd];
        rewrite app_nil_r, (evalIndices_fill t1 Hf1);
        split; [reflexivity|]; split; [exact Hf1|]; split; [constructor|];
        split; [congruence|]; split; [constructor|];
        split; [exists (generatedFrom 0 cols); reflexivity|discriminate]).
  assert (Hset : forall i, (i < length cols)%nat ->
                           exists v, In (EvAppendRecord i v) t1).
  { intros i Hi. apply (Hall record eq_refl). lia. }
  assert (Hrow : exists r2 t2,
    (if TableHasAutoRowID meta
     then encodeRowID kvcodec row rowID columnPermutation record
     else (Done record, [])) = (r2, t2) /\ Forall fillsRecord t2).
  { destruct (TableHasAutoRowID meta).
    - pose proof (encodeRowID_spec kvcodec row rowID columnPermutation record).
      destruct (encodeRowID _ _ _ _ _) as [r2 t2]. eauto.
    - eexists _, _. split; [reflexivity|constructor]. }
  destruct Hrow as (r2 & t2 & -> & Hf2).
  assert (Hf12 : Forall fillsRecord (t1 ++ t2)) by now apply Forall_fill_app.
  destruct r2 as [record2|e|].
  2,3: (exists (t1 ++ t2), []; cbn [fst snd];
        rewrite app_nil_r, (evalIndices_fill _ Hf12);
        split; [reflexivity|]; split; [exact Hf12|]; split; [constructor|];
        split; [congruence|]; split; [constructor|];
        split; [exists (generatedFrom 0 cols); reflexivity|discriminate]).
  assert (Htail : forall (record3 : list Datum) (t3 : list EncEvent)
                         (genErr : option (option Column * EncErr)),
    Forall afterFill t3 ->
    (exists rest, index <$> gcs = evalIndices t3 ++ rest) ->
    (genErr = None -> evalIndices t3 = index <$> gcs) ->
    let r :=
      match genErr with
      | Some (Some _, e) => (Error e, t1 ++ t2 ++ t3)
      | Some (None, _) => (Panic, t1 ++ t2 ++ t3)
      | None =>
          match AddRecord record3 with
          | inl pairs => (Done pairs, t1 ++ t2 ++ t3 ++ [EvAddRecord record3])
          | inr e => (Error e, t1 ++ t2 ++ t3 ++ [EvAddRecord record3])
          end
      end in
    exists fill after : list EncEvent,
      snd r = fill ++ after
      /\ Forall fillsRecord fill /\ Forall afterFill after
      /\ (evalIndices (snd r) <> [] ->
          forall i, (i < length cols)%nat ->
            exists v, In (EvAppendRecord i v) fill)
      /\ StronglySorted (fun i j => offsetAt cols i <= offsetAt cols j)
           (evalIndices (snd r))
      /\ (exists rest,
            Permutation (evalIndices (snd r) ++ rest) (generatedFrom 0 cols))
      /\ (forall pairs, fst r = Done pairs ->
            Permutation (evalIndices (snd r)) (generatedFrom 0 cols))).
  { intros record3 t3 genErr Hf3 [rest Hrest] Hdone.
    assert (Hsorted3 : StronglySorted
                         (fun i j => offsetAt cols i <= offsetAt cols j)
                         (evalIndices t3)).
    { rewrite Hrest in Hsorted. eapply StronglySorted_prefix, Hsorted. }
    assert (Hperm3 : Permutation (evalIndices t3 ++ rest) (generatedFrom 0 cols)).
    { now rewrite <- Hrest. }
    assert (Hshape : forall (o : Result kv.Pairs) (t4 : list EncEvent),
      Forall afterFill t4 -> evalIndices t4 = [] ->
      (forall pairs, o = Done pairs -> genErr = None) ->
      exists fill after : list EncEvent,
        snd (o, t1 ++ t2 ++ t3 ++ t4) = fill ++ after
        /\ Forall fillsRecord fill /\ Forall afterFill after
        /\ (evalIndices (snd (o, t1 ++ t2 ++ t3 ++ t4)) <> [] ->
            forall i, (i < length cols)%nat ->
              exists v, In (EvAppendRecord i v) fill)
        /\ StronglySorted (fun i j => offsetAt cols i <= offsetAt cols j)
             (evalIndices (snd (o, t1 ++ t2 ++ t3 ++ t4)))
        /\ (exists rest,
              Permutation (evalIndices (snd (o, t1 ++ t2 ++ t3 ++ t4)) ++ rest)
                (generatedFrom 0 cols))
        /\ (forall pairs, fst (o, t1 ++ t2 ++ t3 ++ t4) = Done pairs ->
              Permutation (evalIndices (snd (o, t1 ++ t2 ++ t3 ++ t4)))
                (generatedFrom 0 cols))).
    { intros o t4 Hf4 He4 Hok. exists (t1 ++ t2), (t3 ++ t4). cbn [fst snd].
      assert (Eidx : evalIndices (t1 ++ t2 ++ t3 ++ t4) = evalIndices t3).
      { rewrite !evalIndices_app, (evalIndices_fill t1 Hf1),
          (evalIndices_fill t2 Hf2), He4. simpl. now rewrite app_nil_r. }
      rewrite Eidx.
      split; [now rewrite <- app_assoc|]. split; [exact Hf12|].
      split; [apply List.Forall_app; now split|].
      split.
      { intros _ i Hi. destruct (Hset i Hi) as [v Hv]. exists v.
        apply in_or_app. now left. }
      split; [exact Hsorted3|]. split; [now exists rest|].
      intros pairs Ho. rewrite (Hdone (Hok pairs Ho)). exact Hperm. }
    cbv zeta. destruct genErr as [[[col|] e]|].
    - specialize (Hshape (Error e) [] ltac:(constructor) eq_refl
                    ltac:(discriminate)).
      rewrite app_nil_r in Hshape. exact Hshape.
    - specialize (Hshape Panic [] ltac:(constructor) eq_refl ltac:(discriminate)).
      rewrite app_nil_r in Hshape. exact Hshape.
    - destruct (AddRecord record3) as [pairs|e];
        apply Hshape; try (repeat constructor); try reflexivity; discriminate. }
  cbv zeta in Htail. destruct gcs as [|gc gcs'].
  - apply (Htail record2 [] None); [constructor|now exists []|reflexivity].
  - pose proof (evaluateGeneratedColumns_trace cols (gc :: gcs') record2) as Ht.
    cbv zeta in Ht.
    destruct (evaluateGeneratedColumns record2 cols (gc :: gcs'))
      as [[record3 t3] genErr].
    cbn [fst snd] in Ht. destruct Ht as (Hf3 & Hrest & Hdone).
    now apply Htail.
Qed.

End GeneratedColumns.

Section GeneratedColumnsScenario.
Import sql2kv sql2kv.scenario.
#[local] Existing Instance demoDeps.

(** On the table of [scenario] the column of index 2 (offset 1) is
    evaluated before the column of index 1 (offset 2), after the three
    columns and the row ID are set. *)
Lemma generated_columns_witness :
  NewTableKVEncoder demoCols demoMeta 0 (fun id => id) = inl demoEncoder
  /\ snd (Encode demoEncoder [KindInt64 7] 1 [0; -1; -1; -1])
     = [EvAppendRecord 0 (KindInt64 7); EvAppendRecord 1 KindMinNotNull;
        EvAppendRecord 2 KindMinNotNull; EvAppendRecord 3 (KindInt64 1);
        EvRebase RowIDAllocType 1; EvEvalGen 2; EvSetGen 2 (KindInt64 4);
        EvEvalGen 1; EvSetGen 1 (KindInt64 4);
        EvAddRecord [KindInt64 7; KindInt64 4; KindInt64 4; KindInt64 1]]
  /\ exists fill after : list EncEvent,
       snd (Encode demoEncoder [KindInt64 7] 1 [0; -1; -1; -1]) = fill ++ after
       /\ Forall fillsRecord fill /\ Forall afterFill after.
Proof.
  split; [reflexivity|]. split; [reflexivity|].
  destruct (generated_columns_evaluated_last demoCols demoMeta 0 (fun id => id)
              demoEncoder [KindInt64 7] 1 [0; -1; -1; -1] eq_refl)
    as (fill & after & Heq & Hfill & Hafter & _).
  exists fill, after. auto.
Defined.

End GeneratedColumnsScenario.

(* ===================================================================== *)
(** * Part III: further properties of the code                            *)
(* ===================================================================== *)

(** ** Which file names are collected *)

Section AcceptedNames.
Import Go restore.
Context `{Collaborators}.

Lemma Split_nonempty (s : string) (sep : ascii) : Split s sep <> [].
Proof.
  destruct s as [|c s]; simpl; [discriminate|].
  destruct (Ascii.eqb c sep); [discriminate|].
  destruct (Split s sep); discriminate.
Qed.

(** A string that splits into one piece is that piece. *)
Lemma Split_one (s piece : string) : Split s "." = [piece] -> s = piece.
Proof.
  revert piece. induction s as [|c s IH]; intros piece; simpl.
  - now intros [= <-].
  - destruct (Ascii.eqb c "."); [|destruct (Split s ".") as [|p ps] eqn:E].
    + intros [= <- E]. now apply Split_nonempty in E.
    + now apply Split_nonempty in E.
    + intros [= <- ->]. now rewrite (IH p eq_refl).
Qed.

(** A string that splits into two pieces is the two around one dot. *)
Lemma Split_two (s a b : string) :
  Split s "." = [a; b] -> s = a +:+ String "." b.
Proof.
  revert a. induction s as [|c s IH]; intros a; simpl; [discriminate|].
  destruct (Ascii.eqb c ".") eqn:Ec.
  - intros [= <- E]. apply Ascii.eqb_eq in Ec as ->.
    now rewrite (Split_one _ _ E).
  - destruct (Split s ".") as [|p ps] eqn:E; [discriminate|].
    intros [= <- ->]. simpl. now rewrite (IH p eq_refl).
Qed.

(** A string of digits holds no dot. *)
Lemma Split_digits (s : string) (acc v : Z) :
  parseDigits s acc = Some v -> Split s "." = [s].
Proof.
  revert acc. induction s as [|c s IH]; intros acc; simpl; [reflexivity|].
  destruct (digitVal c) as [d|] eqn:Ed; [|discriminate].
  intros Hp. rewrite (IH _ Hp).
  destruct (Ascii.eqb c ".") eqn:Ec; [|reflexivity].
  apply Ascii.eqb_eq in Ec as ->. discriminate Ed.
Qed.

(** X1. [NeedRestoreDDL] accepts exactly the names [ddl.<digits>] whose
    number [v] fits 64 bits and decodes to a timestamp [maxUint64 - v] that
    is at most [endTS]; the start of the window plays no part. *)
Theorem NeedRestoreDDL_accepts_iff (l : LogClient) (fileName : string) :
  (NeedRestoreDDL l fileName = (true, None) <->
   exists digits v,
     fileName = "ddl." +:+ digits /\ ParseUint digits = inl v
     /\ maxUint64 - v <= endTS l)
  /\ forall startTs,
       NeedRestoreDDL (ResetTSRange startTs (endTS l) l) fileName
       = NeedRestoreDDL l fileName.
Proof.
  split; [|reflexivity]. unfold NeedRestoreDDL. split.
  - destruct (Split fileName ".") as [|n0 [|n1 [|n2 ns]]] eqn:Es;
      try discriminate.
    destruct (String.eqb n0 ddlFilePrefix) eqn:E0; simpl; [|discriminate].
    apply String.eqb_eq in E0 as ->.
    destruct (ParseUint n1) as [ts|err] eqn:Ep; [|discriminate].
    destruct (maxUint64 - ts <=? endTS l) eqn:Ets; [|discriminate].
    intros _. exists n1, ts. apply Z.leb_le in Ets.
    split; [apply (Split_two _ _ _ Es)|]. auto.
  - intros (digits & v & -> & Hp & Hle).
    simpl. change ("" +:+ digits) with digits.
    rewrite (Split_digits _ _ _ (ParseUint_digits _ _ Hp)). cbn.
    rewrite Hp. apply Z.leb_le in Hle. now rewrite Hle.
Qed.

(** X2. [NeedRestoreRowChange] accepts exactly the bare name [cdclog] and
    the names [cdclog.<digits>] whose number fits 64 bits and is at least
    [startTS]; the end of the window plays no part. *)
Theorem NeedRestoreRowChange_accepts_iff (l : LogClient) (fileName : string) :
  (NeedRestoreRowChange l fileName = (true, None) <->
   fileName = "cdclog"
   \/ exists digits v,
        fileName = "cdclog." +:+ digits /\ ParseUint digits = inl v
        /\ startTS l <= v)
  /\ forall endTs,
       NeedRestoreRowChange (ResetTSRange (startTS l) endTs l) fileName
       = NeedRestoreRowChange l fileName.
Proof.
  split; [|reflexivity]. unfold NeedRestoreRowChange. split.
  - destruct (String.eqb fileName logPrefix) eqn:Ebare.
    { apply String.eqb_eq in Ebare. now left. }
    destruct (Split fileName ".") as [|n0 [|n1 [|n2 ns]]] eqn:Es;
      try discriminate.
    destruct (String.eqb n0 logPrefix) eqn:E0; simpl; [|discriminate].
    apply String.eqb_eq in E0 as ->.
    destruct (ParseUint n1) as [ts|err] eqn:Ep; [|discriminate].
    unfold maybeTSInRange.
    destruct (startTS l <=? ts) eqn:Ets; [|discriminate].
    intros _. right. exists n1, ts. apply Z.leb_le in Ets.
    split; [apply (Split_two _ _ _ Es)|]. auto.
  - intros [-> | (digits & v & -> & Hp & Hle)]; [reflexivity|].
    simpl. change ("" +:+ digits) with digits.
    rewrite (Split_digits _ _ _ (ParseUint_digits _ _ Hp)). cbn.
    rewrite Hp. unfold maybeTSInRange. apply Z.leb_le in Hle. now rewrite Hle.
Qed.

End AcceptedNames.

(** ** What the collection of the DDL files returns *)

Section CollectedDDLFiles.
Import Go restore.
Context `{Collaborators}.

(** The callback keeps the accepted paths in the order of the visit. *)
Lemma walkDDLFiles_filter l (paths acc files : list string) :
  walkDDLFiles l paths acc = inl files ->
  files = acc ++ List.filter (fun path => fst (NeedRestoreDDL l (Base path))) paths.
Proof.
  revert acc. induction paths as [|p paths IH]; intros acc; simpl.
  - intros [= <-]. now rewrite app_nil_r.
  - destruct (NeedRestoreDDL l (Base p)) as [should [err|]]; [discriminate|].
    intros Hw. rewrite (IH _ Hw). simpl.
    destruct should; [rewrite <- app_assoc|]; reflexivity.
Qed.

(** The walk stops at the first name that does not parse. *)
Lemma walkDDLFiles_first_error l (before after acc : list string)
    (path : string) (e : Error) :
  Forall (fun p => snd (NeedRestoreDDL l (Base p)) = None) before ->
  snd (NeedRestoreDDL l (Base path)) = Some e ->
  walkDDLFiles l (before ++ path :: after) acc = inr e.
Proof.
  intros Hb Hp. revert acc.
  induction Hb as [|p before Hp0 _ IH]; intros acc; simpl.
  - destruct (NeedRestoreDDL l (Base path)) as [should err]. simpl in Hp.
    now subst err.
  - destruct (NeedRestoreDDL l (Base p)) as [should err]. simpl in Hp0.
    subst err. apply IH.
Qed.

(** X3. [collectDDLFiles] reads the client and changes nothing. When it
    returns, the walk had no error of its own and the result holds every
    visited path whose name [NeedRestoreDDL] accepts, as often as it was
    visited, in descending byte order. A visited name that does not parse
    makes it fail with the error of the first such name, whatever else the
    walk reports. *)
Theorem collectDDLFiles_returns_all_accepted (l : LogClient) :
  let r := collectDDLFiles l in
  stateOf r = l /\ traceOf r = []
  /\ (forall files, outcomeOf r = Ok files ->
        Permutation files (acceptedDDLFiles l)
        /\ StronglySorted (fun a b => String.ltb a b = false) files
        /\ snd (WalkDir ddlEventsDir) = None)
  /\ (forall before path after e,
        fst (WalkDir ddlEventsDir) = before ++ path :: after ->
        Forall (fun p => snd (NeedRestoreDDL l (Base p)) = None) before ->
        snd (NeedRestoreDDL l (Base path)) = Some e ->
        outcomeOf r = Halt (Failed e)).
Proof.
  cbv zeta. unfold collectDDLFiles, acceptedDDLFiles. rewrite bind_get.
  destruct (WalkDir ddlEventsDir) as [paths walkErr]. cbn [fst snd].
  destruct (walkDDLFiles l paths []) as [files|e0] eqn:Ew.
  - pose proof (walkDDLFiles_filter _ _ _ _ Ew) as Ef. simpl in Ef.
    split; [now destruct walkErr|]. split; [now destruct walkErr|]. split.
    + destruct walkErr; [discriminate|]. intros files' [= <-].
      split; [rewrite <- Ef; apply SliceStable_Permutation|].
      split; [apply SortReverseStrings_sorted|reflexivity].
    + intros before path after e -> Hb Hp.
      rewrite (walkDDLFiles_first_error l before after [] path e Hb Hp) in Ew.
      discriminate.
  - split; [reflexivity|]. split; [reflexivity|]. split; [discriminate|].
    intros before path after e -> Hb Hp.
    rewrite (walkDDLFiles_first_error l before after [] path e Hb Hp) in Ew.
    now injection Ew as ->.
Qed.

End CollectedDDLFiles.

(** ** The drop fences the database-level DDL job stores *)

Section DropFences.
Import Go kv cdclog restore.
Context `{Collaborators}.

Lemma fenceAfter_app l schema items1 items2 before :
  fenceAfter l schema (items1 ++ items2) before
  = fenceAfter l schema items2 (fenceAfter l schema items1 before).
Proof.
  unfold fenceAfter. rewrite List.filter_app.
  destruct (List.filter (dropsSchema l schema) items2) as [|x xs] eqn:E.
  - now rewrite app_nil_r.
  - rewrite last_app. rewrite <- E. clear E.
    now destruct (last (List.filter (dropsSchema l schema) items2)).
Qed.

Lemma dropsSchema_window l l' schema (item : SortItem) :
  startTS l' = startTS l -> endTS l' = endTS l ->
  dropsSchema l' schema item = dropsSchema l schema item.
Proof. unfold dropsSchema, tsInRange. now intros -> ->. Qed.

Lemma fenceAfter_window l l' schema items before :
  startTS l' = startTS l -> endTS l' = endTS l ->
  fenceAfter l' schema items before = fenceAfter l schema items before.
Proof.
  intros Hs He. unfold fenceAfter.
  rewrite (filter_ext _ _ (fun item => dropsSchema_window l l' schema item Hs He)).
  reflexivity.
Qed.

Lemma onlyWorldAndFences_refl l : onlyWorldAndFences l l.
Proof. repeat split. Qed.

Lemma onlyWorldAndFences_trans l l1 l2 :
  onlyWorldAndFences l l1 -> onlyWorldAndFences l1 l2 ->
  onlyWorldAndFences l l2.
Proof.
  unfold onlyWorldAndFences. intros (?&?&?&?&?&?&?&?) (?&?&?&?&?&?&?&?).
  repeat split; congruence.
Qed.

Lemma doDBDDLEvents_fences (events : list (SortItem + ExtErr)) l t0 :
  wpa (doDBDDLEvents events) l t0
    (fun o l' _ => fencesOf (okItems events) l o l').
Proof.
  revert l t0. induction events as [|[item|e] events IH]; intros l t0.
  - apply wpa_ret. split; [apply onlyWorldAndFences_refl|reflexivity].
  - cbn [doDBDDLEvents]. unfold okItems. cbn [omap list_omap].
    fold (okItems events).
    destruct (Data item) as [ddl|row] eqn:Ed.
    2:{ apply wpa_halt. split; [apply onlyWorldAndFences_refl|discriminate]. }
    apply wpa_bind, wpa_get.
    assert (Hnext : forall l1 t1,
      onlyWorldAndFences l l1 ->
      (forall schema,
         dropTSMap l1 !! schema
         = fenceAfter l schema [item] (dropTSMap l !! schema)) ->
      wpa (doDBDDLEvents events) l1 t1
        (fun o l' _ => fencesOf (item :: okItems events) l o l')).
    { intros l1 t1 Hw Hf. eapply wpa_mono; [apply IH|].
      intros o l2 t2 [Hw2 Hf2]. split.
      - eapply onlyWorldAndFences_trans; eassumption.
      - intros Ho schema. rewrite (Hf2 Ho schema), Hf.
        destruct Hw as (_ & Hs & He & _).
        rewrite (fenceAfter_window l l1) by assumption.
        change (item :: okItems events) with ([item] ++ okItems events).
        now rewrite fenceAfter_app. }
    destruct (isDBRelatedDDL ddl && tsInRange l (TS item)) eqn:Ein.
    + apply wpa_bind, wpa_bind. unfold wpa at 1. rewrite Execute_run.
      cbn [outcomeOf stateOf traceOf fst snd].
      destruct (snd (seExecute (Query ddl) (restoreClient l))) as [e|].
      { split; [repeat split|discriminate]. }
      apply andb_true_iff in Ein as [Edb Ets].
      destruct (isDropSchema ddl) eqn:Edrop.
      * apply wpa_modify. apply Hnext; [repeat split|].
        intros schema. unfold fenceAfter, dropsSchema. cbn [List.filter].
        rewrite Ed, Edrop, Ets. cbn [andb dropTSMap storeDropTS setWorld].
        destruct (String.eqb (Schema item) schema) eqn:Es.
        -- apply String.eqb_eq in Es as <-. simpl. now rewrite lookup_insert_eq.
        -- apply String.eqb_neq in Es. simpl. now rewrite lookup_insert_ne.
      * apply wpa_ret. apply Hnext; [repeat split|].
        intros schema. unfold fenceAfter, dropsSchema. cbn [List.filter].
        now rewrite Ed, Edrop.
    + apply wpa_bind, wpa_ret. apply Hnext; [apply onlyWorldAndFences_refl|].
      intros schema. unfold fenceAfter, dropsSchema. cbn [List.filter].
      rewrite Ed. apply andb_false_iff in Ein as [Edb|Ets].
      * assert (Edrop : isDropSchema ddl = false).
        { unfold isDBRelatedDDL in Edb. unfold isDropSchema.
          now destruct (Type_ ddl). }
        now rewrite Edrop.
      * rewrite Ets, andb_false_r. reflexivity.
  - apply wpa_fail. split; [apply onlyWorldAndFences_refl|discriminate].
Qed.

Lemma doDBDDLFiles_fences (ddls : list string) l t0 :
  wpa (doDBDDLFiles ddls) l t0
    (fun o l' _ => fencesOf (concat (fileEvents <$> ddls)) l o l').
Proof.
  revert l t0. induction ddls as [|path ddls IH]; intros l t0.
  - apply wpa_ret. split; [apply onlyWorldAndFences_refl|reflexivity].
  - cbn [doDBDDLFiles fmap list_fmap concat]. unfold fileEvents at 1.
    destruct (ReadFile path) as [data|e].
    2:{ apply wpa_fail. split; [apply onlyWorldAndFences_refl|discriminate]. }
    destruct (NewJSONEventBatchDecoder data) as [events|e].
    2:{ apply wpa_fail. split; [apply onlyWorldAndFences_refl|discriminate]. }
    apply wpa_bind. eapply wpa_mono; [apply doDBDDLEvents_fences|].
    intros [[]|s] l1 t1 [Hw Hf].
    + eapply wpa_mono; [apply IH|]. intros o l2 t2 [Hw2 Hf2]. split.
      * eapply onlyWorldAndFences_trans; eassumption.
      * intros Ho schema. rewrite (Hf2 Ho schema), (Hf eq_refl schema).
        destruct Hw as (_ & Hs & He & _).
        rewrite (fenceAfter_window l l1) by assumption.
        now rewrite fenceAfter_app.
    + split; [exact Hw|discriminate].
Qed.

(** X4. [doDBDDLJob] changes nothing of the client but the cluster and the
    drop fences. When it returns, the fence of a schema is the commit
    timestamp of the last [DropSchema] event of that schema inside the
    window, in the order of the files and of the events in each; a schema
    without such an event keeps the fence it had. *)
Theorem doDBDDLJob_stores_last_drop (ddls : list string) (l : LogClient) :
  let job := doDBDDLJob ddls l in
  onlyWorldAndFences l (stateOf job)
  /\ (outcomeOf job = Ok tt ->
      forall schema,
        dropTSMap (stateOf job) !! schema
        = match last (List.filter (dropsSchema l schema)
                        (concat (fileEvents <$> ddls))) with
          | Some item => Some (TS item)
          | None => dropTSMap l !! schema
          end).
Proof.
  cbv zeta. unfold doDBDDLJob. destruct ddls as [|path ddls].
  - split; [apply onlyWorldAndFences_refl|reflexivity].
  - exact (proj1 (wpa_run _ l _) (doDBDDLFiles_fences (path :: ddls) l [])).
Qed.

End DropFences.

(** ** Which tables and files the row-change collection takes *)

Section CollectedRowFiles.
Import Go restore.
Context `{Collaborators}.

(** The first loop keeps, for every table name of the metadata, the
    largest table ID that bears it, in whatever order the map is visited. *)
Lemma nameIDMapOf_largest (m : LogMeta) (name : string) :
  (forall id, nameIDMapOf m !! name = Some id ->
     Names m !! id = Some name
     /\ forall id', Names m !! id' = Some name -> id' <= id)
  /\ (forall id', Names m !! id' = Some name -> is_Some (nameIDMapOf m !! name)).
Proof.
  unfold nameIDMapOf. revert name.
  apply (map_fold_weak_ind
           (fun (r : gmap string Z) (names : gmap Z string) =>
              forall name,
                (forall id, r !! name = Some id ->
                   names !! id = Some name
                   /\ forall id', names !! id' = Some name -> id' <= id)
                /\ (forall id', names !! id' = Some name -> is_Some (r !! name)))).
  - intros name. split; intros id; rewrite lookup_empty; discriminate.
  - intros i x names r Hfresh IH name. destruct (IH name) as [IH1 IH2].
    unfold keepLatestTableID.
    destruct (decide (x = name)) as [->|Hne].
    + destruct (r !! name) as [tid|] eqn:Er.
      * destruct (IH1 tid eq_refl) as [Htid Hmax].
        destruct (tid <? i) eqn:Elt.
        -- apply Z.ltb_lt in Elt. split.
           ++ intros id. rewrite lookup_insert_eq. intros [= <-].
              split; [apply lookup_insert_eq|].
              intros id'. destruct (decide (i = id')) as [->|Hi]; [lia|].
              rewrite lookup_insert_ne by assumption. intros Hid'.
              specialize (Hmax _ Hid'). lia.
           ++ intros id' _. rewrite lookup_insert_eq. eauto.
        -- apply Z.ltb_ge in Elt. split.
           ++ intros id. rewrite Er. intros [= <-].
              assert (i <> tid) by (intros ->; congruence).
              split; [now rewrite lookup_insert_ne|].
              intros id'. destruct (decide (i = id')) as [->|Hi]; [lia|].
              rewrite lookup_insert_ne by assumption. apply Hmax.
           ++ intros id' _. rewrite Er. eauto.
      * split.
        -- intros id. rewrite lookup_insert_eq. intros [= <-].
           split; [apply lookup_insert_eq|].
           intros id'. destruct (decide (i = id')) as [->|Hi]; [lia|].
           rewrite lookup_insert_ne by assumption. intros Hid'.
           destruct (IH2 _ Hid') as [? ?]. congruence.
        -- intros id' _. rewrite lookup_insert_eq. eauto.
    + assert (Hr : forall r', (match r !! x with
                               | Some tid => if tid <? i then <[x:=i]> r else r
                               | None => <[x:=i]> r
                               end) = r' -> r' !! name = r !! name).
      { intros r' <-. destruct (r !! x) as [tid|]; [destruct (tid <? i)|];
          try reflexivity; now rewrite lookup_insert_ne. }
      rewrite (Hr _ eq_refl). split.
      * intros id Hid. destruct (IH1 _ Hid) as [Hn Hmax].
        assert (i <> id) by (intros ->; congruence).
        split; [now rewrite lookup_insert_ne|].
        intros id'. destruct (decide (i = id')) as [->|Hi].
        -- rewrite lookup_insert_eq. congruence.
        -- rewrite lookup_insert_ne by assumption. apply Hmax.
      * intros id'. destruct (decide (i = id')) as [->|Hi].
        -- rewrite lookup_insert_eq. congruence.
        -- rewrite lookup_insert_ne by assumption. apply IH2.
Qed.

Lemma NoDup_omap_inj {A B} (f : A -> option B) (l : list A) :
  NoDup l ->
  (forall x y b, x ∈ l -> y ∈ l -> f x = Some b -> f y = Some b -> x = y) ->
  NoDup (omap f l).
Proof.
  induction 1 as [|x l Hx Hl IH]; intros Hinj; simpl; [constructor|].
  assert (IH' : NoDup (omap f l)).
  { apply IH. intros y z b Hy Hz. apply Hinj; now right. }
  destruct (f x) as [b|] eqn:Ef; [|exact IH'].
  constructor; [|exact IH'].
  intros Hb. apply list_elem_of_omap in Hb as (y & Hy & Hfy).
  assert (x = y) by (eapply Hinj; [left|right; eassumption|eassumption..]).
  now subst y.
Qed.

(** X5. The tables whose directories [collectRowChangeFiles] walks: a
    table ID of the metadata is among them exactly when no larger ID bears
    the same name and the table filter matches the name. An older
    incarnation of a recreated table is left out, and no table is walked
    twice. *)
Theorem filteredTableIDs_latest_matching (m : LogMeta) (tableID : Z) :
  (In tableID (filteredTableIDs m) <->
   exists name,
     Names m !! tableID = Some name
     /\ (forall id', Names m !! id' = Some name -> id' <= tableID)
     /\ MatchTable (fst (ParseQuoteName name)) (snd (ParseQuoteName name)) = true)
  /\ NoDup (filteredTableIDs m).
Proof.
  unfold filteredTableIDs. split.
  - rewrite <- list_elem_of_In, list_elem_of_omap. split.
    + intros ([name id] & Hin & Hf). apply elem_of_map_to_list in Hin.
      cbn [fst snd] in Hf. destruct (ParseQuoteName name) as [schema table] eqn:Ep.
      destruct (MatchTable schema table) eqn:Em; [|discriminate].
      injection Hf as ->. destruct (nameIDMapOf_largest m name) as [H1 _].
      destruct (H1 _ Hin) as [Hn Hmax]. exists name. rewrite Ep. auto.
    + intros (name & Hn & Hmax & Hm).
      destruct (nameIDMapOf_largest m name) as [H1 H2].
      destruct (H2 _ Hn) as [id Hid]. destruct (H1 _ Hid) as [Hn' Hmax'].
      assert (id = tableID) by (specialize (Hmax _ Hn'); specialize (Hmax' _ Hn); lia).
      subst id. exists (name, tableID). split; [now apply elem_of_map_to_list|].
      cbn [fst snd]. destruct (ParseQuoteName name) as [schema table].
      cbn [fst snd] in Hm. now rewrite Hm.
  - apply NoDup_omap_inj; [apply NoDup_map_to_list|].
    intros [n1 id1] [n2 id2] b Hx Hy Hfx Hfy.
    apply elem_of_map_to_list in Hx, Hy. cbn [fst snd] in Hfx, Hfy.
    destruct (ParseQuoteName n1) as [s1 t1], (ParseQuoteName n2) as [s2 t2].
    destruct (MatchTable s1 t1); [|discriminate].
    destruct (MatchTable s2 t2); [|discriminate].
    injection Hfx as ->. injection Hfy as ->.
    destruct (proj1 (nameIDMapOf_largest m n1) _ Hx) as [Hn1 _].
    destruct (proj1 (nameIDMapOf_largest m n2) _ Hy) as [Hn2 _].
    congruence.
Qed.




End CollectedRowFiles.

(** ** The batch and the range [writeRows] hands to the ingester *)

Section IngestedRange.
Import Go kv cdclog restore.
Context `{Collaborators}.




End IngestedRange.

(** ** How a flush ends *)

Section FlushOutcomes.
Import Go kv cdclog restore.
Context `{Collaborators}.

(** [writeRows] either returns or fails with the error of the ingester. *)
Lemma writeRows_outcome (kvs : Pairs) l t0 :
  wpa (writeRows kvs) l t0
    (fun o l' t' =>
       t' = t0 ++ ingestEvents kvs /\ onlyWorld l l'
       /\ (o = Ok tt \/ exists e, o = Halt (Failed (ErrExternal e)))).
Proof.
  unfold writeRows. destruct kvs as [|p0 kvs'].
  { apply wpa_ret. simpl. rewrite app_nil_r.
    split; [reflexivity|]. split; [apply onlyWorld_refl|now left]. }
  set (kvs := p0 :: kvs').
  pose proof (newKvsOf_nonempty kvs ltac:(discriminate)) as Hne.
  destruct (head (newKvsOf kvs)) as [first|] eqn:Eh.
  2:{ destruct (newKvsOf kvs); [congruence|discriminate Eh]. }
  destruct (last (newKvsOf kvs)) as [final|] eqn:El.
  2:{ apply last_None in El. congruence. }
  apply wpa_bind, wpa_emit. apply wpa_bind, wpa_get.
  destruct (ingestRanges _ _ _) as [w [e|]].
  - apply wpa_bind, wpa_modify, wpa_fail.
    split; [reflexivity|].
    split; [apply onlyWorld_setWorld, onlyWorld_refl|eauto].
  - apply wpa_modify.
    split; [reflexivity|].
    split; [apply onlyWorld_setWorld, onlyWorld_refl|now left].
Qed.


(** X9. A flush that returns leaves nothing to flush: run again from the
    client it left, it returns at once, hands nothing to the ingester and
    changes nothing. *)
Theorem applyKVChanges_twice (tableID : Z) (l : LogClient) :
  let r := applyKVChanges tableID l in
  outcomeOf r = Ok tt ->
  applyKVChanges tableID (stateOf r) = (Ok tt, stateOf r, []).
Proof.
  cbv zeta.
  cut (wpa (applyKVChanges tableID) l []
         (fun o l' _ =>
            o = Ok tt ->
            exists tb, tableBuffers l' !! tableID = Some tb /\ KvPairs tb = [])).
  { intros Hw Ho. destruct (proj1 (wpa_run _ l _) Hw Ho) as (tb & Htb & Hk).
    revert Htb. generalize (stateOf (applyKVChanges tableID l)) as l'.
    intros l' Htb. unfold applyKVChanges. rewrite bind_get, Htb.
    unfold IsEmpty. now rewrite Hk. }
  unfold applyKVChanges. apply wpa_bind, wpa_get.
  destruct (tableBuffers l !! tableID) as [tb|] eqn:Etb;
    [|apply wpa_halt; discriminate].
  destruct (IsEmpty tb) eqn:Ee.
  { apply wpa_ret. intros _. exists tb. split; [exact Etb|].
    unfold IsEmpty in Ee. now destruct (KvPairs tb). }
  apply wpa_bind. eapply wpa_mono; [apply writeRows_outcome|].
  intros o1 l1 t1 (_ & Hw1 & [->|[e ->]]); [|discriminate].
  apply wpa_bind. eapply wpa_mono; [apply writeRows_outcome|].
  intros o2 l2 t2 (_ & Hw2 & [->|[e ->]]); [|discriminate].
  apply wpa_modify. intros _. exists (Clear tb).
  split; [|reflexivity]. simpl. apply lookup_insert_eq.
Qed.

End FlushOutcomes.

(** ** How the replay of a table ends *)

Section ReplayOutcome.
Import Go kv cdclog restore.
Context `{Collaborators}.

Lemma sameSetup_refl l : sameSetup l l.
Proof. repeat split. Qed.

Lemma sameSetup_trans l l1 l2 :
  sameSetup l l1 -> sameSetup l1 l2 -> sameSetup l l2.
Proof.
  unfold sameSetup. intros (?&?&?&?&?) (?&?&?&?&?). repeat split; congruence.
Qed.

Lemma onlyWorld_sameSetup l l' : onlyWorld l l' -> sameSetup l l'.
Proof. unfold onlyWorld. intros ->. repeat split. Qed.

Lemma sameSetup_setWorld w l l' : sameSetup l l' -> sameSetup l (setWorld w l').
Proof. intros Hs. exact Hs. Qed.

Lemma sameSetup_setBuffer tableID tb l l' :
  sameSetup l l' -> sameSetup l (setBuffer tableID tb l').
Proof. intros Hs. exact Hs. Qed.

Lemma ddlSteps_app (t1 t2 : list Event) :
  ddlSteps (t1 ++ t2) = ddlSteps t1 ++ ddlSteps t2.
Proof. apply List.filter_app. Qed.

Lemma ddlSteps_ingest (kvs : Pairs) : ddlSteps (ingestEvents kvs) = [].
Proof. now destruct kvs. Qed.

(** A flush executes no statement and takes no lock; when it returns,
    nothing is pending. *)
Lemma applyKVChanges_steps (tableID : Z) l t0 :
  wpa (applyKVChanges tableID) l t0
    (fun o l' t' =>
       ddlSteps t' = ddlSteps t0
       /\ (o = Ok tt -> pending l' tableID = [] /\ sameSetup l l')).
Proof.
  unfold applyKVChanges. apply wpa_bind, wpa_get. unfold pending.
  destruct (tableBuffers l !! tableID) as [tb|] eqn:Etb.
  2:{ apply wpa_halt. split; [reflexivity|discriminate]. }
  destruct (IsEmpty tb) eqn:Ee.
  { apply wpa_ret. split; [reflexivity|]. intros _. rewrite Etb.
    unfold IsEmpty in Ee. split; [now destruct (KvPairs tb)|apply sameSetup_refl]. }
  apply wpa_bind. eapply wpa_mono; [apply writeRows_outcome|].
  intros o1 l1 t1 (-> & Hw1 & Ho1).
  assert (Ht1 : ddlSteps (t0 ++ ingestEvents (List.filter isDataPair (KvPairs tb)))
                = ddlSteps t0).
  { now rewrite ddlSteps_app, ddlSteps_ingest, app_nil_r. }
  destruct Ho1 as [->|[e ->]]; [|split; [exact Ht1|discriminate]].
  apply wpa_bind. eapply wpa_mono; [apply writeRows_outcome|].
  intros o2 l2 t2 (-> & Hw2 & Ho2).
  assert (Ht2 : ddlSteps
                  ((t0 ++ ingestEvents (List.filter isDataPair (KvPairs tb)))
                   ++ ingestEvents
                        (List.filter (fun p => negb (isDataPair p)) (KvPairs tb)))
                = ddlSteps t0).
  { now rewrite ddlSteps_app, ddlSteps_ingest, app_nil_r. }
  destruct Ho2 as [->|[e ->]]; [|split; [exact Ht2|discriminate]].
  apply wpa_modify. split; [exact Ht2|]. intros _. split.
  - simpl. now rewrite lookup_insert_eq.
  - apply sameSetup_setBuffer.
    eapply sameSetup_trans; apply onlyWorld_sameSetup; eassumption.
Qed.

(** Reloading the descriptor of a table emits nothing and keeps the
    setup. *)
Lemma reloadTableMeta_steps (tableID : Z) (item : SortItem) l t0 :
  wpa (reloadTableMeta tableID item) l t0
    (fun _ l' t' => t' = t0 /\ sameSetup l l').
Proof.
  unfold reloadTableMeta. apply wpa_bind, wpa_get.
  destruct (domReload (restoreClient l)) as [w [e|]].
  { apply wpa_bind, wpa_modify, wpa_fail. split; [reflexivity|repeat split]. }
  apply wpa_bind, wpa_modify. apply wpa_bind, wpa_get.
  change (tableBuffers (setWorld w l)) with (tableBuffers l).
  destruct (tableBuffers l !! tableID) as [tb|];
    [|apply wpa_halt; split; [reflexivity|repeat split]].
  assert (Hattach : forall ti,
    wpa (if SchemaByName w (Schema item)
         then modify (setBuffer tableID (ReloadMeta tb ti))
         else fail (ErrRestoreSchemaNotExists (Schema item)))
        (setWorld w l) t0 (fun _ l' t' => t' = t0 /\ sameSetup l l')).
  { intros ti. destruct (SchemaByName w (Schema item)).
    - apply wpa_modify. split; [reflexivity|repeat split].
    - apply wpa_fail. split; [reflexivity|repeat split]. }
  destruct (negb (TableID tb =? 0)).
  - destruct (TableByID w (TableID tb)); [apply Hattach|].
    apply wpa_ret. split; [reflexivity|repeat split].
  - destruct (TableByName w (Schema item) (Table item)); [apply Hattach|].
    apply wpa_fail. split; [reflexivity|repeat split].
Qed.

Lemma Append_steps (tableID : Z) (item : SortItem) l t0 :
  wpa (Append tableID item) l t0
    (fun _ l' t' => ddlSteps t' = ddlSteps t0 /\ sameSetup l l').
Proof.
  unfold Append. apply wpa_bind, wpa_emit. apply wpa_bind, wpa_get.
  assert (Ht : ddlSteps (t0 ++ [EvAppend tableID item]) = ddlSteps t0).
  { rewrite ddlSteps_app. simpl. apply app_nil_r. }
  destruct (tableBuffers l !! tableID) as [tb|];
    [|apply wpa_halt; split; [exact Ht|repeat split]].
  destruct (encodeRow (TableInfo tb) item) as [pairs|e].
  - apply wpa_modify. split; [exact Ht|repeat split].
  - apply wpa_fail. split; [exact Ht|repeat split].
Qed.

Section Loop.
Variables (tableID : Z) (l0 : LogClient) (stream : list PullResult).

Lemma replayed_stop t0 t' s l' :
  ddlSteps t' = ddlSteps t0 -> replayed l0 tableID stream t0 (Halt s) l' t'.
Proof.
  intros Ht. exists [], []. split; [constructor|]. simpl.
  rewrite Ht. split; [reflexivity|discriminate].
Qed.

Lemma replayed_pre (pre : list SortItem) t0 t1 o l' t' :
  Forall (replayedDDL l0 tableID stream) pre ->
  ddlSteps t1 = ddlSteps t0 ++ concat (ddlBlock <$> pre) ->
  replayed l0 tableID stream t1 o l' t' ->
  replayed l0 tableID stream t0 o l' t'.
Proof.
  intros Hpre Ht (items & rest & Hall & Hsteps & Hok).
  exists (pre ++ items), rest. split; [now apply List.Forall_app|].
  split; [|exact Hok].
  now rewrite Hsteps, Ht, fmap_app, concat_app, app_assoc.
Qed.

Lemma replayed_same t0 t1 o l' t' :
  ddlSteps t1 = ddlSteps t0 ->
  replayed l0 tableID stream t1 o l' t' ->
  replayed l0 tableID stream t0 o l' t'.
Proof.
  intros Ht. apply (replayed_pre []); [constructor|].
  simpl. now rewrite app_nil_r.
Qed.

(** The flush that ends the loop. *)
Lemma flush_replayed l t0 :
  sameSetup l0 l ->
  wpa (applyKVChanges tableID) l t0 (replayed l0 tableID stream t0).
Proof.
  intros Hs. eapply wpa_mono; [apply applyKVChanges_steps|].
  intros o l' t' [Ht Hok]. exists [], []. split; [constructor|].
  simpl. rewrite Ht. split; [reflexivity|].
  intros Ho. destruct (Hok Ho) as [Hp Hs']. split; [reflexivity|].
  split; [exact Hp|]. eapply sameSetup_trans; eassumption.
Qed.

(** The loop, whatever the events and however it ends. *)
Lemma restoreTableFromPuller_replayed (puller : list PullResult) :
  (forall item, In (PullItem item) puller -> In (PullItem item) stream) ->
  forall l t0, sameSetup l0 l ->
    wpa (restoreTableFromPuller tableID puller) l t0
      (replayed l0 tableID stream t0).
Proof.
  induction puller as [|[item|msg] rest IH]; intros Hsub l t0 Hs.
  - now apply flush_replayed.
  - assert (Hrest : forall l1 t1, sameSetup l0 l1 ->
              wpa (restoreTableFromPuller tableID rest) l1 t1
                (replayed l0 tableID stream t1)).
    { apply IH. intros it Hit. apply Hsub. now right. }
    assert (Hin : In (PullItem item) stream) by (apply Hsub; now left).
    clear IH Hsub. cbn [restoreTableFromPuller]. apply wpa_bind, wpa_get.
    destruct (TS item <? startTS l) eqn:Elo; [now apply Hrest|].
    destruct (endTS l <? TS item) eqn:Ehi; [now apply flush_replayed|].
    destruct (shouldFilter l item).
    { apply wpa_bind. eapply wpa_mono; [apply applyKVChanges_steps|].
      intros [[]|s] l1 t1 [Ht Hok]; [|now apply replayed_stop].
      destruct (Hok eq_refl) as [_ Hs1].
      eapply wpa_mono;
        [apply Hrest; eapply sameSetup_trans; eassumption|].
      intros o l2 t2. now apply replayed_same. }
    destruct (Data item) as [ddl|row] eqn:Ed.
    + destruct (ParseQuoteName _) as [schema table] eqn:Ep.
      destruct (negb _) eqn:Erel; [now apply Hrest|].
      destruct (isDBRelatedDDL ddl) eqn:Edb; [now apply Hrest|].
      assert (Hgood : replayedDDL l0 tableID stream item).
      { destruct Hs as (_ & Hst & Hen & Hm & _).
        split; [exact Hin|]. split.
        - unfold tableDDLOf. rewrite Ed, <- Hm, Ep, Edb.
          apply negb_false_iff in Erel. rewrite orb_false_r in Erel.
          now rewrite Erel.
        - unfold tsInRange. rewrite <- Hst, <- Hen.
          apply Z.ltb_ge in Elo, Ehi. apply andb_true_iff.
          split; apply Z.leb_le; lia. }
      assert (Hq : queryOf item = Query ddl) by (unfold queryOf; now rewrite Ed).
      unfold executeTableDDL.
      apply wpa_bind. eapply wpa_mono; [apply applyKVChanges_steps|].
      intros [[]|s] l1 t1 [Ht1 Hok]; [|now apply replayed_stop].
      destruct (Hok eq_refl) as [_ Hs1].
      assert (Hs01 : sameSetup l0 l1) by (eapply sameSetup_trans; eassumption).
      clear Hok Hs1.
      (* Lock *)
      apply wpa_bind. unfold Lock. apply wpa_bind, wpa_get.
      destruct (ddlLock l1) eqn:Elock.
      { apply wpa_halt. now apply replayed_stop. }
      apply wpa_bind, wpa_modify, wpa_emit.
      (* use <schema> *)
      apply wpa_bind. unfold Execute at 1.
      apply wpa_bind, wpa_emit. apply wpa_bind, wpa_get.
      destruct (seExecute _ _) as [w1 [e1|]].
      { apply wpa_bind, wpa_modify, wpa_fail.
        exists [item], [EvExecute (queryOf item); EvUnlock].
        split; [now constructor|]. split; [|discriminate].
        rewrite !ddlSteps_app, Ht1. simpl. now rewrite <- !app_assoc. }
      apply wpa_modify.
      (* the statement *)
      apply wpa_bind. unfold Execute at 1.
      apply wpa_bind, wpa_emit. apply wpa_bind, wpa_get.
      destruct (seExecute _ _) as [w2 [e2|]].
      { apply wpa_bind, wpa_modify, wpa_fail.
        exists [item], [EvUnlock].
        split; [now constructor|]. split; [|discriminate].
        rewrite !ddlSteps_app, Ht1. cbn [fmap list_fmap concat].
        unfold ddlBlock. rewrite Hq. simpl.
        now rewrite <- !app_assoc. }
      apply wpa_modify.
      (* Unlock *)
      apply wpa_bind. unfold Unlock. apply wpa_bind, wpa_get.
      cbn [ddlLock setWorld setLock].
      apply wpa_bind, wpa_modify, wpa_emit.
      set (t2 := (((t1 ++ [EvLock]) ++ [EvExecute ("use " +:+ Schema item)])
                  ++ [EvExecute (Query ddl)]) ++ [EvUnlock]).
      set (l2 := setLock false (setWorld w2 (setWorld w1 (setLock true l1)))).
      assert (Ht2 : ddlSteps t2 = ddlSteps t0 ++ concat (ddlBlock <$> [item])).
      { unfold t2. rewrite !ddlSteps_app, Ht1. cbn [fmap list_fmap concat].
        unfold ddlBlock. rewrite Hq.
        simpl. now rewrite <- !app_assoc. }
      assert (Hs2 : sameSetup l0 l2).
      { destruct Hs01 as (Hl & Hrest'). split; [|exact Hrest'].
        simpl. now rewrite <- Elock. }
      assert (Hcont : forall l3 t3, sameSetup l0 l3 -> ddlSteps t3 = ddlSteps t2 ->
                wpa (restoreTableFromPuller tableID rest) l3 t3
                  (replayed l0 tableID stream t0)).
      { intros l3 t3 Hs3 Ht3. eapply wpa_mono; [now apply Hrest|].
        intros o l4 t4. apply (replayed_pre [item]); [now constructor|].
        now rewrite Ht3. }
      destruct (isDropTable ddl).
      * apply wpa_bind, wpa_get.
        destruct (tableBuffers l2 !! tableID) as [tb|].
        -- apply wpa_bind, wpa_modify. now apply Hcont.
        -- apply wpa_halt. exists [item], [].
           split; [now constructor|]. split; [|discriminate].
           now rewrite app_nil_r.
      * apply wpa_bind. eapply wpa_mono; [apply reloadTableMeta_steps|].
        intros [[]|s] l3 t3 [-> Hs3].
        -- apply Hcont; [eapply sameSetup_trans; eassumption|reflexivity].
        -- exists [item], []. split; [now constructor|].
           split; [|discriminate]. now rewrite app_nil_r.
    + unfold appendRow. apply wpa_bind, wpa_get.
      destruct (tableBuffers l !! tableID) as [tb|];
        [|apply wpa_halt; now apply replayed_stop].
      apply wpa_bind.
      assert (Hfirst :
        wpa (match TableInfo tb with
             | Some _ => ret tt
             | None => reloadTableMeta tableID item
             end) l t0 (fun _ l' t' => t' = t0 /\ sameSetup l l')).
      { destruct (TableInfo tb); [|apply reloadTableMeta_steps].
        apply wpa_ret. split; [reflexivity|apply sameSetup_refl]. }
      eapply wpa_mono; [exact Hfirst|].
      intros [[]|s] l1 t1 [-> Hs1]; [|now apply replayed_stop].
      apply wpa_bind. eapply wpa_mono; [apply Append_steps|].
      intros [[]|s] l2 t2 [Ht2 Hs2]; [|now apply replayed_stop].
      apply wpa_bind, wpa_get.
      destruct (tableBuffers l2 !! tableID) as [tb'|];
        [|apply wpa_halt; now apply replayed_stop].
      assert (Hs02 : sameSetup l0 l2).
      { eapply sameSetup_trans; [exact Hs|].
        eapply sameSetup_trans; eassumption. }
      apply wpa_bind. destruct (ShouldApply tb').
      * eapply wpa_mono; [apply applyKVChanges_steps|].
        intros [[]|s] l3 t3 [Ht3 Hok]; [|apply replayed_stop; congruence].
        destruct (Hok eq_refl) as [_ Hs3].
        eapply wpa_mono;
          [apply Hrest; eapply sameSetup_trans; eassumption|].
        intros o l4 t4. apply replayed_same. congruence.
      * apply wpa_ret. eapply wpa_mono; [now apply Hrest|].
        intros o l4 t4. now apply replayed_same.
  - cbn [restoreTableFromPuller]. apply wpa_fail. now apply replayed_stop.
Qed.

End Loop.

Lemma restoreTableFromPuller_ends (tableID : Z) (puller : list PullResult) l :
  let r := restoreTableFromPuller tableID puller l in
  replayed l tableID puller [] (outcomeOf r) (stateOf r) (traceOf r).
Proof.
  cbv zeta.
  exact (proj1 (wpa_run _ l _)
           (restoreTableFromPuller_replayed tableID l puller puller
              (fun _ Hin => Hin) l [] (sameSetup_refl l))).
Qed.

(** X11. A replay of a table that returns normally has flushed everything:
    no pair is left pending in the table's buffer. It leaves the DDL lock,
    the window, the metadata and the drop fences as they were. *)
Theorem replay_success_leaves_nothing_pending (tableID : Z)
    (puller : list PullResult) (l : LogClient) :
  let r := restoreTableFromPuller tableID puller l in
  outcomeOf r = Ok tt ->
  pending (stateOf r) tableID = [] /\ sameSetup l (stateOf r).
Proof.
  cbv zeta. intros Ho.
  destruct (restoreTableFromPuller_ends tableID puller l)
    as (items & rest & _ & _ & Hok).
  now destruct (Hok Ho) as (_ & Hp & Hs).
Qed.

(** X12. In every replay of a table, the statements are executed inside
    the DDL lock, two per executed event: the lock and statement events of
    the run are, in order, blocks of [Lock], [use <schema>], the statement,
    [Unlock], one for each executed table-level DDL event of the stream
    (inside the window, of this table's schema and name, not
    database-level); the last block is cut short when the run stops in it,
    and when the run returns no block is cut. *)
Theorem replay_executes_ddl_under_lock (tableID : Z)
    (puller : list PullResult) (l : LogClient) :
  let r := restoreTableFromPuller tableID puller l in
  exists items rest,
    Forall (replayedDDL l tableID puller) items
    /\ ddlSteps (traceOf r) ++ rest = concat (ddlBlock <$> items)
    /\ (outcomeOf r = Ok tt -> rest = []).
Proof.
  cbv zeta.
  destruct (restoreTableFromPuller_ends tableID puller l)
    as (items & rest & Hall & Hsteps & Hok).
  exists items, rest. split; [exact Hall|]. split; [exact Hsteps|].
  intros Ho. now destruct (Hok Ho).
Qed.

End ReplayOutcome.

(** ** Reloading the descriptor of a table *)

Section ReloadedMeta.
Import Go kv cdclog restore.
Context `{Collaborators}.

(** X10. When the buffer of the table holds a table ID that the reloaded
    catalog does not know, [reloadTableMeta] returns no error (the error it
    returns there is the nil error of the reload): the call succeeds,
    nothing is attached, and the buffer keeps the descriptor it had. *)
Theorem reloadTableMeta_unknown_id_is_silent (tableID : Z) (item : SortItem)
    (l : LogClient) (tb : TableBuffer) :
  tableBuffers l !! tableID = Some tb ->
  snd (domReload (restoreClient l)) = None ->
  TableID tb <> 0 ->
  TableByID (fst (domReload (restoreClient l))) (TableID tb) = None ->
  reloadTableMeta tableID item l
  = (Ok tt, setWorld (fst (domReload (restoreClient l))) l, []).
Proof.
  intros Htb Hreload Hid Hunknown. unfold reloadTableMeta.
  rewrite bind_get. destruct (domReload (restoreClient l)) as [w e].
  cbn [fst snd] in *. subst e.
  unfold bind, modify, get, ret. cbn [tableBuffers setWorld]. rewrite Htb.
  apply Z.eqb_neq in Hid. rewrite Hid. cbn [negb]. now rewrite Hunknown.
Qed.

End ReloadedMeta.

(** ** The pullers and buffers [RestoreLogData] creates *)

Section CreatedBuffers.
Import Go kv cdclog restore.
Context `{Collaborators}.

(** What the loop leaves alone, and what it has set for the tables it
    went through. *)
Lemma createPullers_creates (ddlFiles : list string)
    (tables : list (Z * list string)) l t0 :
  wpa (createPullers ddlFiles tables) l t0
    (fun o l' t' =>
       t' = t0 /\ restoreClient l' = restoreClient l /\ meta l' = meta l
       /\ BatchFlushKVPairs l' = BatchFlushKVPairs l
       /\ BatchFlushKVSize l' = BatchFlushKVSize l
       /\ sameSetup l l'
       /\ (forall tableID,
             ~ In tableID (fst <$> tables) ->
             eventPullers l' !! tableID = eventPullers l !! tableID
             /\ tableBuffers l' !! tableID = tableBuffers l !! tableID)
       /\ (o = Ok tt ->
           forall tableID, In tableID (fst <$> tables) ->
             is_Some (eventPullers l' !! tableID)
             /\ tableBuffers l' !! tableID
                = Some (NewTableBuffer (resolvedAtStart l tableID)
                          (BatchFlushKVPairs l) (BatchFlushKVSize l)))).
Proof.
  revert l t0. induction tables as [|[tid files] tables IH]; intros l t0.
  - apply wpa_ret. split; [reflexivity|]. split; [reflexivity|].
    split; [reflexivity|]. split; [reflexivity|]. split; [reflexivity|].
    split; [apply sameSetup_refl|]. split; [auto|]. intros _ tableID [].
  - cbn [createPullers]. apply wpa_bind, wpa_get.
    destruct (ParseQuoteName _) as [schema table] eqn:Ep.
    assert (Hstop : forall s l1,
      restoreClient l1 = restoreClient l -> meta l1 = meta l ->
      BatchFlushKVPairs l1 = BatchFlushKVPairs l ->
      BatchFlushKVSize l1 = BatchFlushKVSize l -> sameSetup l l1 ->
      (forall tableID, tableID <> tid ->
         eventPullers l1 !! tableID = eventPullers l !! tableID
         /\ tableBuffers l1 !! tableID = tableBuffers l !! tableID) ->
      t0 = t0 /\ restoreClient l1 = restoreClient l /\ meta l1 = meta l
      /\ BatchFlushKVPairs l1 = BatchFlushKVPairs l
      /\ BatchFlushKVSize l1 = BatchFlushKVSize l
      /\ sameSetup l l1
      /\ (forall tableID,
            ~ In tableID (fst <$> (tid, files) :: tables) ->
            eventPullers l1 !! tableID = eventPullers l !! tableID
            /\ tableBuffers l1 !! tableID = tableBuffers l !! tableID)
      /\ (Halt s = Ok tt ->
          forall tableID, In tableID (fst <$> (tid, files) :: tables) ->
            is_Some (eventPullers l1 !! tableID)
            /\ tableBuffers l1 !! tableID
               = Some (NewTableBuffer (resolvedAtStart l tableID)
                         (BatchFlushKVPairs l) (BatchFlushKVSize l)))).
    { intros s l1 Hw Hm Hp Hz Hs Hother.
      split; [reflexivity|]. split; [exact Hw|]. split; [exact Hm|].
      split; [exact Hp|]. split; [exact Hz|]. split; [exact Hs|].
      split; [|discriminate].
      intros tableID Hnot. apply Hother. intros ->. apply Hnot. now left. }
    destruct (NewEventPuller schema table ddlFiles files) as [puller|e].
    2:{ apply wpa_fail. apply Hstop; try reflexivity; [apply sameSetup_refl|auto]. }
    apply wpa_bind, wpa_modify. apply wpa_bind.
    assert (Hpuller : forall tableID, tableID <> tid ->
      eventPullers (setPuller tid puller l) !! tableID = eventPullers l !! tableID
      /\ tableBuffers (setPuller tid puller l) !! tableID
         = tableBuffers l !! tableID).
    { intros tableID Hne. simpl. now rewrite lookup_insert_ne. }
    assert (Hnext :
      wpa (modify (setBuffer tid
                     (NewTableBuffer (resolvedAtStart l tid)
                        (BatchFlushKVPairs l) (BatchFlushKVSize l))) ;;
           createPullers ddlFiles tables)
        (setPuller tid puller l) t0
        (fun o l' t' =>
           t' = t0 /\ restoreClient l' = restoreClient l /\ meta l' = meta l
           /\ BatchFlushKVPairs l' = BatchFlushKVPairs l
           /\ BatchFlushKVSize l' = BatchFlushKVSize l
           /\ sameSetup l l'
           /\ (forall tableID,
                 ~ In tableID (fst <$> (tid, files) :: tables) ->
                 eventPullers l' !! tableID = eventPullers l !! tableID
                 /\ tableBuffers l' !! tableID = tableBuffers l !! tableID)
           /\ (o = Ok tt ->
               forall tableID, In tableID (fst <$> (tid, files) :: tables) ->
                 is_Some (eventPullers l' !! tableID)
                 /\ tableBuffers l' !! tableID
                    = Some (NewTableBuffer (resolvedAtStart l tableID)
                              (BatchFlushKVPairs l) (BatchFlushKVSize l))))).
    { apply wpa_bind, wpa_modify. eapply wpa_mono; [apply IH|].
      set (l1 := setBuffer tid _ (setPuller tid puller l)).
      intros o l' t' (-> & Hw & Hm & Hp & Hz & Hs & Hother & Hok).
      assert (Hres : forall tableID,
                resolvedAtStart l1 tableID = resolvedAtStart l tableID)
        by reflexivity.
      split; [reflexivity|]. split; [exact Hw|]. split; [exact Hm|].
      split; [exact Hp|]. split; [exact Hz|]. split; [exact Hs|]. split.
      - intros tableID Hnot.
        assert (Hne : tableID <> tid) by (intros ->; apply Hnot; now left).
        assert (Hnot' : ~ In tableID (fst <$> tables))
          by (intros Hin; apply Hnot; now right).
        destruct (Hother _ Hnot') as [E1 E2]. rewrite E1, E2. unfold l1. simpl.
        now rewrite !lookup_insert_ne.
      - intros Ho tableID Hin.
        destruct (in_dec Z.eq_dec tableID (fst <$> tables)) as [Hlater|Hnot].
        + destruct (Hok Ho _ Hlater) as [E1 E2]. split; [exact E1|].
          rewrite E2. reflexivity.
        + destruct Hin as [Heq|Hin]; [|contradiction]. simpl in Heq. subst tableID.
          destruct (Hother _ Hnot) as [E1 E2]. rewrite E1, E2. unfold l1. simpl.
          rewrite !lookup_insert_eq. split; [eauto|reflexivity]. }
    unfold resolvedAtStart, namesOf in Hnext. rewrite Ep in Hnext.
    destruct (TableExists (restoreClient l) schema table).
    + destruct (TableByName (restoreClient l) schema table) as [tbl|e].
      * destruct (SchemaByName (restoreClient l) schema).
        -- apply wpa_ret. exact Hnext.
        -- apply wpa_fail. apply Hstop; try reflexivity;
             [repeat split|exact Hpuller].
      * apply wpa_fail. apply Hstop; try reflexivity;
          [repeat split|exact Hpuller].
    + apply wpa_ret. exact Hnext.
Qed.

(** X13. When the loop of [RestoreLogData] that creates the pullers
    returns, every table with collected files has a puller and a fresh
    buffer: empty, with the thresholds of the configuration, resolved to
    the table of that name when the cluster had one and unresolved
    otherwise. The pullers and buffers of the other tables, the cluster and
    the setup are as they were, and nothing was emitted. *)
Theorem createPullers_gives_each_table_a_buffer (ddlFiles : list string)
    (tables : list (Z * list string)) (l : LogClient) :
  let r := createPullers ddlFiles tables l in
  traceOf r = [] /\ restoreClient (stateOf r) = restoreClient l
  /\ sameSetup l (stateOf r)
  /\ (forall tableID,
        ~ In tableID (fst <$> tables) ->
        eventPullers (stateOf r) !! tableID = eventPullers l !! tableID
        /\ tableBuffers (stateOf r) !! tableID = tableBuffers l !! tableID)
  /\ (outcomeOf r = Ok tt ->
      forall tableID, In tableID (fst <$> tables) ->
        is_Some (eventPullers (stateOf r) !! tableID)
        /\ tableBuffers (stateOf r) !! tableID
           = Some (NewTableBuffer (resolvedAtStart l tableID)
                     (BatchFlushKVPairs l) (BatchFlushKVSize l))).
Proof.
  cbv zeta.
  destruct (proj1 (wpa_run _ l _) (createPullers_creates ddlFiles tables l []))
    as (Ht & Hw & _ & _ & _ & Hs & Hother & Hok).
  auto.
Qed.

End CreatedBuffers.

(** ** The flush, the reload and the replay on the backup of [scenario] *)

Section OutcomeScenario.
Import kv cdclog restore scenario.


(** On the cluster of [demo] the flush returns, and a second flush finds
    nothing to do. *)
Lemma applyKVChanges_twice_witness :
  traceOf (applyKVChanges (H := demo) 45 loadedClient)
  = [EvIngest [{| Key := [x6b]; Val := [x32] |}]]
  /\ applyKVChanges (H := demo) 45
       (stateOf (applyKVChanges (H := demo) 45 loadedClient))
     = (Ok tt, stateOf (applyKVChanges (H := demo) 45 loadedClient), []).
Proof.
  split; [vm_compute; reflexivity|].
  exact (applyKVChanges_twice (H := demo) 45 loadedClient eq_refl).
Defined.

(** The catalog of [staleCatalog] does not know the table of ID 45 the
    buffer is resolved to: the reload succeeds and the buffer keeps the
    stale descriptor. *)
Lemma reloadTableMeta_unknown_id_witness :
  reloadTableMeta (H := staleCatalog) 45 (rowAt 150 [x62]) staleClient
  = (Ok tt, staleClient, [])
  /\ TableInfo <$> (tableBuffers staleClient !! 45)
     = Some (Some {| TableMetaID := 45 |}).
Proof.
  split; [|vm_compute; reflexivity].
  exact (reloadTableMeta_unknown_id_is_silent (H := staleCatalog) 45
           (rowAt 150 [x62]) staleClient
           (NewTableBuffer (Some {| TableMetaID := 45 |}) 10 1000)
           eq_refl eq_refl ltac:(discriminate) eq_refl).
Defined.

(** The replay of a stream with one row inside the window returns with
    the row ingested and nothing pending. *)
Lemma replay_success_witness :
  let r := restoreTableFromPuller (H := demo) 45
             [PullItem (rowAt 90 [x61]); PullItem (rowAt 150 [x62]);
              PullItem (rowAt 250 [x63])] demoClient in
  outcomeOf r = Ok tt
  /\ pending (stateOf r) 45 = [] /\ sameSetup demoClient (stateOf r).
Proof.
  cbv zeta. split; [vm_compute; reflexivity|].
  exact (replay_success_leaves_nothing_pending (H := demo) 45
           [PullItem (rowAt 90 [x61]); PullItem (rowAt 150 [x62]);
            PullItem (rowAt 250 [x63])] demoClient eq_refl).
Defined.

End OutcomeScenario.

(** ** The record [Encode] builds *)

Section EncodedRecord.
Import Go kv sql2kv.
Context `{EncoderDeps}.

Lemma addedRecords_app (t1 t2 : list EncEvent) :
  addedRecords (t1 ++ t2) = addedRecords t1 ++ addedRecords t2.
Proof. apply omap_app. Qed.

Lemma addedRecords_fill (t : list EncEvent) :
  Forall fillsRecord t -> addedRecords t = [].
Proof.
  induction 1 as [|e t He _ IH]; [reflexivity|].
  destruct e; simpl in He; try contradiction; exact IH.
Qed.

(** The first loop appends one value per column, the value of
    [columnValue]. *)
Lemma encodeColumns_values (kvcodec : tableKVEncoder) (row : list Datum)
    (rowID : Z) (perm : list Z) (rest : list Column) (i : nat)
    (record record' : list Datum) (t : list EncEvent) :
  encodeColumns kvcodec row rowID perm i rest record = (Done record', t) ->
  exists values,
    record' = record ++ values /\ length values = length rest
    /\ forall k v, values !! k = Some v ->
         columnValue kvcodec row rowID perm (i + k) = Done v.
Proof.
  revert i record t. induction rest as [|col rest IH]; intros i record t.
  - simpl. intros [= <- <-]. exists []. rewrite app_nil_r.
    split; [reflexivity|]. split; [reflexivity|]. intros k v Hk.
    now rewrite lookup_nil in Hk.
  - cbn [encodeColumns]. destruct (perm !! i) as [j|] eqn:Ej; [|discriminate].
    destruct (getActualDatum kvcodec rowID i (rowAt row j)) as [value|e|] eqn:Eg;
      try discriminate.
    assert (Hnext : forall t0 t',
      (let '(r, t1) := encodeColumns kvcodec row rowID perm (S i) rest
                         (record ++ [value]) in (r, t0 ++ t1))
      = (Done record', t') ->
      exists values,
        record' = record ++ values /\ length values = length (col :: rest)
        /\ forall k v, values !! k = Some v ->
             columnValue kvcodec row rowID perm (i + k) = Done v).
    { intros t0 t'.
      destruct (encodeColumns kvcodec row rowID perm (S i) rest (record ++ [value]))
        as [r t1] eqn:Erest.
      intros [= -> _]. destruct (IH _ _ _ Erest) as (values & -> & Hlen & Hval).
      exists (value :: values). rewrite <- app_assoc.
      split; [reflexivity|]. split; [simpl; now rewrite Hlen|].
      intros [|k] v Hk.
      - injection Hk as <-. unfold columnValue.
        now rewrite Nat.add_0_r, Ej.
      - rewrite Nat.add_succ_r. apply (Hval k v Hk). }
    assert (Hinc : forall t0 t',
      (if isAutoIncCol col
       then match getAutoRecordID value col with
            | Some v =>
                match Rebase AutoIncrementType v with
                | Some e => (Error e, t0 ++ [EvRebase AutoIncrementType v])
                | None =>
                    let '(r, t1) := encodeColumns kvcodec row rowID perm (S i)
                                      rest (record ++ [value]) in
                    (r, (t0 ++ [EvRebase AutoIncrementType v]) ++ t1)
                end
            | None => (Panic, t0)
            end
       else let '(r, t1) := encodeColumns kvcodec row rowID perm (S i) rest
                              (record ++ [value]) in (r, t0 ++ t1))
      = (Done record', t') ->
      exists values,
        record' = record ++ values /\ length values = length (col :: rest)
        /\ forall k v, values !! k = Some v ->
             columnValue kvcodec row rowID perm (i + k) = Done v).
    { intros t0 t'. destruct (isAutoIncCol col); [|apply Hnext].
      destruct (getAutoRecordID value col) as [v|]; [|discriminate].
      destruct (Rebase AutoIncrementType v); [discriminate|apply Hnext]. }
    destruct (isAutoRandomCol kvcodec col).
    + destruct (Rebase AutoRandomType _); [discriminate|apply Hinc].
    + apply Hinc.
Qed.

Lemma encodeRowID_values (kvcodec : tableKVEncoder) (row : list Datum)
    (rowID : Z) (perm : list Z) (record record' : list Datum)
    (t : list EncEvent) :
  encodeRowID kvcodec row rowID perm record = (Done record', t) ->
  exists value, record' = record ++ [value].
Proof.
  unfold encodeRowID. destruct (perm !! _) as [j|]; [|discriminate].
  destruct (rowAt row j) as [d|].
  - destruct (CastExtraHandle d) as [value|e]; [|discriminate].
    destruct (Rebase RowIDAllocType _); [discriminate|].
    intros [= <- _]. eauto.
  - destruct (Rebase RowIDAllocType _); [discriminate|].
    intros [= <- _]. eauto.
Qed.

(** The evaluation keeps the length of the record, writes the slots of the
    generated columns only, and hands nothing to [AddRecord]. *)
Lemma evaluateGeneratedColumns_frame (cols : list Column) (gcs : list genCol)
    (record : list Datum) :
  let res := evaluateGeneratedColumns record cols gcs in
  length (fst (fst res)) = length record
  /\ (forall i, ~ In i (index <$> gcs) -> fst (fst res) !! i = record !! i)
  /\ addedRecords (snd (fst res)) = [].
Proof.
  cbv zeta. revert record. induction gcs as [|gc gcs IH]; intros record.
  - simpl. auto.
  - cbn [evaluateGeneratedColumns].
    destruct (cols !! index gc) as [col|]; [|simpl; auto].
    destruct (Eval (expr gc) record) as [evaluated|err]; [|simpl; auto].
    destruct (CastValue evaluated col) as [value|err]; [|simpl; auto].
    specialize (IH (<[index gc := value]> record)).
    destruct (evaluateGeneratedColumns _ cols gcs) as [[r t] e].
    cbn [fst snd] in *. destruct IH as (Hlen & Hframe & Hadd).
    split; [now rewrite Hlen, length_insert|]. split; [|exact Hadd].
    intros i Hi. rewrite Hframe.
    + apply list_lookup_insert_ne. intros Heq. apply Hi. now left.
    + intros Hin. apply Hi. now right.
Qed.

(** An evaluation that goes through leaves, in the slot of every
    generated column, the value it set there. *)
Lemma evaluateGeneratedColumns_sets (cols : list Column) (gcs : list genCol)
    (record : list Datum) :
  List.NoDup (index <$> gcs) -> (length cols <= length record)%nat ->
  let res := evaluateGeneratedColumns record cols gcs in
  snd res = None ->
  forall i, In i (index <$> gcs) ->
    exists v, In (EvSetGen i v) (snd (fst res)) /\ fst (fst res) !! i = Some v.
Proof.
  cbv zeta. revert record. induction gcs as [|gc gcs IH]; intros record Hnd Hlen.
  - intros _ i [].
  - cbn [evaluateGeneratedColumns]. rewrite fmap_cons in Hnd.
    inversion Hnd as [|? ? Hfresh Hnd']; subst.
    destruct (cols !! index gc) as [col|] eqn:Ecol; [|discriminate].
    destruct (Eval (expr gc) record) as [evaluated|err]; [|discriminate].
    destruct (CastValue evaluated col) as [value|err]; [|discriminate].
    pose proof (evaluateGeneratedColumns_frame cols gcs
                  (<[index gc := value]> record)) as Hframe.
    specialize (IH (<[index gc := value]> record) Hnd'
                  ltac:(rewrite length_insert; exact Hlen)).
    cbv zeta in Hframe.
    destruct (evaluateGeneratedColumns _ cols gcs) as [[r t] e].
    cbn [fst snd] in *. destruct Hframe as (_ & Hsame & _).
    intros -> i [<-|Hin].
    + exists value. split; [right; now left|].
      rewrite (Hsame _ Hfresh). apply list_lookup_insert_eq.
      apply lookup_lt_Some in Ecol. lia.
    + destruct (IH eq_refl i Hin) as (v & Hv & Hr).
      exists v. split; [right; right; exact Hv|exact Hr].
Qed.

(** What [Encode] hands to [AddRecord], and when. *)
Lemma Encode_record (kvcodec : tableKVEncoder) (row : list Datum) (rowID : Z)
    (perm : list Z) :
  let r := Encode kvcodec row rowID perm in
  addedRecords (snd r) = []
  /\ (forall pairs, fst r <> Done pairs)
  \/ exists record t,
       snd r = t ++ [EvAddRecord record] /\ addedRecords t = []
       /\ fst r = match AddRecord record with
                  | inl pairs => Done pairs
                  | inr e => Error e
                  end
       /\ length record = recordLength kvcodec
       /\ (forall i, (i < length (tblCols kvcodec))%nat ->
             ~ In i (index <$> genCols kvcodec) ->
             exists v, columnValue kvcodec row rowID perm i = Done v
                       /\ record !! i = Some v)
       /\ (List.NoDup (index <$> genCols kvcodec) ->
           forall i, In i (index <$> genCols kvcodec) ->
             exists v, In (EvSetGen i v) t /\ record !! i = Some v).
Proof.
  cbv zeta. unfold Encode, recordLength.
  pose proof (encodeColumns_spec kvcodec row rowID perm (tblCols kvcodec) 0 [])
    as [Hfill1 _].
  destruct (encodeColumns kvcodec row rowID perm 0 (tblCols kvcodec) [])
    as [[record1|e|] t1] eqn:E1; cbn [fst snd] in *.
  2,3: left; split; [now apply addedRecords_fill|discriminate].
  destruct (encodeColumns_values _ _ _ _ _ _ _ _ _ E1)
    as (values & Hr1 & Hlen1 & Hval1).
  simpl in Hr1. subst record1.
  assert (Hstep2 : exists record2r t2,
    (if TableHasAutoRowID (tblMeta kvcodec)
     then encodeRowID kvcodec row rowID perm values
     else (Done values, [])) = (record2r, t2)
    /\ Forall fillsRecord t2
    /\ forall record2, record2r = Done record2 ->
         length record2
         = (length (tblCols kvcodec)
            + if TableHasAutoRowID (tblMeta kvcodec) then 1 else 0)%nat
         /\ forall i, (i < length (tblCols kvcodec))%nat ->
              record2 !! i = values !! i).
  { destruct (TableHasAutoRowID (tblMeta kvcodec)).
    - pose proof (encodeRowID_spec kvcodec row rowID perm values) as Hf.
      destruct (encodeRowID kvcodec row rowID perm values) as [r2 t2] eqn:E2.
      exists r2, t2. split; [reflexivity|]. split; [exact Hf|].
      intros record2 ->. destruct (encodeRowID_values _ _ _ _ _ _ _ E2)
        as [value ->].
      split; [rewrite length_app; simpl; lia|].
      intros i Hi. apply lookup_app_l. lia.
    - exists (Done values), []. split; [reflexivity|]. split; [constructor|].
      intros record2 [= <-]. split; [lia|reflexivity]. }
  destruct Hstep2 as (r2 & t2 & -> & Hfill2 & Hrec2).
  assert (Hfill12 : addedRecords (t1 ++ t2) = []).
  { rewrite addedRecords_app, !addedRecords_fill by assumption. reflexivity. }
  destruct r2 as [record2|e|].
  2,3: left; split; [exact Hfill12|discriminate].
  destruct (Hrec2 record2 eq_refl) as [Hlen2 Hsame2].
  assert (Hgen : exists record3 t3 genErr,
    match genCols kvcodec with
    | [] => (record2, [], None)
    | gc :: gcs =>
        evaluateGeneratedColumns record2 (tblCols kvcodec) (gc :: gcs)
    end = (record3, t3, genErr)
    /\ length record3 = length record2
    /\ (forall i, ~ In i (index <$> genCols kvcodec) ->
          record3 !! i = record2 !! i)
    /\ addedRecords t3 = []
    /\ (genErr = None -> List.NoDup (index <$> genCols kvcodec) ->
        forall i, In i (index <$> genCols kvcodec) ->
          exists v, In (EvSetGen i v) t3 /\ record3 !! i = Some v)).
  { pose proof (evaluateGeneratedColumns_frame (tblCols kvcodec)
                  (genCols kvcodec) record2) as Hframe.
    pose proof (fun Hnd => evaluateGeneratedColumns_sets (tblCols kvcodec)
                  (genCols kvcodec) record2 Hnd ltac:(lia)) as Hsets.
    cbv zeta in Hframe, Hsets.
    destruct (genCols kvcodec) as [|gc gcs] eqn:Eg.
    - exists record2, [], None. split; [reflexivity|]. split; [reflexivity|].
      split; [auto|]. split; [reflexivity|]. intros _ _ i [].
    - destruct (evaluateGeneratedColumns record2 (tblCols kvcodec) (gc :: gcs))
        as [[record3 t3] genErr].
      exists record3, t3, genErr. cbn [fst snd] in Hframe, Hsets.
      split; [reflexivity|]. split; [tauto|]. split; [tauto|].
      split; [tauto|]. intros He Hnd. now apply Hsets. }
  destruct Hgen as (record3 & t3 & genErr & -> & Hlen3 & Hsame3 & Hadd3 & Hset3).
  assert (Hfill123 : addedRecords (t1 ++ t2 ++ t3) = []).
  { rewrite app_assoc, addedRecords_app, Hfill12, Hadd3. reflexivity. }
  destruct genErr as [[[col|] e]|].
  1,2: left; split; [exact Hfill123|discriminate].
  right. exists record3, (t1 ++ t2 ++ t3).
  split; [destruct (AddRecord record3); now rewrite !app_assoc|].
  split; [exact Hfill123|].
  split; [now destruct (AddRecord record3)|].
  split; [congruence|]. split.
  - intros i Hi Hplain. rewrite Hsame3, Hsame2 by assumption.
    destruct (lookup_lt_is_Some_2 values i) as [v Hv]; [lia|].
    exists v. split; [|exact Hv]. exact (Hval1 i v Hv).
  - intros Hnd i Hi. destruct (Hset3 eq_refl Hnd i Hi) as (v & Hv & Hr).
    exists v. split; [|exact Hr].
    apply in_or_app. right. apply in_or_app. now right.
Qed.

(** X14. [Encode] calls [AddRecord] at most once, as the last thing it
    does, and its result is then the result of that call; it returns pairs
    only so. The record it hands over has one value per column of the
    table, and one more for the row ID when the table has an automatic
    one. *)
Theorem Encode_adds_one_full_record (kvcodec : tableKVEncoder)
    (row : list Datum) (rowID : Z) (columnPermutation : list Z) :
  let r := Encode kvcodec row rowID columnPermutation in
  (addedRecords (snd r) = [] \/ exists record, addedRecords (snd r) = [record])
  /\ (forall record, In (EvAddRecord record) (snd r) ->
        (exists t, snd r = t ++ [EvAddRecord record])
        /\ length record = recordLength kvcodec
        /\ fst r = match AddRecord record with
                   | inl pairs => Done pairs
                   | inr e => Error e
                   end)
  /\ (forall pairs, fst r = Done pairs ->
        exists record, In (EvAddRecord record) (snd r)
                       /\ AddRecord record = inl pairs).
Proof.
  cbv zeta.
  assert (Hin : forall t record,
            In (EvAddRecord record) t -> In record (addedRecords t)).
  { intros t record Ht. apply list_elem_of_In, list_elem_of_omap.
    exists (EvAddRecord record). split; [now apply list_elem_of_In|reflexivity]. }
  destruct (Encode_record kvcodec row rowID columnPermutation)
    as [[Hnone Hnot] | (record & t & Ht & Hadd & Hres & Hlen & _ & _)].
  - split; [now left|]. split.
    + intros record Hr. apply Hin in Hr. rewrite Hnone in Hr. destruct Hr.
    + intros pairs Hp. now destruct (Hnot pairs).
  - assert (Hall : addedRecords
                     (snd (Encode kvcodec row rowID columnPermutation))
                   = [record]).
    { rewrite Ht, addedRecords_app, Hadd. reflexivity. }
    split; [right; eauto|]. split.
    + intros record' Hr. apply Hin in Hr. rewrite Hall in Hr.
      destruct Hr as [<-|[]]. eauto.
    + intros pairs Hp. exists record. rewrite Ht. split.
      * apply in_or_app. right. now left.
      * rewrite Hres in Hp. destruct (AddRecord record); congruence.
Qed.

Lemma generatedFrom_In (cols : list Column) (start i : nat) :
  In i (generatedFrom start cols) ->
  exists col, cols !! (i - start)%nat = Some col /\ hasGeneratedExpr col = true
              /\ (start <= i)%nat.
Proof.
  revert start. induction cols as [|c cols IH]; intros start; simpl; [intros []|].
  assert (Hrest : In i (generatedFrom (S start) cols) ->
                  exists col, (c :: cols) !! (i - start)%nat = Some col
                              /\ hasGeneratedExpr col = true /\ (start <= i)%nat).
  { intros Hin. destruct (IH _ Hin) as (col & Hcol & Hg & Hle).
    exists col. replace (i - start)%nat with (S (i - S start)) by lia.
    split; [exact Hcol|]. split; [exact Hg|lia]. }
  destruct (hasGeneratedExpr c) eqn:Eg; [|exact Hrest].
  intros [<-|Hin]; [|now apply Hrest].
  exists c. rewrite Nat.sub_diag. auto.
Qed.

(** X16. In the record [Encode] hands to [AddRecord], the slot of a column
    that has no generated expression holds the value computed for that
    column from the row: the cast field the permutation names, or the
    value [getActualDatum] synthesizes. The evaluation of the generated
    columns does not touch it. *)
Theorem Encode_keeps_plain_values (cols : list Column) (meta : TableInfo)
    (autoRandomCol : Z) (idFn : Z -> Z) (kvcodec : tableKVEncoder)
    (row : list Datum) (rowID : Z) (columnPermutation : list Z)
    (record : list Datum) (i : nat) (col : Column) :
  NewTableKVEncoder cols meta autoRandomCol idFn = inl kvcodec ->
  In (EvAddRecord record) (snd (Encode kvcodec row rowID columnPermutation)) ->
  cols !! i = Some col -> hasGeneratedExpr col = false ->
  exists v,
    columnValue kvcodec row rowID columnPermutation i = Done v
    /\ record !! i = Some v.
Proof.
  intros Hnew Hin Hcol Hplain.
  assert (Hidx : tblCols kvcodec = cols
                 /\ Permutation (index <$> genCols kvcodec) (generatedFrom 0 cols)).
  { unfold NewTableKVEncoder in Hnew.
    destruct (collectGeneratedColumns cols) as [gcs|err] eqn:Egc; [|discriminate].
    injection Hnew as <-. split; [reflexivity|].
    apply (collectGeneratedColumns_sorted cols gcs Egc). }
  destruct Hidx as [Hcols Hperm].
  destruct (Encode_record kvcodec row rowID columnPermutation)
    as [[Hnone _] | (record' & t & Ht & Hadd & _ & _ & Hval & _)].
  - exfalso.
    assert (Hr : In record (addedRecords
                              (snd (Encode kvcodec row rowID columnPermutation)))).
    { apply list_elem_of_In, list_elem_of_omap. exists (EvAddRecord record).
      split; [now apply list_elem_of_In|reflexivity]. }
    rewrite Hnone in Hr. destruct Hr.
  - assert (record' = record).
    { assert (Hr : In record (addedRecords
                                (snd (Encode kvcodec row rowID columnPermutation)))).
      { apply list_elem_of_In, list_elem_of_omap. exists (EvAddRecord record).
        split; [now apply list_elem_of_In|reflexivity]. }
      rewrite Ht, addedRecords_app, Hadd in Hr. simpl in Hr.
      now destruct Hr as [->|[]]. }
    subst record'. apply Hval.
    + rewrite Hcols. apply lookup_lt_is_Some_1. eauto.
    + intros Hgen. apply (Permutation_in _ Hperm) in Hgen.
      apply generatedFrom_In in Hgen as (col' & Hcol' & Hg & _).
      rewrite Nat.sub_0_r in Hcol'. congruence.
Qed.

End EncodedRecord.

(** ** When [Encode] cannot panic *)

Section EncodeSafety.
Import Go kv sql2kv.
Context `{EncoderDeps}.





End EncodeSafety.

(** ** The encoder on the table of [scenario] *)

Section EncodedRecordScenario.
Import kv sql2kv sql2kv.scenario.
#[local] Existing Instance demoDeps.

(** The plain column [a] keeps the value of the row in the record that
    reaches [AddRecord]. *)
Lemma Encode_keeps_plain_values_witness :
  In (EvAddRecord [KindInt64 7; KindInt64 4; KindInt64 4; KindInt64 1])
     (snd (Encode demoEncoder [KindInt64 7] 1 [0; -1; -1; -1]))
  /\ exists v,
       columnValue demoEncoder [KindInt64 7] 1 [0; -1; -1; -1] 0 = Done v
       /\ [KindInt64 7; KindInt64 4; KindInt64 4; KindInt64 1] !! 0%nat = Some v.
Proof.
  assert (Hin : In (EvAddRecord [KindInt64 7; KindInt64 4; KindInt64 4; KindInt64 1])
                  (snd (Encode demoEncoder [KindInt64 7] 1 [0; -1; -1; -1]))).
  { vm_compute. tauto. }
  split; [exact Hin|].
  exact (Encode_keeps_plain_values demoCols demoMeta 0 (fun id => id)
           demoEncoder [KindInt64 7] 1 [0; -1; -1; -1]
           [KindInt64 7; KindInt64 4; KindInt64 4; KindInt64 1] 0
           (plain 1 0) eq_refl Hin eq_refl eq_refl).
Defined.


End EncodedRecordScenario.

(** ** Splitting rows into chunks *)

Section SplitChunks.
Import kvrows.

Lemma slice_nonempty (all : list KvPair) (i j : nat) :
  (i < j)%nat -> (i < length all)%nat -> slice all i j <> [].
Proof.
  intros Hij Hi. unfold slice. intros E.
  assert (Hlen : length (take (j - i) (drop i all)) = 0%nat) by now rewrite E.
  rewrite length_take, length_drop in Hlen. lia.
Qed.

Lemma take_slice (all : list KvPair) (i j : nat) :
  (i <= j)%nat -> take i all ++ slice all i j = take j all.
Proof.
  intros Hij. unfold slice. rewrite take_take_drop. f_equal. lia.
Qed.

Lemma drop_cons_next {A} (l : list A) (j : nat) (x : A) (rest : list A) :
  drop j l = x :: rest ->
  l !! j = Some x /\ drop (S j) l = rest /\ (j < length l)%nat.
Proof.
  intros Hd.
  assert (Hx : l !! j = Some x).
  { rewrite <- (Nat.add_0_r j), <- lookup_drop, Hd. reflexivity. }
  split; [exact Hx|]. split; [|eapply lookup_lt_Some, Hx].
  rewrite <- Nat.add_1_r, <- drop_drop, Hd. reflexivity.
Qed.

(** The loop cuts the pairs before [i] into chunks, in order. *)
Lemma splitLoop_partition (splitSize : Z) (all rest : list KvPair) (j : nat)
    (res : list KvPairs) (i : nat) (cumSize : Z) :
  drop j all = rest -> (i <= j)%nat -> (i < length all)%nat ->
  concat (pairs <$> res) = take i all ->
  Forall plainChunk res -> (i = 0%nat -> res = []) ->
  let out := splitLoop splitSize all rest j res i cumSize in
  concat (pairs <$> fst out) = take (snd out) all
  /\ (snd out < length all)%nat
  /\ Forall plainChunk (fst out)
  /\ (snd out = 0%nat -> fst out = []).
Proof.
  cbv zeta. revert j res i cumSize.
  induction rest as [|p rest IH]; intros j res i cumSize Hd Hij Hi Hc Hp H0.
  - simpl. auto.
  - apply drop_cons_next in Hd as (Hj & Hd & Hlt). cbn [splitLoop].
    destruct ((i <? j)%nat && (splitSize <? wrapInt (cumSize + pairLen p))) eqn:Ecut.
    + apply andb_true_iff in Ecut as [Elt _]. apply Nat.ltb_lt in Elt.
      apply IH; [exact Hd|lia|exact Hlt| | |lia].
      * rewrite fmap_app, concat_app, Hc. simpl. rewrite app_nil_r.
        apply take_slice. lia.
      * apply List.Forall_app. split; [exact Hp|]. constructor; [|constructor].
        split; [|split; reflexivity]. simpl. now apply slice_nonempty.
    + apply IH; [exact Hd|lia|exact Hi|exact Hc|exact Hp|exact H0].
Qed.

Lemma SplitIntoChunks_parts (kvs : KvPairs) (splitSize : Z) :
  let chunks := SplitIntoChunks kvs splitSize in
  concat (pairs <$> chunks) = pairs kvs
  /\ Forall (fun c => pairs c <> []) chunks
  /\ (chunks = [] <-> pairs kvs = [])
  /\ forall init final, chunks = init ++ [final] ->
       bytesBuf final = bytesBuf kvs /\ memBuf final = memBuf kvs
       /\ Forall (fun c => bytesBuf c = None /\ memBuf c = None) init.
Proof.
  cbv zeta. unfold SplitIntoChunks.
  destruct (pairs kvs) as [|p0 ps] eqn:Eall.
  { split; [reflexivity|]. split; [constructor|]. split; [tauto|].
    intros init final E. now destruct init. }
  rewrite <- Eall.
  pose proof (splitLoop_partition splitSize (pairs kvs) (pairs kvs) 0 [] 0 0
                eq_refl (Nat.le_refl _) ltac:(rewrite Eall; simpl; lia)
                eq_refl (List.Forall_nil _) (fun _ => eq_refl)) as Hloop.
  cbv zeta in Hloop.
  destruct (splitLoop splitSize (pairs kvs) (pairs kvs) 0 [] 0 0) as [res i].
  cbn [fst snd] in Hloop. destruct Hloop as (Hc & Hi & Hp & H0).
  assert (Hplain : Forall (fun c => pairs c <> []) res
                   /\ Forall (fun c => bytesBuf c = None /\ memBuf c = None) res).
  { split; eapply List.Forall_impl; try exact Hp; intros c (? & ? & ?); auto. }
  destruct Hplain as [Hne Hnobuf].
  set (final := if (i =? 0)%nat then kvs
                else {| pairs := drop i (pairs kvs); bytesBuf := bytesBuf kvs;
                        memBuf := memBuf kvs |}).
  assert (Hchunks : (if (i =? 0)%nat then res ++ [kvs]
                     else res ++ [{| pairs := drop i (pairs kvs);
                                     bytesBuf := bytesBuf kvs;
                                     memBuf := memBuf kvs |}])
                    = res ++ [final]).
  { unfold final. now destruct (i =? 0)%nat. }
  rewrite Hchunks.
  assert (Hfinal : pairs final = drop i (pairs kvs)
                   /\ bytesBuf final = bytesBuf kvs /\ memBuf final = memBuf kvs).
  { unfold final. destruct (i =? 0)%nat eqn:E0; [|auto].
    apply Nat.eqb_eq in E0. subst i. auto. }
  destruct Hfinal as (Hfp & Hfb & Hfm).
  split; [|split; [|split]].
  - rewrite fmap_app, concat_app, Hc. simpl. rewrite app_nil_r, Hfp.
    apply take_drop.
  - apply List.Forall_app. split; [exact Hne|]. constructor; [|constructor].
    rewrite Hfp. intros E. apply drop_nil_inv in E. lia.
  - split; [intros E; now destruct res|]. rewrite Eall. discriminate.
  - intros init final' E. apply app_inj_tail in E as [<- <-]. auto.
Qed.

(** X17. [SplitIntoChunks] cuts the pairs into consecutive chunks: put
    end to end, the chunks are the pairs, in order; no chunk is empty; no
    pairs give no chunk (nil). Only the last chunk carries the buffers of
    the rows; the chunks before it carry none. *)
Theorem SplitIntoChunks_partitions (kvs : KvPairs) (splitSize : Z) :
  let chunks := SplitIntoChunks kvs splitSize in
  concat (pairs <$> chunks) = pairs kvs
  /\ Forall (fun c => pairs c <> []) chunks
  /\ (chunks = [] <-> pairs kvs = [])
  /\ forall init final, chunks = init ++ [final] ->
       bytesBuf final = bytesBuf kvs /\ memBuf final = memBuf kvs
       /\ Forall (fun c => bytesBuf c = None /\ memBuf c = None) init.
Proof. exact (SplitIntoChunks_parts kvs splitSize). Qed.

Lemma wrapInt_small (x : Z) : - 2 ^ 63 <= x < 2 ^ 63 -> wrapInt x = x.
Proof. intros Hx. unfold wrapInt. rewrite Z.mod_small; lia. Qed.

Lemma pairSize_nonneg (p : KvPair) : 0 <= pairSize p.
Proof. unfold pairSize. lia. Qed.

Lemma sizeOf_nonneg (ps : list KvPair) : 0 <= sizeOf ps.
Proof.
  induction ps as [|p ps IH]; simpl; [lia|].
  pose proof (pairSize_nonneg p). lia.
Qed.

Lemma sizeOf_app (ps qs : list KvPair) : sizeOf (ps ++ qs) = sizeOf ps + sizeOf qs.
Proof. induction ps as [|p ps IH]; simpl; [reflexivity|]. rewrite IH. ring. Qed.

Lemma sizeOf_take_drop (ps : list KvPair) (n : nat) :
  sizeOf ps = sizeOf (take n ps) + sizeOf (drop n ps).
Proof. now rewrite <- sizeOf_app, take_drop. Qed.

Lemma sizeOf_slice_le (all : list KvPair) (i j : nat) :
  sizeOf (slice all i j) <= sizeOf all.
Proof.
  unfold slice. rewrite (sizeOf_take_drop all i).
  rewrite (sizeOf_take_drop (drop i all) (j - i)).
  pose proof (sizeOf_nonneg (take i all)).
  pose proof (sizeOf_nonneg (drop (j - i) (drop i all))). lia.
Qed.

Lemma slice_snoc (all : list KvPair) (i j : nat) (p : KvPair) :
  (i <= j)%nat -> all !! j = Some p ->
  slice all i (S j) = slice all i j ++ [p].
Proof.
  intros Hij Hj. unfold slice. replace (S j - i)%nat with (S (j - i)) by lia.
  apply take_S_r. rewrite lookup_drop. now replace (i + (j - i))%nat with j by lia.
Qed.

Lemma slice_empty (all : list KvPair) (i : nat) : slice all i i = [].
Proof. unfold slice. now rewrite Nat.sub_diag. Qed.

Lemma slice_length (all : list KvPair) (i j : nat) :
  (j <= length all)%nat -> length (slice all i j) = (j - i)%nat.
Proof. intros Hj. unfold slice. rewrite length_take, length_drop. lia. Qed.

Lemma greedy_snoc (splitSize : Z) (cs : list (list KvPair)) (c : list KvPair) :
  greedy splitSize cs ->
  (forall c1, last cs = Some c1 ->
     exists p, head c = Some p /\ splitSize < sizeOf c1 + pairSize p) ->
  greedy splitSize (cs ++ [c]).
Proof.
  induction cs as [|c1 cs IH]; intros Hg Hlast; [exact I|].
  destruct cs as [|c2 cs].
  - simpl. split; [|exact I]. now apply Hlast.
  - destruct Hg as [Hlink Hg]. split; [exact Hlink|].
    apply IH; [exact Hg|]. intros c' Hc'. apply Hlast. exact Hc'.
Qed.

(** The loop when the sizes do not overflow: every chunk it cuts is
    within the size or of one pair, and was cut because the next pair did
    not fit. *)
Lemma splitLoop_sizes (splitSize : Z) (all rest : list KvPair) (j : nat)
    (res : list KvPairs) (i : nat) (cumSize : Z) :
  sizeOf all < 2 ^ 63 ->
  drop j all = rest -> (i <= j)%nat ->
  cumSize = sizeOf (slice all i j) ->
  (cumSize <= splitSize \/ (j - i <= 1)%nat) ->
  Forall (fun c => fitsChunk splitSize (pairs c)) res ->
  greedy splitSize (pairs <$> res) ->
  (forall c1 p, last res = Some c1 -> all !! i = Some p ->
     splitSize < sizeOf (pairs c1) + pairSize p) ->
  let out := splitLoop splitSize all rest j res i cumSize in
  Forall (fun c => fitsChunk splitSize (pairs c)) (fst out)
  /\ greedy splitSize (pairs <$> fst out)
  /\ (forall c1 p, last (fst out) = Some c1 -> all !! snd out = Some p ->
        splitSize < sizeOf (pairs c1) + pairSize p)
  /\ (sizeOf (drop (snd out) all) <= splitSize
      \/ (length all - snd out <= 1)%nat).
Proof.
  intros Hno. cbv zeta. revert j res i cumSize.
  induction rest as [|p rest IH];
    intros j res i cumSize Hd Hij Hcum Hfit Hall Hg Hlink.
  - simpl. split; [exact Hall|]. split; [exact Hg|]. split; [exact Hlink|].
    apply drop_nil_inv in Hd.
    assert (Hs : slice all i j = drop i all).
    { unfold slice. apply take_ge. rewrite length_drop. lia. }
    rewrite Hs in Hcum. subst cumSize. destruct Hfit as [Hle|Hone]; [now left|].
    right. lia.
  - apply drop_cons_next in Hd as (Hj & Hd & Hlt). cbn [splitLoop].
    assert (Hsmall : 0 <= pairSize p <= sizeOf all).
    { pose proof (pairSize_nonneg p).
      pose proof (sizeOf_slice_le all j (S j)) as Hle.
      rewrite (slice_snoc all j j p (Nat.le_refl _) Hj), slice_empty in Hle.
      simpl in Hle. lia. }
    assert (Hp : pairLen p = pairSize p).
    { unfold pairLen. apply wrapInt_small. fold (pairSize p). lia. }
    assert (Hnext : sizeOf (slice all i (S j)) = cumSize + pairSize p).
    { rewrite (slice_snoc all i j p Hij Hj), sizeOf_app, Hcum. simpl. lia. }
    assert (Hsum : wrapInt (cumSize + pairLen p) = cumSize + pairSize p).
    { rewrite Hp. apply wrapInt_small. rewrite <- Hnext.
      pose proof (sizeOf_slice_le all i (S j)).
      pose proof (sizeOf_nonneg (slice all i (S j))). lia. }
    rewrite Hsum.
    destruct ((i <? j)%nat && (splitSize <? cumSize + pairSize p)) eqn:Ecut.
    + apply andb_true_iff in Ecut as [Elt Ebig].
      apply Nat.ltb_lt in Elt. apply Z.ltb_lt in Ebig.
      assert (Hzero : wrapInt (0 + pairLen p) = pairSize p).
      { rewrite Z.add_0_l, Hp. apply wrapInt_small. lia. }
      rewrite Hzero.
      apply IH; [exact Hd|lia| |right; lia| | |].
      * rewrite (slice_snoc all j j p (Nat.le_refl _) Hj), slice_empty.
        simpl. lia.
      * apply List.Forall_app. split; [exact Hall|].
        constructor; [|constructor]. simpl. unfold fitsChunk.
        destruct Hfit as [Hle|Hone]; [left; now rewrite <- Hcum|].
        right. rewrite slice_length by lia. lia.
      * rewrite fmap_app. apply greedy_snoc; [exact Hg|].
        intros c1 Hc1. rewrite fmap_last in Hc1.
        destruct (last res) as [c|] eqn:El; [|discriminate].
        injection Hc1 as <-.
        destruct (lookup_lt_is_Some_2 all i ltac:(lia)) as [q Hq].
        exists q. split; [|now apply (Hlink c q)].
        simpl. unfold slice. rewrite head_lookup, lookup_take_lt by lia.
        now rewrite lookup_drop, Nat.add_0_r.
      * intros c1 q Hc1 Hq. rewrite last_snoc in Hc1. injection Hc1 as <-.
        simpl. rewrite <- Hcum. assert (q = p) by congruence. subst q. lia.
    + apply IH; [exact Hd|lia|now rewrite Hnext| |exact Hall|exact Hg|exact Hlink].
      apply andb_false_iff in Ecut as [Elt|Ebig].
      * apply Nat.ltb_ge in Elt. right. lia.
      * apply Z.ltb_ge in Ebig. now left.
Qed.

(** X18. When the total length of the keys and values is below 2^63 (so
    that no sum overflows), every chunk of [SplitIntoChunks] is within
    [splitSize] or holds a single pair, and every chunk but the last is
    full: the first pair of the next chunk would have taken it over
    [splitSize]. *)
Theorem SplitIntoChunks_sizes (kvs : KvPairs) (splitSize : Z) :
  sizeOf (pairs kvs) < 2 ^ 63 ->
  let chunks := pairs <$> SplitIntoChunks kvs splitSize in
  Forall (fitsChunk splitSize) chunks /\ greedy splitSize chunks.
Proof.
  intros Hno. cbv zeta. unfold SplitIntoChunks.
  destruct (pairs kvs) as [|p0 ps] eqn:Eall.
  { split; [constructor|exact I]. }
  rewrite <- Eall.
  pose proof (splitLoop_partition splitSize (pairs kvs) (pairs kvs) 0 [] 0 0
                eq_refl (Nat.le_refl _) ltac:(rewrite Eall; simpl; lia)
                eq_refl (List.Forall_nil _) (fun _ => eq_refl)) as Hpart.
  pose proof (splitLoop_sizes splitSize (pairs kvs) (pairs kvs) 0 [] 0 0
                ltac:(rewrite Eall; exact Hno) eq_refl (Nat.le_refl _) eq_refl
                ltac:(right; lia)
                (List.Forall_nil _) I ltac:(discriminate)) as Hloop.
  cbv zeta in Hpart, Hloop.
  destruct (splitLoop splitSize (pairs kvs) (pairs kvs) 0 [] 0 0) as [res i].
  cbn [fst snd] in Hpart, Hloop.
  destruct Hpart as (_ & Hi & _ & H0).
  destruct Hloop as (Hall & Hg & Hlink & Hlast).
  assert (Hfinal : (if (i =? 0)%nat then res ++ [kvs]
                    else res ++ [{| pairs := drop i (pairs kvs);
                                    bytesBuf := bytesBuf kvs;
                                    memBuf := memBuf kvs |}])
                   = res ++ [{| pairs := drop i (pairs kvs);
                                bytesBuf := bytesBuf kvs;
                                memBuf := memBuf kvs |}]).
  { destruct (i =? 0)%nat eqn:E0; [|reflexivity].
    apply Nat.eqb_eq in E0. subst i. rewrite (H0 eq_refl). simpl.
    now destruct kvs. }
  rewrite Hfinal, fmap_app. cbn [fmap list_fmap pairs]. split.
  - apply List.Forall_app. split.
    + apply List.Forall_forall. intros c Hc.
      apply list_elem_of_In, list_elem_of_fmap in Hc as (k & -> & Hk).
      rewrite List.Forall_forall in Hall. apply Hall.
      now apply list_elem_of_In.
    + constructor; [|constructor]. unfold fitsChunk.
      destruct Hlast as [Hle|Hone]; [now left|]. right.
      rewrite length_drop. lia.
  - apply greedy_snoc; [exact Hg|]. intros c1 Hc1. rewrite fmap_last in Hc1.
    destruct (last res) as [c|] eqn:El; [|discriminate]. injection Hc1 as <-.
    destruct (lookup_lt_is_Some_2 (pairs kvs) i Hi) as [q Hq].
    exists q. split; [|now apply (Hlink c q)].
    now rewrite head_lookup, lookup_drop, Nat.add_0_r.
Qed.

End SplitChunks.

(** ** The size of rows *)

Section RowsSize.
Import kvrows.

Lemma wrapUint64_wrapInt (x : Z) : wrapUint64 (wrapInt x) = x mod 2 ^ 64.
Proof.
  unfold wrapUint64, wrapInt.
  rewrite Zminus_mod_idemp_l.
  replace (x + 2 ^ 63 - 2 ^ 63) with x by ring. reflexivity.
Qed.

Lemma Size_from (ps : list KvPair) (acc : Z) :
  fold_left (fun size kv => wrapUint64 (size + wrapUint64 (pairLen kv))) ps
    (acc mod 2 ^ 64)
  = (acc + sizeOf ps) mod 2 ^ 64.
Proof.
  revert acc. induction ps as [|p ps IH]; intros acc; simpl.
  - now rewrite Z.add_0_r.
  - unfold pairLen. rewrite wrapUint64_wrapInt. fold (pairSize p).
    unfold wrapUint64. rewrite <- Zplus_mod, IH. f_equal. ring.
Qed.

Lemma Size_total (kvs : KvPairs) : Size kvs = sizeOf (pairs kvs) mod 2 ^ 64.
Proof. unfold Size. apply (Size_from (pairs kvs) 0). Qed.

(** The sum of the sizes of chunks, as 64-bit unsigned numbers. *)
Lemma Size_chunks (chunks : list KvPairs) :
  fold_right (fun c acc => wrapUint64 (Size c + acc)) 0 chunks
  = sizeOf (concat (pairs <$> chunks)) mod 2 ^ 64.
Proof.
  induction chunks as [|c chunks IH]; simpl; [reflexivity|].
  rewrite IH, Size_total, sizeOf_app. unfold wrapUint64.
  now rewrite <- Zplus_mod.
Qed.

(** X19. [Size] is the total length of the keys and values of the pairs,
    as a 64-bit unsigned number: the total itself when it is below 2^64.
    Rows made from a slice of pairs hold these pairs, the sizes of the
    chunks of a split add up to the size of the rows, and the rows have
    size 0 once cleared. *)
Theorem Size_is_total_length (kvs : KvPairs) (splitSize : Z) :
  Size kvs = sizeOf (pairs kvs) mod 2 ^ 64
  /\ (sizeOf (pairs kvs) < 2 ^ 64 -> Size kvs = sizeOf (pairs kvs))
  /\ (forall ps, KvPairsFromRows (MakeRowsFromKvPairs ps) = ps
                 /\ Size (MakeRowsFromKvPairs ps) = sizeOf ps mod 2 ^ 64)
  /\ fold_right (fun c acc => wrapUint64 (Size c + acc)) 0
       (SplitIntoChunks kvs splitSize)
     = Size kvs
  /\ Size (fst (Clear kvs)) = 0.
Proof.
  split; [apply Size_total|]. split; [|split; [|split]].
  - intros Hlt. rewrite Size_total. apply Z.mod_small.
    pose proof (sizeOf_nonneg (pairs kvs)). lia.
  - intros ps. split; [reflexivity|apply Size_total].
  - rewrite Size_chunks, Size_total.
    now rewrite (proj1 (SplitIntoChunks_parts kvs splitSize)).
  - unfold Clear. now destruct (bytesBuf kvs).
Qed.

End RowsSize.

(** ** Classifying pairs into data and index rows *)

Section ClassifiedRows.
Import kvrows.
Context {Checksum : Type} (UpdateOne : Checksum -> KvPair -> Checksum).
Variable TableSplitKeyLen : nat.

(** The loop sends each pair to the data or the index rows, in order,
    until a key is too short for the test. *)
Lemma classifyLoop_spec (ps : list KvPair) (st : Classified) :
  let out := classifyLoop UpdateOne TableSplitKeyLen ps st in
  (snd out = false <-> Forall (longKey TableSplitKeyLen) ps)
  /\ bytesBuf (data (fst out)) = bytesBuf (data st)
  /\ memBuf (data (fst out)) = memBuf (data st)
  /\ bytesBuf (indices (fst out)) = bytesBuf (indices st)
  /\ memBuf (indices (fst out)) = memBuf (indices st)
  /\ (snd out = false ->
      pairs (data (fst out)) = pairs (data st) ++ List.filter (isRecordKey TableSplitKeyLen) ps
      /\ pairs (indices (fst out)) = pairs (indices st) ++ List.filter (fun kv => negb (isRecordKey TableSplitKeyLen kv)) ps
      /\ dataChecksum (fst out)
         = fold_left UpdateOne (List.filter (isRecordKey TableSplitKeyLen) ps) (dataChecksum st)
      /\ indexChecksum (fst out)
         = fold_left UpdateOne (List.filter (fun kv => negb (isRecordKey TableSplitKeyLen kv)) ps) (indexChecksum st)).
Proof.
  cbv zeta. revert st. induction ps as [|kv ps IH]; intros st.
  - simpl. rewrite !app_nil_r. repeat split; auto.
  - cbn [classifyLoop List.filter].
    destruct (Key kv !! (TableSplitKeyLen + 1)%nat) as [b|] eqn:Eb.
    + assert (Erec : isRecordKey TableSplitKeyLen kv = Byte.eqb b "r")
        by (unfold isRecordKey; now rewrite Eb).
      rewrite Erec. apply lookup_lt_Some in Eb.
      assert (Hlong : Forall (longKey TableSplitKeyLen) ps
                      <-> Forall (longKey TableSplitKeyLen) (kv :: ps)).
      { split; [intros Hall; now constructor|]. intros Hall. now inversion Hall. }
      destruct (Byte.eqb b "r"); cbn [negb];
        match goal with
        | |- context [classifyLoop _ _ ps ?st'] => specialize (IH st')
        end;
        destruct IH as (Hok & Hb1 & Hm1 & Hb2 & Hm2 & Hres);
        cbn [data indices dataChecksum indexChecksum appendPair bytesBuf memBuf
             pairs] in *;
        (split; [now rewrite Hok|]);
        (split; [assumption|]); (split; [assumption|]);
        (split; [assumption|]); (split; [assumption|]);
        intros Ho; destruct (Hres Ho) as (Hd & Hi & Hdc & Hic);
        rewrite Hd, Hi, Hdc, Hic, <- ?app_assoc; auto.
    + apply lookup_ge_None_1 in Eb. cbn [fst snd].
      split; [|split; [reflexivity|split; [reflexivity|
               split; [reflexivity|split; [reflexivity|discriminate]]]]].
      split; [discriminate|]. intros Hall. inversion Hall as [|? ? Hk]; subst.
      unfold longKey in Hk. lia.
Qed.

(** X20. [ClassifyAndAppend] panics exactly when a key of the rows has no
    byte at index [TableSplitKeyLen+1]. Otherwise it appends the pairs
    whose byte there is [r] to the data rows and the others to the index
    rows, each in the order of the rows, and updates each checksum with the
    pairs appended to its rows; no pair is lost or taken twice, and the
    rows themselves keep their pairs. The buffers of the rows, when they
    have some, pass to the data rows and the rows give them up; the index
    rows keep theirs. *)
Theorem ClassifyAndAppend_partitions (kvs : KvPairs) (st : Classified) :
  let out := ClassifyAndAppend UpdateOne TableSplitKeyLen kvs st in
  let kvs' := fst (fst out) in
  let st' := snd (fst out) in
  (snd out = false <-> Forall (longKey TableSplitKeyLen) (pairs kvs))
  /\ pairs kvs' = pairs kvs
  /\ (snd out = false ->
      pairs (data st') = pairs (data st) ++ List.filter (isRecordKey TableSplitKeyLen) (pairs kvs)
      /\ pairs (indices st')
         = pairs (indices st) ++ List.filter (fun kv => negb (isRecordKey TableSplitKeyLen kv)) (pairs kvs)
      /\ Permutation (pairs (data st') ++ pairs (indices st'))
           (pairs (data st) ++ pairs (indices st) ++ pairs kvs)
      /\ dataChecksum st'
         = fold_left UpdateOne (List.filter (isRecordKey TableSplitKeyLen) (pairs kvs)) (dataChecksum st)
      /\ indexChecksum st'
         = fold_left UpdateOne (List.filter (fun kv => negb (isRecordKey TableSplitKeyLen kv)) (pairs kvs)) (indexChecksum st)
      /\ bytesBuf (indices st') = bytesBuf (indices st)
      /\ memBuf (indices st') = memBuf (indices st)
      /\ match bytesBuf kvs with
         | Some buf =>
             bytesBuf kvs' = None /\ memBuf kvs' = None
             /\ bytesBuf (data st') = Some buf
             /\ memBuf (data st') = memBuf kvs
         | None =>
             kvs' = kvs /\ bytesBuf (data st') = bytesBuf (data st)
             /\ memBuf (data st') = memBuf (data st)
         end).
Proof.
  cbv zeta. unfold ClassifyAndAppend.
  pose proof (classifyLoop_spec (pairs kvs) st) as Hloop. cbv zeta in Hloop.
  destruct (classifyLoop UpdateOne TableSplitKeyLen (pairs kvs) st)
    as [st' panicked].
  cbn [fst snd] in Hloop.
  destruct Hloop as (Hok & Hb1 & Hm1 & Hb2 & Hm2 & Hres).
  destruct panicked.
  { cbn [fst snd]. split; [exact Hok|]. split; [reflexivity|discriminate]. }
  destruct (Hres eq_refl) as (Hd & Hi & Hdc & Hic).
  assert (Hperm : forall ps : list KvPair,
            Permutation (List.filter (isRecordKey TableSplitKeyLen) ps ++ List.filter (fun kv => negb (isRecordKey TableSplitKeyLen kv)) ps) ps).
  { induction ps as [|kv ps IH]; simpl; [constructor|].
    destruct (isRecordKey TableSplitKeyLen kv); simpl; [now constructor|].
    rewrite <- Permutation_middle. now constructor. }
  assert (Hall : Permutation
            ((pairs (data st) ++ List.filter (isRecordKey TableSplitKeyLen) (pairs kvs))
             ++ pairs (indices st) ++ List.filter (fun kv => negb (isRecordKey TableSplitKeyLen kv)) (pairs kvs))
            (pairs (data st) ++ pairs (indices st) ++ pairs kvs)).
  { rewrite <- app_assoc. apply Permutation_app_head.
    rewrite app_assoc.
    rewrite (Permutation_app_comm (List.filter (isRecordKey TableSplitKeyLen) (pairs kvs))
               (pairs (indices st))).
    rewrite <- app_assoc. apply Permutation_app_head. apply Hperm. }
  destruct (bytesBuf kvs) as [buf|] eqn:Ebuf; cbn [fst snd pairs data indices
    dataChecksum indexChecksum bytesBuf memBuf].
  - split; [exact Hok|]. split; [reflexivity|]. intros _.
    rewrite Hd, Hi. repeat split; auto.
  - split; [exact Hok|]. split; [reflexivity|]. intros _.
    rewrite Hd, Hi. repeat split; auto.
Qed.

(** X21. [Clear] leaves rows with no pair and no byte buffer, and asks the
    pool to recycle the byte buffer exactly when the rows had one: a second
    [Clear] recycles nothing. After [ClassifyAndAppend] has moved the
    buffer of the rows to the data rows, clearing the rows recycles
    nothing and clearing the data rows recycles that buffer, once. *)
Theorem Clear_recycles_once (kvs : KvPairs) (st : Classified) :
  pairs (fst (Clear kvs)) = [] /\ bytesBuf (fst (Clear kvs)) = None
  /\ (snd (Clear kvs) = [] <-> bytesBuf kvs = None)
  /\ Clear (fst (Clear kvs)) = (fst (Clear kvs), [])
  /\ (forall buf,
        bytesBuf kvs = Some buf ->
        let out := ClassifyAndAppend UpdateOne TableSplitKeyLen kvs st in
        snd out = false ->
        snd (Clear (fst (fst out))) = []
        /\ snd (Clear (data (snd (fst out)))) = [EvRecycle (memBuf kvs) buf]
        /\ snd (Clear kvs) = [EvRecycle (memBuf kvs) buf]).
Proof.
  split; [unfold Clear; now destruct (bytesBuf kvs)|].
  split; [unfold Clear; now destruct (bytesBuf kvs)|].
  split; [unfold Clear; destruct (bytesBuf kvs); simpl; split; congruence|].
  split; [unfold Clear; now destruct (bytesBuf kvs)|].
  intros buf Hbuf. cbv zeta. unfold ClassifyAndAppend.
  destruct (classifyLoop UpdateOne TableSplitKeyLen (pairs kvs) st)
    as [st' [|]]; cbn [fst snd]; [discriminate|].
  rewrite Hbuf. cbn [fst snd data]. intros _. unfold Clear.
  cbn [bytesBuf memBuf]. now rewrite Hbuf.
Qed.

End ClassifiedRows.

(** ** The rows of [kvrows.demoRows] *)

Section SplitScenario.
Import kvrows.

(** With a split size of 6 the first two pairs (3 + 3) make a chunk and
    the third (5) the next. *)
Lemma SplitIntoChunks_sizes_witness :
  sizeOf (pairs demoRows) < 2 ^ 63
  /\ length <$> (pairs <$> SplitIntoChunks demoRows 6) = [2%nat; 1%nat]
  /\ Forall (fitsChunk 6) (pairs <$> SplitIntoChunks demoRows 6)
  /\ greedy 6 (pairs <$> SplitIntoChunks demoRows 6).
Proof.
  assert (Hno : sizeOf (pairs demoRows) < 2 ^ 63) by (vm_compute; reflexivity).
  split; [exact Hno|]. split; [vm_compute; reflexivity|].
  exact (SplitIntoChunks_sizes demoRows 6 Hno).
Defined.

End SplitScenario.

(** ** Row IDs with shard bits *)

Section ShardedRowID.
Import shardid.
Variable uint32Of : Z -> Z.
Variable RowIDBitLength : Z.

Lemma wrapInt64_small (x : Z) : - 2 ^ 63 <= x < 2 ^ 63 -> wrapInt64 x = x.
Proof. intros Hx. unfold wrapInt64. rewrite Z.mod_small; lia. Qed.

(** The mask keeps the low [bits] bits. *)
Lemma shard_mask (bits : Z) :
  0 < bits < 64 -> wrapInt64 (shlInt64 1 bits - 1) = 2 ^ bits - 1.
Proof.
  intros Hb. unfold shlInt64.
  destruct (64 <=? bits) eqn:E; [apply Z.leb_le in E; lia|].
  rewrite Z.shiftl_1_l.
  destruct (Z.eq_dec bits 63) as [->|Hne].
  - reflexivity.
  - assert (Hp : 2 ^ bits <= 2 ^ 62) by (apply Z.pow_le_mono_r; lia).
    assert (0 < 2 ^ bits) by (apply Z.pow_pos_nonneg; lia).
    rewrite (wrapInt64_small (2 ^ bits)) by lia.
    apply wrapInt64_small. lia.
Qed.

(** With the shard below bit [shift], the ID is the shard bits over the
    row ID. *)
Lemma shardRowID_sum (bits id : Z) :
  0 < bits -> bits < RowIDBitLength <= 64 ->
  0 <= id < 2 ^ (RowIDBitLength - bits - 1) ->
  shardRowID uint32Of RowIDBitLength bits id
  = (uint32Of id mod 2 ^ 32) mod 2 ^ bits * 2 ^ (RowIDBitLength - bits - 1) + id
    /\ 0 <= (uint32Of id mod 2 ^ 32) mod 2 ^ bits < 2 ^ bits.
Proof.
  intros Hb Hr Hid. unfold shardRowID. cbv zeta.
  set (shift := RowIDBitLength - bits - 1) in *.
  assert (Hshift : 0 <= shift < 63) by (unfold shift; lia).
  rewrite shard_mask by lia.
  assert (Hones : 2 ^ bits - 1 = Z.ones bits).
  { rewrite Z.ones_equiv. lia. }
  rewrite Hones, Z.land_ones by lia.
  set (u := (uint32Of id mod 2 ^ 32) mod 2 ^ bits).
  assert (Hu : 0 <= u < 2 ^ bits).
  { unfold u. apply Z.mod_pos_bound. apply Z.pow_pos_nonneg; lia. }
  split; [|exact Hu].
  unfold wrapUint64. rewrite (Z.mod_small shift) by lia.
  unfold shlInt64. destruct (64 <=? shift) eqn:E; [apply Z.leb_le in E; lia|].
  rewrite Z.shiftl_mul_pow2 by lia.
  assert (Hpos : 0 < 2 ^ shift) by (apply Z.pow_pos_nonneg; lia).
  assert (Hprod : 0 <= u * 2 ^ shift < 2 ^ 63).
  { split; [nia|].
    assert (u * 2 ^ shift < 2 ^ bits * 2 ^ shift) by nia.
    rewrite <- Z.pow_add_r in H by lia.
    assert (2 ^ (bits + shift) <= 2 ^ 63) by (apply Z.pow_le_mono_r; lia).
    lia. }
  rewrite wrapInt64_small by lia.
  rewrite <- Z.lxor_lor, <- Z.add_nocarry_lxor; try reflexivity.
  - apply Z.bits_inj'. intros n Hn. rewrite Z.land_spec, Z.bits_0.
    destruct (Z.lt_ge_cases n shift) as [Hlt|Hge].
    + rewrite <- Z.shiftl_mul_pow2 by lia. rewrite Z.shiftl_spec_low by lia.
      reflexivity.
    + destruct (Z.eq_dec id 0) as [->|Hne];
        [rewrite Z.bits_0; apply andb_false_r|].
      rewrite (Z.bits_above_log2 id n); [apply andb_false_r|lia|].
      apply Z.log2_lt_pow2; [lia|].
      eapply Z.lt_le_trans; [apply Hid|]. apply Z.pow_le_mono_r; lia.
  - apply Z.bits_inj'. intros n Hn. rewrite Z.land_spec, Z.bits_0.
    destruct (Z.lt_ge_cases n shift) as [Hlt|Hge].
    + rewrite <- Z.shiftl_mul_pow2 by lia. rewrite Z.shiftl_spec_low by lia.
      reflexivity.
    + destruct (Z.eq_dec id 0) as [->|Hne];
        [rewrite Z.bits_0; apply andb_false_r|].
      rewrite (Z.bits_above_log2 id n); [apply andb_false_r|lia|].
      apply Z.log2_lt_pow2; [lia|].
      eapply Z.lt_le_trans; [apply Hid|]. apply Z.pow_le_mono_r; lia.
Qed.

(** X22. For a table with [bits] shard bits ([0 < bits], and a row ID
    length [RowIDBitLength] above [bits] and at most 64), the ID the
    encoder derives from a row ID below 2^(RowIDBitLength - bits - 1) keeps
    the row ID in its low bits and puts the shard (the low [bits] bits of
    the generator's number for this row ID) above them; it is not negative
    and below 2^(RowIDBitLength - 1), and two such row IDs never give the
    same ID. Without shard bits and auto-random bits the ID is the row ID
    itself. *)
Theorem shardRowID_keeps_row_id (bits id : Z) :
  0 < bits -> bits < RowIDBitLength <= 64 ->
  0 <= id < 2 ^ (RowIDBitLength - bits - 1) ->
  let shift := RowIDBitLength - bits - 1 in
  let fn := newAutoIDFn uint32Of RowIDBitLength false (fun x => x) bits in
  fn id = shardRowID uint32Of RowIDBitLength bits id
  /\ Z.land (fn id) (Z.ones shift) = id
  /\ Z.shiftr (fn id) shift = Z.land (uint32Of id mod 2 ^ 32) (Z.ones bits)
  /\ 0 <= fn id < 2 ^ (RowIDBitLength - 1)
  /\ (forall id', 0 <= id' < 2 ^ shift -> fn id' = fn id -> id' = id)
  /\ newAutoIDFn uint32Of RowIDBitLength false (fun x => x) 0 id = id.
Proof.
  intros Hb Hr Hid. cbv zeta.
  set (shift := RowIDBitLength - bits - 1) in *.
  assert (Hshift : 0 <= shift < 63) by (unfold shift; lia).
  assert (Hpos : 0 < 2 ^ shift) by (apply Z.pow_pos_nonneg; lia).
  assert (Hfn : forall x,
            newAutoIDFn uint32Of RowIDBitLength false (fun x => x) bits x
            = shardRowID uint32Of RowIDBitLength bits x).
  { intros x. unfold newAutoIDFn.
    destruct (0 <? bits) eqn:E; [reflexivity|]. apply Z.ltb_ge in E. lia. }
  rewrite !Hfn.
  destruct (shardRowID_sum bits id Hb Hr Hid) as [Hsum Hu].
  set (u := (uint32Of id mod 2 ^ 32) mod 2 ^ bits) in *.
  split; [reflexivity|]. split; [|split; [|split; [|split]]].
  - rewrite Z.land_ones by lia. rewrite Hsum.
    rewrite Z.add_comm, Z.mod_add by lia. apply Z.mod_small. exact Hid.
  - rewrite Z.shiftr_div_pow2, Z.land_ones by lia. rewrite Hsum.
    rewrite Z.add_comm, Z.div_add by lia. rewrite Z.div_small by exact Hid.
    reflexivity.
  - rewrite Hsum. split; [nia|].
    assert (Hle : u * 2 ^ shift + id < 2 ^ bits * 2 ^ shift) by nia.
    rewrite <- Z.pow_add_r in Hle by lia.
    replace (bits + shift) with (RowIDBitLength - 1) in Hle by (unfold shift; lia).
    exact Hle.
  - intros id' Hid' Heq. rewrite !Hfn in Heq.
    destruct (shardRowID_sum bits id' Hb Hr Hid') as [Hsum' _].
    fold shift in Hsum'. rewrite Hsum, Hsum' in Heq.
    assert (Hm : (((uint32Of id' mod 2 ^ 32) mod 2 ^ bits) * 2 ^ shift + id')
                 mod 2 ^ shift
                 = (u * 2 ^ shift + id) mod 2 ^ shift) by now rewrite Heq.
    rewrite !(Z.add_comm (_ * 2 ^ shift)), !Z.mod_add in Hm by lia.
    rewrite !Z.mod_small in Hm by assumption. exact Hm.
  - reflexivity.
Qed.

End ShardedRowID.

Section ShardedRowIDScenario.
Import shardid.

(** Four shard bits in 64-bit row IDs: the row ID 5 stays in the low 59
    bits. *)
Lemma shardRowID_witness :
  let fn := newAutoIDFn (fun id => id * 7 + 3) 64 false (fun x => x) 4 in
  fn 5 = 6 * 2 ^ 59 + 5 /\ Z.land (fn 5) (Z.ones 59) = 5.
Proof.
  cbv zeta. split; [vm_compute; reflexivity|].
  exact (proj1 (proj2 (shardRowID_keeps_row_id (fun id => id * 7 + 3) 64 4 5
                         ltac:(lia) ltac:(lia) ltac:(lia)))).
Defined.

End ShardedRowIDScenario.

(** ** The registry of flow handles *)

Section Registry.
Import dispatcher.

(** X23. [GetGTaskFlowHandle] returns the handle last registered for the
    type, and nil for a type that was never registered; registering a type
    does not change the handle of another, and registrations of two
    different types can be made in either order. *)
Theorem registered_handle_is_returned (m : HandleMap) (taskType other : string)
    (h h' : GTaskFlowHandle) :
  GetGTaskFlowHandle taskType (RegisterGTaskFlowHandle taskType h m) = h
  /\ GetGTaskFlowHandle taskType
       (RegisterGTaskFlowHandle taskType h'
          (RegisterGTaskFlowHandle taskType h m)) = h'
  /\ GetGTaskFlowHandle taskType ∅ = None
  /\ (other <> taskType ->
      GetGTaskFlowHandle other (RegisterGTaskFlowHandle taskType h m)
      = GetGTaskFlowHandle other m
      /\ RegisterGTaskFlowHandle other h' (RegisterGTaskFlowHandle taskType h m)
         = RegisterGTaskFlowHandle taskType h
             (RegisterGTaskFlowHandle other h' m)).
Proof.
  unfold GetGTaskFlowHandle, RegisterGTaskFlowHandle, HandleMap in *.
  split; [now rewrite lookup_insert_eq|].
  split; [now rewrite lookup_insert_eq|].
  split; [now rewrite lookup_empty|].
  intros Hne. split.
  - now rewrite lookup_insert_ne by congruence.
  - apply insert_insert_ne. congruence.
Qed.

End Registry.

(** ** The replay of a table that has a buffer does not panic *)

Section ReplaySafety.
Import Go kv cdclog restore.
Context `{Collaborators}.
Variable tableID : Z.







End ReplaySafety.

Section ReplaySafetyScenario.
Import kv cdclog restore scenario.


End ReplaySafetyScenario.

(** ** The generated columns in the record *)

Section GeneratedValues.
Import Go kv sql2kv.
Context `{EncoderDeps}.

Lemma generatedFrom_NoDup (cols : list Column) (start : nat) :
  List.NoDup (generatedFrom start cols).
Proof.
  revert start. induction cols as [|c cols IH]; intros start; simpl;
    [constructor|].
  destruct (hasGeneratedExpr c); [|apply IH].
  constructor; [|apply IH].
  intros Hin. apply generatedFrom_In in Hin as (_ & _ & _ & Hle). lia.
Qed.

Lemma generatedFrom_complete (cols : list Column) (start i : nat) (col : Column) :
  cols !! i = Some col -> hasGeneratedExpr col = true ->
  In (start + i)%nat (generatedFrom start cols).
Proof.
  revert start i. induction cols as [|c cols IH]; intros start i; [discriminate|].
  destruct i as [|i]; simpl.
  - intros [= ->] ->. left. lia.
  - intros Hcol Hg. specialize (IH (S start) i Hcol Hg).
    replace (start + S i)%nat with (S start + i)%nat by lia.
    destruct (hasGeneratedExpr c); [now right|exact IH].
Qed.

(** X25. In the record [Encode] hands to [AddRecord], the slot of a
    generated column holds the value the evaluation of its expression set
    there: whatever the row gave for that column, and the placeholder put
    there while the record was filled, are overwritten. *)
Theorem Encode_sets_generated_values (cols : list Column) (meta : TableInfo)
    (autoRandomCol : Z) (idFn : Z -> Z) (kvcodec : tableKVEncoder)
    (row : list Datum) (rowID : Z) (columnPermutation : list Z)
    (record : list Datum) (i : nat) (col : Column) :
  NewTableKVEncoder cols meta autoRandomCol idFn = inl kvcodec ->
  In (EvAddRecord record) (snd (Encode kvcodec row rowID columnPermutation)) ->
  cols !! i = Some col -> hasGeneratedExpr col = true ->
  exists v,
    In (EvSetGen i v) (snd (Encode kvcodec row rowID columnPermutation))
    /\ record !! i = Some v.
Proof.
  intros Hnew Hin Hcol Hgen.
  assert (Hperm : Permutation (index <$> genCols kvcodec) (generatedFrom 0 cols)).
  { unfold NewTableKVEncoder in Hnew.
    destruct (collectGeneratedColumns cols) as [gcs|err] eqn:Egc; [|discriminate].
    injection Hnew as <-. apply (collectGeneratedColumns_sorted cols gcs Egc). }
  assert (Hnd : List.NoDup (index <$> genCols kvcodec)).
  { eapply Permutation_NoDup; [symmetry; exact Hperm|apply generatedFrom_NoDup]. }
  assert (Hi : In i (index <$> genCols kvcodec)).
  { eapply Permutation_in; [symmetry; exact Hperm|].
    exact (generatedFrom_complete cols 0 i col Hcol Hgen). }
  assert (Hr : In record (addedRecords
                            (snd (Encode kvcodec row rowID columnPermutation)))).
  { apply list_elem_of_In, list_elem_of_omap. exists (EvAddRecord record).
    split; [now apply list_elem_of_In|reflexivity]. }
  destruct (Encode_record kvcodec row rowID columnPermutation)
    as [[Hnone _] | (record' & t & Ht & Hadd & _ & _ & _ & Hset)].
  - rewrite Hnone in Hr. destruct Hr.
  - rewrite Ht, addedRecords_app, Hadd in Hr. simpl in Hr.
    destruct Hr as [->|[]].
    destruct (Hset Hnd i Hi) as (v & Hv & Hrec).
    exists v. split; [|exact Hrec]. rewrite Ht. apply in_or_app. now left.
Qed.

End GeneratedValues.

Section GeneratedValuesScenario.
Import kv sql2kv sql2kv.scenario.
#[local] Existing Instance demoDeps.

(** The generated column of index 1 holds the evaluated value 4, not the
    placeholder of the filling loop. *)
Lemma Encode_sets_generated_values_witness :
  In (EvAddRecord [KindInt64 7; KindInt64 4; KindInt64 4; KindInt64 1])
     (snd (Encode demoEncoder [KindInt64 7] 1 [0; -1; -1; -1]))
  /\ exists v,
       In (EvSetGen 1 v) (snd (Encode demoEncoder [KindInt64 7] 1 [0; -1; -1; -1]))
       /\ [KindInt64 7; KindInt64 4; KindInt64 4; KindInt64 1] !! 1%nat = Some v.
Proof.
  assert (Hin : In (EvAddRecord [KindInt64 7; KindInt64 4; KindInt64 4; KindInt64 1])
                  (snd (Encode demoEncoder [KindInt64 7] 1 [0; -1; -1; -1]))).
  { vm_compute. tauto. }
  split; [exact Hin|].
  exact (Encode_sets_generated_values demoCols demoMeta 0 (fun id => id)
           demoEncoder [KindInt64 7] 1 [0; -1; -1; -1]
           [KindInt64 7; KindInt64 4; KindInt64 4; KindInt64 1] 1
           (generated 2 2 "a + c") eq_refl Hin eq_refl eq_refl).
Defined.

End GeneratedValuesScenario.
